(** * Parson: a shallow embedding of parson.c and its specification

    The embedding follows src/parson.c function by function.

    - A [char *] is a [string]: the bytes before the terminating NUL.  A
      cursor ([const char **string]) is the suffix of the input that is still
      to be read; reading at the terminator gives the NUL byte.
    - A [double] is an IEEE binary64 value, [spec_float] with [prec = 53] and
      [emax = 1024].
    - [JSON_Value] trees are an inductive type; a [JSON_Value *] that can be
      [NULL] is an [option].  Where the parent back-reference matters the
      values live in a store of cells addressed by locations (module
      [Store]).
    - [parson_malloc] is taken to succeed, so the growth of [capacity] has no
      observable effect and a container is the list of its first [count]
      entries.
    - [strtod] and [sprintf] belong to the C library, not to parson: they are
      parameters of the development (section variables), and
      [RefLibc] gives one executable instance of them. *)

From Stdlib Require Import ZArith NArith Ascii String SpecFloat Lia Bool.
From stdpp Require Import base list strings gmap.

Open Scope Z_scope.

(** ** Results of the fuelled loops *)

(** [Fail] is the [NULL] (or [JSONFailure]) of the C code.  [OutOfFuel] is
    not a behaviour of the program: the fuelled functions return it when
    their recursion bound is too small, and the totality lemmas show that the
    bounds used by the entry points are always large enough. *)
Inductive result (A : Type) : Type :=
  | Ok (a : A)
  | Fail
  | OutOfFuel.
Arguments Ok {A} a.
Arguments Fail {A}.
Arguments OutOfFuel {A}.

Definition bind {A B} (r : result A) (k : A -> result B) : result B :=
  match r with
  | Ok a => k a
  | Fail => Fail
  | OutOfFuel => OutOfFuel
  end.

Definition of_option {A} (o : option A) : result A :=
  match o with
  | Some a => Ok a
  | None => Fail
  end.

Inductive JSON_Status : Set := JSONSuccess | JSONFailure.

(** ** Characters and C strings *)

Definition uchar (c : ascii) : Z := Z.of_N (N_of_ascii c).
Definition char_of (z : Z) : ascii := ascii_of_N (Z.to_N (z mod 256)).

Definition NUL : ascii := "000"%char.
Definition DQUOTE : ascii := "034"%char.

(** [*s] *)
Definition peek (s : string) : ascii :=
  match s with
  | EmptyString => NUL
  | String c _ => c
  end.

(** [s[i]] *)
Definition char_at (i : nat) (s : string) : ascii :=
  match String.get i s with
  | Some c => c
  | None => NUL
  end.

(** [s + 1] and [s + n]; the code never moves a cursor past the terminator. *)
Definition SKIP_CHAR (s : string) : string :=
  match s with
  | EmptyString => EmptyString
  | String _ r => r
  end.

Fixpoint advance (n : nat) (s : string) : string :=
  match n with
  | O => s
  | S k => advance k (SKIP_CHAR s)
  end.

(** The bytes a [char *] denotes: those before the first NUL. *)
Fixpoint c_str (s : string) : string :=
  match s with
  | EmptyString => EmptyString
  | String c r => if Ascii.eqb c NUL then EmptyString else String c (c_str r)
  end.

Definition strlen (s : string) : nat := String.length (c_str s).

(** [isspace] in the "C" locale. *)
Definition isspace (c : ascii) : bool :=
  let n := uchar c in (n =? 32) || ((9 <=? n) && (n <=? 13)).

(** [SKIP_WHITESPACES] *)
Fixpoint SKIP_WHITESPACES (s : string) : string :=
  match s with
  | EmptyString => EmptyString
  | String c r => if isspace c then SKIP_WHITESPACES r else s
  end.

(** [strncmp(a, b, n) == 0]: the first [n] bytes agree, or both strings end
    together before that. *)
Fixpoint strncmp_eq (a b : string) (n : nat) : bool :=
  match n with
  | O => true
  | S k =>
      if Ascii.eqb (peek a) (peek b)
      then if Ascii.eqb (peek a) NUL then true
           else strncmp_eq (SKIP_CHAR a) (SKIP_CHAR b) k
      else false
  end.

(** [strcmp(a, b) == 0] *)
Definition strcmp_eq (a b : string) : bool := String.eqb (c_str a) (c_str b).

(** [SIZEOF_TOKEN] *)
Definition SIZEOF_TOKEN (tok : string) : nat := String.length tok.

(** ** Various *)

Definition hex_char_to_int (c : ascii) : Z :=
  let n := uchar c in
  if (uchar "0" <=? n) && (n <=? uchar "9") then n - uchar "0"
  else if (uchar "a" <=? n) && (n <=? uchar "f") then n - uchar "a" + 10
  else if (uchar "A" <=? n) && (n <=? uchar "F") then n - uchar "A" + 10
  else -1.

Definition parse_utf16_hex (s : string) : option Z :=
  match s with
  | String c0 (String c1 (String c2 (String c3 _))) =>
      if Ascii.eqb c0 NUL || Ascii.eqb c1 NUL || Ascii.eqb c2 NUL || Ascii.eqb c3 NUL
      then None
      else
        let x1 := hex_char_to_int c0 in
        let x2 := hex_char_to_int c1 in
        let x3 := hex_char_to_int c2 in
        let x4 := hex_char_to_int c3 in
        if (x1 =? -1) || (x2 =? -1) || (x3 =? -1) || (x4 =? -1) then None
        else Some (Z.lor (Z.lor (Z.lor (Z.shiftl x1 12) (Z.shiftl x2 8)) (Z.shiftl x3 4)) x4)
  | _ => None
  end.

(** [strchr("xX", c) != NULL]; the terminator of the literal matches NUL. *)
Definition is_x_marker (c : ascii) : bool :=
  Ascii.eqb c "x" || Ascii.eqb c "X" || Ascii.eqb c NUL.

(** The [while (length--)] loop of [is_decimal]: no marker among the first
    [length] characters. *)
Fixpoint no_x_marker (length : nat) (s : string) : bool :=
  match length with
  | O => true
  | S k => negb (is_x_marker (char_at k s)) && no_x_marker k s
  end.

Definition is_decimal (s : string) (length : nat) : bool :=
  if (1 <? length)%nat && Ascii.eqb (char_at 0 s) "0" && negb (Ascii.eqb (char_at 1 s) ".")
  then false
  else if (2 <? length)%nat && strncmp_eq s "-0" 2 && negb (Ascii.eqb (char_at 2 s) ".")
  then false
  else no_x_marker length s.

(** ** The value model *)

(** [JSON_Value_Type]; [JSONError] is the type of a [NULL] value. *)
Inductive JSON_Value_Type : Set :=
  | JSONError | JSONNull | JSONString | JSONNumber
  | JSONObject | JSONArray | JSONBoolean.

Definition double : Set := spec_float.
Definition prec : Z := 53.
Definition emax : Z := 1024.

(** A [JSON_Object] is its [names]/[values] arrays up to [count], kept as one
    list of pairs in index order; a [JSON_Array] is its [items] up to
    [count]. *)
#[warnings="-register-all"]
Inductive JSON_Value : Type :=
  | json_null
  | json_string (s : string)
  | json_number (d : double)
  | json_object (o : list (string * JSON_Value))
  | json_array (a : list JSON_Value)
  | json_boolean (b : bool).

Abbreviation JSON_Object := (list (string * JSON_Value)).
Abbreviation JSON_Array := (list JSON_Value).

Definition json_value_get_type (value : option JSON_Value) : JSON_Value_Type :=
  match value with
  | None => JSONError
  | Some json_null => JSONNull
  | Some (json_string _) => JSONString
  | Some (json_number _) => JSONNumber
  | Some (json_object _) => JSONObject
  | Some (json_array _) => JSONArray
  | Some (json_boolean _) => JSONBoolean
  end.

Definition json_value_get_object (value : option JSON_Value) : option JSON_Object :=
  match value with Some (json_object o) => Some o | _ => None end.

Definition json_value_get_array (value : option JSON_Value) : option JSON_Array :=
  match value with Some (json_array a) => Some a | _ => None end.

Definition json_value_get_string (value : option JSON_Value) : option string :=
  match value with Some (json_string s) => Some s | _ => None end.

Definition S754_zero_pos : double := S754_zero false.

Definition json_value_get_number (value : option JSON_Value) : double :=
  match value with Some (json_number d) => d | _ => S754_zero_pos end.

Definition json_value_get_boolean (value : option JSON_Value) : Z :=
  match value with Some (json_boolean b) => if b then 1 else 0 | _ => -1 end.

(** [IS_NUMBER_INVALID]: [isnan(x) || isinf(x)] *)
Definition IS_NUMBER_INVALID (x : double) : bool :=
  match x with
  | S754_nan | S754_infinity _ => true
  | _ => false
  end.

Definition json_value_init_object : option JSON_Value := Some (json_object []).
Definition json_value_init_array : option JSON_Value := Some (json_array []).
Definition json_value_init_null : option JSON_Value := Some json_null.

Definition json_value_init_boolean (boolean : Z) : option JSON_Value :=
  Some (json_boolean (negb (boolean =? 0))).

Definition json_value_init_number (number : double) : option JSON_Value :=
  if IS_NUMBER_INVALID number then None else Some (json_number number).

(** The stored [char *] is read back only through [strlen], [strcmp] and
    [strdup], so the value keeps the bytes before the first NUL. *)
Definition json_value_init_string_no_copy (s : string) : option JSON_Value :=
  Some (json_string (c_str s)).

(** ** JSON Object *)

Section ObjectStore.
Context {V : Type}.

Definition json_object_get_count (object : list (string * V)) : nat :=
  List.length object.

(** [strncpy]-then-terminate: the first [n] bytes of [name], or fewer when
    [name] ends earlier. *)
Definition parson_strndup (name : string) (n : nat) : string :=
  c_str (String.substring 0 n name).

(** The scan of [json_object_getn_value]: the first entry whose name has
    length [name_len] and agrees with the first [name_len] bytes of
    [name]. *)
Definition name_matches (stored name : string) (name_len : nat) : bool :=
  (strlen stored =? name_len)%nat && strncmp_eq stored name name_len.

Fixpoint json_object_getn_value (object : list (string * V)) (name : string)
    (name_len : nat) : option V :=
  match object with
  | [] => None
  | (n, v) :: rest =>
      if name_matches n name name_len then Some v
      else json_object_getn_value rest name name_len
  end.

Definition json_object_get_value (object : list (string * V)) (name : string)
    : option V :=
  json_object_getn_value object name (strlen name).

Definition json_object_get_name (object : list (string * V)) (index : nat)
    : option string :=
  fst <$> object !! index.

(** [json_object_resize] with a succeeding allocator fails only for a
    zero capacity. *)
Definition json_object_resize (object : list (string * V)) (new_capacity : nat)
    : JSON_Status :=
  if (new_capacity =? 0)%nat then JSONFailure else JSONSuccess.

(** The [value] argument is non-NULL here; the NULL check of the C function
    is made by the callers that can pass NULL. *)
Definition json_object_addn (object : list (string * V)) (name : string)
    (name_len : nat) (value : V) : JSON_Status * list (string * V) :=
  match json_object_getn_value object name name_len with
  | Some _ => (JSONFailure, object)
  | None => (JSONSuccess, object ++ [(parson_strndup name name_len, value)])
  end.

Definition json_object_add (object : list (string * V)) (name : string)
    (value : V) : JSON_Status * list (string * V) :=
  json_object_addn object name (strlen name) value.
End ObjectStore.

(** ** JSON Array *)

Definition json_array_get_count {V} (array : list V) : nat := List.length array.

Definition json_array_get_value {V} (array : list V) (index : nat) : option V :=
  array !! index.

(** [json_array_add]: grow if needed, then store at [items[count]]. *)
Definition json_array_add {V} (array : list V) (value : V) : list V :=
  array ++ [value].

Definition json_array_resize {V} (array : list V) (new_capacity : nat) : JSON_Status :=
  if (new_capacity =? 0)%nat then JSONFailure else JSONSuccess.

(** The first [n] bytes of a text. *)
Definition take_str (n : nat) (s : string) : string := String.substring 0 n s.

(** ** Parser *)

Definition MAX_NESTING : Z := 2048.

(** [skip_quotes], entered after the opening quote has been checked: the
    cursor just after the matching closing quote. *)
Fixpoint skip_quotes_loop (s : string) : option string :=
  match s with
  | EmptyString => None
  | String c r =>
      if Ascii.eqb c DQUOTE then Some r
      else if Ascii.eqb c NUL then None
      else if Ascii.eqb c "\" then
        match r with
        | EmptyString => None
        | String c' r' => if Ascii.eqb c' NUL then None else skip_quotes_loop r'
        end
      else skip_quotes_loop r
  end.

Definition skip_quotes (s : string) : option string :=
  if negb (Ascii.eqb (peek s) DQUOTE) then None
  else skip_quotes_loop (SKIP_CHAR s).

(** [parse_utf16] is entered with the cursor on the [u] of an escape.  It
    gives the UTF-8 bytes it stored through [processed] and the new cursor,
    which is left on the last hexadecimal digit it read. *)
Definition parse_utf16 (unprocessed : string) : option (list ascii * string) :=
  let unprocessed_ptr := SKIP_CHAR unprocessed in
  match parse_utf16_hex unprocessed_ptr with
  | None => None
  | Some cp =>
      if cp <? 0x80 then
        Some ([char_of cp], advance 3 unprocessed_ptr)
      else if cp <? 0x800 then
        Some ([char_of (Z.lor (Z.land (Z.shiftr cp 6) 0x1F) 0xC0);
               char_of (Z.lor (Z.land cp 0x3F) 0x80)],
              advance 3 unprocessed_ptr)
      else if (cp <? 0xD800) || (0xDFFF <? cp) then
        Some ([char_of (Z.lor (Z.land (Z.shiftr cp 12) 0x0F) 0xE0);
               char_of (Z.lor (Z.land (Z.shiftr cp 6) 0x3F) 0x80);
               char_of (Z.lor (Z.land cp 0x3F) 0x80)],
              advance 3 unprocessed_ptr)
      else if (0xD800 <=? cp) && (cp <=? 0xDBFF) then
        let lead := cp in
        let unprocessed_ptr := advance 4 unprocessed_ptr in
        if negb (Ascii.eqb (peek unprocessed_ptr) "\") then None
        else
          let unprocessed_ptr := SKIP_CHAR unprocessed_ptr in
          if negb (Ascii.eqb (peek unprocessed_ptr) "u") then None
          else
            let unprocessed_ptr := SKIP_CHAR unprocessed_ptr in
            match parse_utf16_hex unprocessed_ptr with
            | None => None
            | Some trail =>
                if (trail <? 0xDC00) || (0xDFFF <? trail) then None
                else
                  let cp := Z.lor (Z.shiftl (Z.land (lead - 0xD800) 0x3FF) 10)
                                  (Z.land (trail - 0xDC00) 0x3FF) + 0x010000 in
                  Some ([char_of (Z.lor (Z.land (Z.shiftr cp 18) 0x07) 0xF0);
                         char_of (Z.lor (Z.land (Z.shiftr cp 12) 0x3F) 0x80);
                         char_of (Z.lor (Z.land (Z.shiftr cp 6) 0x3F) 0x80);
                         char_of (Z.lor (Z.land cp 0x3F) 0x80)],
                        advance 3 unprocessed_ptr)
            end
      else None
  end.

Fixpoint store_bytes (bytes : list ascii) (rest : string) : string :=
  match bytes with
  | [] => rest
  | b :: bs => String b (store_bytes bs rest)
  end.

(** [*output_ptr = c; output_ptr++] followed by the rest of the loop. *)
Definition emit (bytes : list ascii) (r : result string) : result string :=
  bind r (fun out => Ok (store_bytes bytes out)).

(** The [while] loop of [process_string].  [input_len] is the length of the
    text at [input], so [input_len - length input_ptr] is
    [input_ptr - input].  The result is the content of [output] up to the
    position of the final terminator.  Every turn moves [input_ptr] forward,
    so [len] turns are enough. *)
Fixpoint process_string_loop (fuel : nat) (input_len : nat) (input_ptr : string)
    (len : nat) : result string :=
  if Ascii.eqb (peek input_ptr) NUL
     || negb (input_len - String.length input_ptr <? len)%nat
  then Ok EmptyString
  else
    match fuel with
    | O => OutOfFuel
    | S fuel' =>
        let continue p := process_string_loop fuel' input_len (SKIP_CHAR p) len in
        if Ascii.eqb (peek input_ptr) "\" then
          let input_ptr := SKIP_CHAR input_ptr in
          let c := peek input_ptr in
          if Ascii.eqb c DQUOTE then emit [DQUOTE] (continue input_ptr)
          else if Ascii.eqb c "\" then emit ["\"%char] (continue input_ptr)
          else if Ascii.eqb c "/" then emit ["/"%char] (continue input_ptr)
          else if Ascii.eqb c "b" then emit ["008"%char] (continue input_ptr)
          else if Ascii.eqb c "f" then emit ["012"%char] (continue input_ptr)
          else if Ascii.eqb c "n" then emit ["010"%char] (continue input_ptr)
          else if Ascii.eqb c "r" then emit ["013"%char] (continue input_ptr)
          else if Ascii.eqb c "t" then emit ["009"%char] (continue input_ptr)
          else if Ascii.eqb c "u" then
            match parse_utf16 input_ptr with
            | None => Fail
            | Some (bytes, input_ptr) => emit bytes (continue input_ptr)
            end
          else Fail
        else if uchar (peek input_ptr) <? 0x20 then Fail
        else emit [peek input_ptr] (continue input_ptr)
    end.

Definition process_string (input : string) (len : nat) : result string :=
  process_string_loop len (String.length input) input len.

(** The processed text between the quotes and the cursor after the closing
    quote. *)
Definition get_quoted_string (s : string) : result (string * string) :=
  match skip_quotes s with
  | None => Fail
  | Some rest =>
      let string_len := (String.length s - String.length rest - 2)%nat in
      bind (process_string (SKIP_CHAR s) string_len) (fun out => Ok (out, rest))
  end.

Section Parson.

(** The C library.  [strtod s] gives the converted number, the number of
    characters consumed ([end - s]) and whether [errno] was set.
    [sprintf_g17 d] is the text [sprintf(buf, "%1.17g", d)] writes. *)
Variable strtod : string -> double * nat * bool.
Variable sprintf_g17 : double -> string.

Definition parse_string_value (s : string) : result (JSON_Value * string) :=
  bind (get_quoted_string s) (fun '(new_string, s) =>
    bind (of_option (json_value_init_string_no_copy new_string)) (fun value =>
      Ok (value, s))).

Definition parse_boolean_value (s : string) : result (JSON_Value * string) :=
  let true_token_size := SIZEOF_TOKEN "true" in
  let false_token_size := SIZEOF_TOKEN "false" in
  if strncmp_eq "true" s true_token_size then
    bind (of_option (json_value_init_boolean 1)) (fun value =>
      Ok (value, advance true_token_size s))
  else if strncmp_eq "false" s false_token_size then
    bind (of_option (json_value_init_boolean 0)) (fun value =>
      Ok (value, advance false_token_size s))
  else Fail.

Definition parse_number_value (s : string) : result (JSON_Value * string) :=
  let '(number, consumed, errno) := strtod s in
  if errno || negb (is_decimal s consumed) then Fail
  else
    bind (of_option (json_value_init_number number)) (fun value =>
      Ok (value, advance consumed s)).

Definition parse_null_value (s : string) : result (JSON_Value * string) :=
  let token_size := SIZEOF_TOKEN "null" in
  if strncmp_eq "null" s token_size then
    bind (of_option json_value_init_null) (fun value =>
      Ok (value, advance token_size s))
  else Fail.

(** The [while] loop of [parse_object_value], run until the terminator.
    [parse_value] is the recursive call at the container's nesting. *)
Fixpoint parse_object_loop (parse_value : string -> result (JSON_Value * string))
    (fuel : nat) (s : string) (output_object : JSON_Object)
    : result (JSON_Object * string) :=
  if Ascii.eqb (peek s) NUL then Ok (output_object, s)
  else
    match fuel with
    | O => OutOfFuel
    | S fuel' =>
        bind (get_quoted_string s) (fun '(new_key, s) =>
          let s := SKIP_WHITESPACES s in
          if negb (Ascii.eqb (peek s) ":") then Fail
          else
            let s := SKIP_CHAR s in
            bind (parse_value s) (fun '(new_value, s) =>
              match json_object_add output_object new_key new_value with
              | (JSONFailure, _) => Fail
              | (JSONSuccess, output_object) =>
                  let s := SKIP_WHITESPACES s in
                  if negb (Ascii.eqb (peek s) ",") then Ok (output_object, s)
                  else
                    let s := SKIP_WHITESPACES (SKIP_CHAR s) in
                    parse_object_loop parse_value fuel' s output_object
              end))
    end.

Definition parse_object_value (parse_value : string -> result (JSON_Value * string))
    (fuel : nat) (s : string) : result (JSON_Value * string) :=
  match json_value_get_object json_value_init_object with
  | None => Fail
  | Some output_object =>
      if negb (Ascii.eqb (peek s) "{") then Fail
      else
        let s := SKIP_WHITESPACES (SKIP_CHAR s) in
        if Ascii.eqb (peek s) "}" then Ok (json_object output_object, SKIP_CHAR s)
        else
          bind (parse_object_loop parse_value fuel s output_object)
            (fun '(output_object, s) =>
              let s := SKIP_WHITESPACES s in
              if negb (Ascii.eqb (peek s) "}") then Fail
              else
                match json_object_resize output_object
                        (json_object_get_count output_object) with
                | JSONFailure => Fail
                | JSONSuccess => Ok (json_object output_object, SKIP_CHAR s)
                end)
  end.

Fixpoint parse_array_loop (parse_value : string -> result (JSON_Value * string))
    (fuel : nat) (s : string) (output_array : JSON_Array)
    : result (JSON_Array * string) :=
  if Ascii.eqb (peek s) NUL then Ok (output_array, s)
  else
    match fuel with
    | O => OutOfFuel
    | S fuel' =>
        bind (parse_value s) (fun '(new_array_value, s) =>
          let output_array := json_array_add output_array new_array_value in
          let s := SKIP_WHITESPACES s in
          if negb (Ascii.eqb (peek s) ",") then Ok (output_array, s)
          else
            let s := SKIP_WHITESPACES (SKIP_CHAR s) in
            parse_array_loop parse_value fuel' s output_array)
    end.

Definition parse_array_value (parse_value : string -> result (JSON_Value * string))
    (fuel : nat) (s : string) : result (JSON_Value * string) :=
  match json_value_get_array json_value_init_array with
  | None => Fail
  | Some output_array =>
      if negb (Ascii.eqb (peek s) "[") then Fail
      else
        let s := SKIP_WHITESPACES (SKIP_CHAR s) in
        if Ascii.eqb (peek s) "]" then Ok (json_array output_array, SKIP_CHAR s)
        else
          bind (parse_array_loop parse_value fuel s output_array)
            (fun '(output_array, s) =>
              let s := SKIP_WHITESPACES s in
              if negb (Ascii.eqb (peek s) "]") then Fail
              else
                match json_array_resize output_array
                        (json_array_get_count output_array) with
                | JSONFailure => Fail
                | JSONSuccess => Ok (json_array output_array, SKIP_CHAR s)
                end)
  end.

Definition is_number_start (c : ascii) : bool :=
  Ascii.eqb c "-" || ((uchar "0" <=? uchar c) && (uchar c <=? uchar "9")).

(** [fuel] bounds the depth of the recursion and the length of the
    container loops; both are bounded by the length of the input. *)
Fixpoint parse_value (fuel : nat) (s : string) (nesting : Z)
    : result (JSON_Value * string) :=
  match fuel with
  | O => OutOfFuel
  | S fuel' =>
      if MAX_NESTING <? nesting then Fail
      else
        let s := SKIP_WHITESPACES s in
        let c := peek s in
        if Ascii.eqb c "{" then
          parse_object_value (fun s => parse_value fuel' s (nesting + 1)) fuel' s
        else if Ascii.eqb c "[" then
          parse_array_value (fun s => parse_value fuel' s (nesting + 1)) fuel' s
        else if Ascii.eqb c DQUOTE then parse_string_value s
        else if Ascii.eqb c "f" || Ascii.eqb c "t" then parse_boolean_value s
        else if is_number_start c then parse_number_value s
        else if Ascii.eqb c "n" then parse_null_value s
        else Fail
  end.

(** Support for the UTF-8 byte order mark. *)
Definition skip_bom (s : string) : string :=
  if Ascii.eqb (char_at 0 s) "239" && Ascii.eqb (char_at 1 s) "187"
     && Ascii.eqb (char_at 2 s) "191"
  then advance 3 s else s.

(** [json_parse_string] of a non-NULL string.  The cursor left by
    [parse_value] is dropped. *)
Definition json_parse_string (s : string) : result JSON_Value :=
  let s := skip_bom s in
  bind (parse_value (S (String.length s)) s 0) (fun '(value, _) => Ok value).



(** *** Serialization *)

(** The global [parson_escape_slashes] flag. *)
Variable parson_escape_slashes : bool.

(** The content of the block of [n] bytes [parson_malloc(n)] returns. *)
Variable parson_malloc : nat -> list ascii.

(** The output buffer is the list [mem] of its bytes; a [char *buf] into
    it is an offset, and [None] is the [NULL] of the counting pass.
    Writing past the end of the buffer is undefined in C; here it extends
    the list. *)
Definition write_at (m : list ascii) (p : nat) (bs : list ascii) : list ascii :=
  take p m ++ bs ++ drop (p + List.length bs) m.

(** [sprintf(buf, "%s", text)] and [sprintf(buf, "%1.17g", num)]: the
    text and its terminator. *)
Definition store (m : list ascii) (p : nat) (text : string) : list ascii :=
  write_at m p (list_ascii_of_string text ++ [NUL]).

(** The local state of a serialization function ([buf] and
    [written_total]) together with the buffer. *)
Record frame : Type := Frame {
  mem : list ascii;
  buf : option nat;
  written_total : Z
}.

(** A statement either goes on with a new frame or leaves the function
    with a return value. *)
Inductive outcome : Type :=
  | Continue (f : frame)
  | Return (r : Z) (m : list ascii).

Definition stmt : Type := frame -> outcome.

Definition seq (a b : stmt) : stmt :=
  fun f => match a f with Continue f' => b f' | Return r m => Return r m end.
Local Infix ">>" := seq (at level 65, right associativity).

Definition skip : stmt := Continue.
Definition when (c : bool) (a : stmt) : stmt := if c then a else skip.

(** [for (i = from; i < from + n; i++) body(i)] *)
Fixpoint for_loop (n : nat) (from : nat) (body : nat -> stmt) : stmt :=
  match n with
  | O => skip
  | S k => body from >> for_loop k (S from) body
  end.

Definition return_written_total : stmt :=
  fun f => Return (written_total f) (mem f).

(** A function entered with [written_total = 0]. *)
Definition run (body : stmt) (m : list ascii) (b : option nat) : Z * list ascii :=
  match body (Frame m b 0) with
  | Continue f => (written_total f, mem f)
  | Return r m' => (r, m')
  end.

(** [written = callee(..., buf); if (written < 0) return -1;
    if (buf != NULL) buf += written; written_total += written;] *)
Definition call (callee : list ascii -> option nat -> Z * list ascii) : stmt :=
  fun f =>
    let '(written, m) := callee (mem f) (buf f) in
    if written <? 0 then Return (-1) m
    else Continue (Frame m ((fun b => b + Z.to_nat written)%nat <$> buf f)
                         (written_total f + written)).

Definition append_string (text : string) (m : list ascii) (b : option nat)
    : Z * list ascii :=
  match b with
  | None => (Z.of_nat (strlen text), m)
  | Some p => (Z.of_nat (strlen text), store m p (c_str text))
  end.

Definition APPEND_STRING (text : string) : stmt := call (append_string text).

Definition append_indent (level : Z) (m : list ascii) (b : option nat)
    : Z * list ascii :=
  run (for_loop (Z.to_nat level) 0 (fun _ => APPEND_STRING "    ")
       >> return_written_total) m b.

Definition APPEND_INDENT (level : Z) : stmt := call (append_indent level).

(** The [default] case of [json_serialize_string]:
    [buf[0] = c; buf += 1; written_total += 1;] *)
Definition put_char (c : ascii) : stmt :=
  fun f =>
    match buf f with
    | None => Continue (Frame (mem f) None (written_total f + 1))
    | Some p =>
        Continue (Frame (write_at (mem f) p [c]) (Some (p + 1)%nat)
                        (written_total f + 1))
    end.

Definition hex_digit (n : Z) : ascii :=
  if n <? 10 then char_of (uchar "0" + n) else char_of (uchar "a" + n - 10).

(** The [switch (c)] of [json_serialize_string]. *)
Definition serialize_char (c : ascii) : stmt :=
  if Ascii.eqb c DQUOTE then APPEND_STRING (String "\" (String DQUOTE EmptyString))
  else if Ascii.eqb c "\" then APPEND_STRING "\\"
  else if Ascii.eqb c "008" then APPEND_STRING "\b"
  else if Ascii.eqb c "012" then APPEND_STRING "\f"
  else if Ascii.eqb c "010" then APPEND_STRING "\n"
  else if Ascii.eqb c "013" then APPEND_STRING "\r"
  else if Ascii.eqb c "009" then APPEND_STRING "\t"
  else if uchar c <? 0x20 then
    APPEND_STRING (String "\" (String "u" (String "0" (String "0"
      (String (hex_digit (uchar c / 16)) (String (hex_digit (uchar c mod 16))
        EmptyString))))))
  else if Ascii.eqb c "/" then
    if parson_escape_slashes then APPEND_STRING "\/" else APPEND_STRING "/"
  else put_char c.

Fixpoint serialize_chars (s : string) : stmt :=
  match s with
  | EmptyString => skip
  | String c r => serialize_char c >> serialize_chars r
  end.

Definition json_serialize_string (s : string) (m : list ascii) (b : option nat)
    : Z * list ascii :=
  run (APPEND_STRING (String DQUOTE EmptyString)
       >> serialize_chars (c_str s)
       >> APPEND_STRING (String DQUOTE EmptyString)
       >> return_written_total) m b.

(** A call whose callee comes from a lookup that gives [NULL] when it
    fails: [json_serialize_to_buffer_r] of [NULL] returns [-1]. *)
Definition call_value (callee : option (list ascii -> option nat -> Z * list ascii))
    : stmt :=
  match callee with
  | Some g => call g
  | None => fun f => Return (-1) (mem f)
  end.

Definition serialize_array_body (count : nat) (level : Z) (is_pretty : bool)
    (items : list (list ascii -> option nat -> Z * list ascii)) : stmt :=
  APPEND_STRING "["
  >> when ((0 <? count)%nat && is_pretty) (APPEND_STRING (String "010" EmptyString))
  >> for_loop count 0 (fun i =>
       when is_pretty (APPEND_INDENT (level + 1))
       >> call_value (json_array_get_value items i)
       >> when (i <? count - 1)%nat (APPEND_STRING ",")
       >> when is_pretty (APPEND_STRING (String "010" EmptyString)))
  >> when ((0 <? count)%nat && is_pretty) (APPEND_INDENT level)
  >> APPEND_STRING "]"
  >> return_written_total.

Definition serialize_object_body (count : nat) (level : Z) (is_pretty : bool)
    (members : list (string * (list ascii -> option nat -> Z * list ascii))) : stmt :=
  APPEND_STRING "{"
  >> when ((0 <? count)%nat && is_pretty) (APPEND_STRING (String "010" EmptyString))
  >> for_loop count 0 (fun i =>
       match json_object_get_name members i with
       | None => fun f => Return (-1) (mem f)
       | Some key =>
           when is_pretty (APPEND_INDENT (level + 1))
           >> call (json_serialize_string key)
           >> APPEND_STRING ":"
           >> when is_pretty (APPEND_STRING " ")
           >> call_value (json_object_get_value members key)
           >> when (i <? count - 1)%nat (APPEND_STRING ",")
           >> when is_pretty (APPEND_STRING (String "010" EmptyString))
       end)
  >> when ((0 <? count)%nat && is_pretty) (APPEND_INDENT level)
  >> APPEND_STRING "}"
  >> return_written_total.

Definition serialize_array_body_run count level is_pretty items :=
  run (serialize_array_body count level is_pretty items).
Definition serialize_object_body_run count level is_pretty members :=
  run (serialize_object_body count level is_pretty members).

(** [json_serialize_to_buffer_r] of a non-NULL value.  The recursive calls
    on the children are prepared in index order and picked by the loops
    the way the code picks the children ([json_array_get_value] by index,
    [json_object_get_value] by key). *)
Fixpoint json_serialize_to_buffer_r (value : JSON_Value) (level : Z)
    (is_pretty : bool) (m : list ascii) (b : option nat) {struct value}
    : Z * list ascii :=
  match value with
  | json_array array =>
      serialize_array_body_run (json_array_get_count array) level is_pretty
        (List.map (fun v => json_serialize_to_buffer_r v (level + 1) is_pretty) array)
        m b
  | json_object object =>
      serialize_object_body_run (json_object_get_count object) level is_pretty
        (List.map (fun p => (fst p, json_serialize_to_buffer_r (snd p) (level + 1) is_pretty))
           object)
        m b
  | json_string s =>
      run (call (json_serialize_string s) >> return_written_total) m b
  | json_boolean boolean =>
      run ((if boolean then APPEND_STRING "true" else APPEND_STRING "false")
           >> return_written_total) m b
  | json_number num =>
      run (call (fun m b =>
                   let text := sprintf_g17 num in
                   (Z.of_nat (String.length text),
                    match b with Some p => store m p text | None => m end))
           >> return_written_total) m b
  | json_null =>
      run (APPEND_STRING "null" >> return_written_total) m b
  end.

Definition NUM_BUF_SIZE : nat := 64.

(** A [const JSON_Value *] that may be [NULL]: its type is then
    [JSONError] and the function returns [-1]. *)
Definition serialize_value_to_buffer_r (value : option JSON_Value) (level : Z)
    (is_pretty : bool) (m : list ascii) (b : option nat) : Z * list ascii :=
  match value with
  | None => (-1, m)
  | Some v => json_serialize_to_buffer_r v level is_pretty m b
  end.




Definition json_serialization_size_pretty (value : option JSON_Value) : nat :=
  let res := fst (serialize_value_to_buffer_r value 0 true [] None) in
  if res <? 0 then O else Z.to_nat (res + 1).

Definition json_serialize_to_buffer_pretty (value : option JSON_Value)
    (m : list ascii) (buf_size_in_bytes : nat) : JSON_Status * list ascii :=
  let needed_size_in_bytes := json_serialization_size_pretty value in
  if (needed_size_in_bytes =? 0)%nat || (buf_size_in_bytes <? needed_size_in_bytes)%nat
  then (JSONFailure, m)
  else
    let '(written, m') := serialize_value_to_buffer_r value 0 true m (Some O) in
    if written <? 0 then (JSONFailure, m') else (JSONSuccess, m').

Definition json_serialize_to_string_pretty (value : option JSON_Value) : option string :=
  let buf_size_bytes := json_serialization_size_pretty value in
  if (buf_size_bytes =? 0)%nat then None
  else
    match json_serialize_to_buffer_pretty value (parson_malloc buf_size_bytes)
            buf_size_bytes with
    | (JSONFailure, _) => None
    | (JSONSuccess, m) => Some (c_str (string_of_list_ascii m))
    end.

End Parson.

(** ** Structural equality *)

(** The double nearest to [0.000001]. *)
Definition EPSILON : double := S754_finite false 4722366482869645 (-72).

Definition fabs (x : double) : double := SFabs x.
Definition double_sub (x y : double) : double := SFsub prec emax x y.
Definition double_lt (x y : double) : bool := SFltb x y.

(** [json_value_equals(NULL, b)]: equal types means [b] is [NULL] too, and
    the [JSONError] case returns 1. *)
Definition json_value_equals_null (b : option JSON_Value) : bool :=
  match b with None => true | Some _ => false end.

(** [for (i = from; i < from + n; i++) if (!test(i)) return 0;] then
    [return 1]. *)
Fixpoint all_indices (n from : nat) (test : nat -> bool) : bool :=
  match n with
  | O => true
  | S k => if test from then all_indices k (S from) test else false
  end.

Definition equals_child (callee : option (option JSON_Value -> bool))
    (b : option JSON_Value) : bool :=
  match callee with
  | Some g => g b
  | None => json_value_equals_null b
  end.

(** [json_value_equals] for a non-NULL first argument.  As in the
    serializer, the recursive calls on the children of [a] are prepared in
    index order and picked by index (arrays) or by key (objects). *)
Fixpoint json_value_equals (a : JSON_Value) (b : option JSON_Value) {struct a} : bool :=
  match a, b with
  | json_array a_array, Some (json_array b_array) =>
      let a_count := json_array_get_count a_array in
      let b_count := json_array_get_count b_array in
      let a_items := List.map json_value_equals a_array in
      if negb (a_count =? b_count)%nat then false
      else all_indices a_count 0 (fun i =>
             equals_child (json_array_get_value a_items i)
                          (json_array_get_value b_array i))
  | json_object a_object, Some (json_object b_object) =>
      let a_count := json_object_get_count a_object in
      let b_count := json_object_get_count b_object in
      let a_members := List.map (fun p => (fst p, json_value_equals (snd p))) a_object in
      if negb (a_count =? b_count)%nat then false
      else all_indices a_count 0 (fun i =>
             match json_object_get_name a_object i with
             | None => equals_child None None
             | Some key =>
                 equals_child (json_object_get_value a_members key)
                              (json_object_get_value b_object key)
             end)
  | json_string a_string, Some (json_string b_string) =>
      strcmp_eq a_string b_string
  | json_boolean a_boolean, Some (json_boolean b_boolean) =>
      Bool.eqb a_boolean b_boolean
  | json_number a_number, Some (json_number b_number) =>
      double_lt (fabs (double_sub a_number b_number)) EPSILON
  | json_null, Some json_null => true
  | _, _ => false
  end.

Definition json_value_equals_opt (a b : option JSON_Value) : bool :=
  match a with
  | None => json_value_equals_null b
  | Some a => json_value_equals a b
  end.

(** ** A reference C library

    One executable instance of the two C library functions, used where a
    closed example needs one.  The conversions are correctly rounded, as in
    glibc; [errno] is set on overflow and when a tiny result is inexact. *)
Module RefLibc.

Definition is_digit (c : ascii) : bool :=
  (uchar "0" <=? uchar c) && (uchar c <=? uchar "9").

Definition is_hex_digit (c : ascii) : bool :=
  negb (hex_char_to_int c =? -1).

(** Longest run of digits in the given base: its value, its length and the
    rest of the text. *)
Fixpoint scan_digits (base : Z) (ok : ascii -> bool) (s : string) (acc : Z) (n : nat)
    : Z * nat * string :=
  match s with
  | String c r =>
      if ok c then scan_digits base ok r (acc * base + hex_char_to_int c) (S n)
      else (acc, n, s)
  | EmptyString => (acc, n, s)
  end.

(** Digits with an optional radix point: mantissa value, number of digits
    after the point, number of digits in all, characters consumed. *)
Definition scan_mantissa (base : Z) (ok : ascii -> bool) (s : string)
    : Z * nat * nat * nat :=
  let '(m1, n1, r1) := scan_digits base ok s 0 O in
  if Ascii.eqb (peek r1) "." then
    let '(m2, n2, _) := scan_digits base ok (SKIP_CHAR r1) m1 O in
    (m2, n2, (n1 + n2)%nat, (n1 + 1 + n2)%nat)
  else (m1, O, n1, n1).

(** An exponent part after its marker: value and characters consumed with
    the marker; no digits means no exponent part. *)
Definition scan_exponent (s : string) : Z * nat :=
  let c := peek s in
  let neg := Ascii.eqb c "-" in
  let signed := neg || Ascii.eqb c "+" in
  let '(e, n, _) := scan_digits 10 is_digit (if signed then SKIP_CHAR s else s) 0 O in
  if (n =? 0)%nat then (0, O)
  else (if neg then - e else e, (1 + (if signed then 1 else 0) + n)%nat).

(** The double nearest to [m * 10 ^ e10] (ties to even), for [m > 0]. *)
Definition round_decimal (sign : bool) (m : positive) (e10 : Z) : double :=
  if 0 <=? e10 then
    binary_round prec emax sign (m * Z.to_pos (10 ^ e10)) 0
  else
    let '(mz, ez, lz) := SFdiv_core_binary prec emax (Zpos m) 0 (10 ^ (- e10)) 0 in
    binary_round_aux prec emax sign mz ez lz.

(** Whether [d] is exactly [m * b ^ e] in magnitude. *)
Definition exactly (d : double) (m : Z) (b : Z) (e : Z) : bool :=
  match d with
  | S754_zero _ => m =? 0
  | S754_finite _ dm de =>
      let lhs := Zpos dm * 2 ^ (Z.max de 0) * b ^ (Z.max (- e) 0) in
      let rhs := m * b ^ (Z.max e 0) * 2 ^ (Z.max (- de) 0) in
      lhs =? rhs
  | _ => false
  end.

Definition is_tiny (d : double) : bool :=
  match d with
  | S754_zero _ => true
  | S754_finite _ dm _ => negb (Zpos (digits2_pos dm) =? prec)
  | _ => false
  end.

Definition range_error (d : double) (m b e : Z) : bool :=
  match d with
  | S754_infinity _ => true
  | _ => is_tiny d && negb (exactly d m b e)
  end.

Definition lower (c : ascii) : ascii :=
  if (uchar "A" <=? uchar c) && (uchar c <=? uchar "Z") then char_of (uchar c + 32)
  else c.

Fixpoint starts_with_nocase (tok s : string) : bool :=
  match tok, s with
  | EmptyString, _ => true
  | String c tok', String d s' => Ascii.eqb c (lower d) && starts_with_nocase tok' s'
  | _, _ => false
  end.

(** Exponents beyond these bounds give an infinity or a zero whatever the
    digits are; clamping keeps the powers small. *)
Definition clamp (e : Z) : Z := Z.max (-100000) (Z.min 100000 e).

Fixpoint count_whitespaces (s : string) : nat :=
  match s with
  | String c r => if isspace c then S (count_whitespaces r) else O
  | EmptyString => O
  end.

(** The hexadecimal form, after [0x]. *)
Definition strtod_hex (neg : bool) (lead : nat) (hex_body : string)
    : double * nat * bool :=
  let '(hm, hfrac, _, hlen) := scan_mantissa 16 is_hex_digit hex_body in
  let after := advance hlen hex_body in
  let '(e, elen) :=
    if Ascii.eqb (lower (peek after)) "p" then scan_exponent (SKIP_CHAR after)
    else (0, O) in
  let e2 := clamp e - 4 * Z.of_nat hfrac in
  let d := match hm with
           | Zpos p => binary_round prec emax neg p e2
           | _ => S754_zero neg
           end in
  (d, (lead + 2 + hlen + elen)%nat, range_error d hm 2 e2).

(** The decimal form. *)
Definition strtod_decimal (neg : bool) (lead : nat) (body : string)
    : double * nat * bool :=
  let '(m, frac, ndigits, mlen) := scan_mantissa 10 is_digit body in
  if (ndigits =? 0)%nat then (S754_zero false, O, false)
  else
    let after := advance mlen body in
    let '(e, elen) :=
      if Ascii.eqb (lower (peek after)) "e" then scan_exponent (SKIP_CHAR after)
      else (0, O) in
    let e10 := clamp e - Z.of_nat frac in
    let d := match m with
             | Zpos p => round_decimal neg p e10
             | _ => S754_zero neg
             end in
    (d, (lead + mlen + elen)%nat, range_error d m 10 e10).

Definition has_hex_digits (hex_body : string) : bool :=
  is_hex_digit (peek hex_body)
  || (Ascii.eqb (peek hex_body) "." && is_hex_digit (peek (SKIP_CHAR hex_body))).

Definition strtod (s : string) : double * nat * bool :=
  let ws := count_whitespaces s in
  let s0 := SKIP_WHITESPACES s in
  let c := peek s0 in
  let neg := Ascii.eqb c "-" in
  let signed := neg || Ascii.eqb c "+" in
  let lead := (ws + (if signed then 1 else 0))%nat in
  let body := if signed then SKIP_CHAR s0 else s0 in
  if starts_with_nocase "infinity" body then (S754_infinity neg, (lead + 8)%nat, false)
  else if starts_with_nocase "inf" body then (S754_infinity neg, (lead + 3)%nat, false)
  else if starts_with_nocase "nan" body then (S754_nan, (lead + 3)%nat, false)
  else if starts_with_nocase "0x" body && has_hex_digits (advance 2 body)
  then strtod_hex neg lead (advance 2 body)
  else strtod_decimal neg lead body.

(** Number of decimal digits of a positive integer; [fuel] bounds it. *)
Fixpoint decimal_digits (fuel : nat) (n : Z) : nat :=
  match fuel with
  | O => O
  | S k => if n <? 10 then 1%nat else S (decimal_digits k (n / 10))
  end.

(** The last [n] decimal digits of [v], most significant first, before
    [rest]. *)
Fixpoint digits_to_string (n : nat) (v : Z) (rest : string) : string :=
  match n with
  | O => rest
  | S k => digits_to_string k (v / 10) (String (char_of (uchar "0" + v mod 10)) rest)
  end.

Fixpoint strip_zeros_rev (s : list ascii) : list ascii :=
  match s with
  | c :: r => if Ascii.eqb c "0" then strip_zeros_rev r else s
  | [] => []
  end.

(** Without the [#] flag, [%g] removes the trailing zeros of the fraction,
    and the point when no fraction is left. *)
Definition strip_fraction (int_part frac : string) : string :=
  match strip_zeros_rev (List.rev (list_ascii_of_string frac)) with
  | [] => int_part
  | l => (int_part ++ "." ++ string_of_list_ascii (List.rev l))%string
  end.

Definition exponent_text (x : Z) : string :=
  let a := Z.abs x in
  let n := Nat.max 2 (decimal_digits 20 a) in
  String (if x <? 0 then "-"%char else "+"%char) (digits_to_string n a EmptyString).

(** The 17 significant digits of [m * 2 ^ e] after rounding to nearest
    (ties to even), and the decimal exponent of the first one. *)
Definition significant_digits (m : positive) (e : Z) : Z * Z :=
  let D := if 0 <=? e then Zpos m * 2 ^ e else Zpos m * 5 ^ (- e) in
  let k := if 0 <=? e then 0 else - e in
  let nd := Z.of_nat (decimal_digits 2000 D) in
  let X := nd - 1 - k in
  if nd <=? 17 then (D * 10 ^ (17 - nd), X)
  else
    let unit := 10 ^ (nd - 17) in
    let q := D / unit in
    let r := D mod unit in
    let q' := if (unit <? 2 * r) || ((unit =? 2 * r) && Z.odd q) then q + 1 else q in
    if q' =? 10 ^ 17 then (10 ^ 16, X + 1) else (q', X).

Definition sprintf_g17 (d : double) : string :=
  match d with
  | S754_nan => "nan"
  | S754_infinity s => if s then "-inf" else "inf"
  | S754_zero s => if s then "-0" else "0"
  | S754_finite s m e =>
      let '(q, X) := significant_digits m e in
      let all := digits_to_string 17 q EmptyString in
      let body :=
        if (X <? -4) || (17 <=? X) then
          (strip_fraction (take_str 1 all) (String.substring 1 16 all)
           ++ "e" ++ exponent_text X)%string
        else if X <? 0 then
          strip_fraction "0"
            (digits_to_string (Z.to_nat (- X - 1)) 0 EmptyString ++ all)
        else
          strip_fraction (take_str (Z.to_nat (X + 1)) all)
            (String.substring (Z.to_nat (X + 1)) 17 all)
      in
      if s then String "-" body else body
  end.

(** A fresh block holds whatever was there: here the byte [?]. *)
Definition parson_malloc (n : nat) : list ascii := replicate n "?"%char.

End RefLibc.

(** ** Removal *)

(** [memmove(cells + dst, cells + src, n * sizeof *cells)] *)
Definition memmove {V} (cells : list V) (dst src n : nat) : list V :=
  take dst cells ++ take n (drop src cells) ++ drop (dst + n) cells.

(** [json_array_remove]: the removed item is freed, the items after it are
    moved down and [count] is decremented. *)
Definition json_array_remove {V} (array : list V) (ix : nat) : JSON_Status * list V :=
  if (json_array_get_count array <=? ix)%nat then (JSONFailure, array)
  else
    let to_move := (json_array_get_count array - 1 - ix)%nat in
    let items := memmove array ix (ix + 1) to_move in
    (JSONSuccess, take (json_array_get_count array - 1) items).

(** The [for] loop of [json_object_remove_internal] from index [i] on, with
    [n] indices left: at the first name equal to [name] the last pair
    replaces the pair found, unless it is the pair found, and [count] is
    decremented. *)
Fixpoint remove_scan {V} (object : list (string * V)) (name : string)
    (n i : nat) : JSON_Status * list (string * V) :=
  match n with
  | O => (JSONFailure, object)
  | S k =>
      match object !! i with
      | Some (stored, _) =>
          if strcmp_eq stored name then
            let last_item_index := (json_object_get_count object - 1)%nat in
            let pairs :=
              if negb (i =? last_item_index)%nat then
                match object !! last_item_index with
                | Some last => <[i := last]> object
                | None => object
                end
              else object in
            (JSONSuccess, take (json_object_get_count object - 1) pairs)
          else remove_scan object name k (S i)
      | None => (JSONFailure, object)
      end
  end.

Definition json_object_remove_internal {V} (object : list (string * V))
    (name : string) : JSON_Status * list (string * V) :=
  match json_object_get_value object name with
  | None => (JSONFailure, object)
  | Some _ => remove_scan object name (json_object_get_count object) 0
  end.

Definition json_object_remove {V} (object : list (string * V)) (name : string)
    : JSON_Status * list (string * V) :=
  json_object_remove_internal object name.

(** ** Values in memory

    The functions that build and change trees work on [JSON_Value] structures
    linked by pointers: a value points to its parent, an array or an object
    points to its items.  This part models them on a heap of such
    structures.  A [JSON_Array *] or [JSON_Object *] is identified with the
    address of its wrapping value.  Allocation never fails and never gives an
    address again; a function that reads or writes freed memory, frees it
    again, or does not return has no result ([None]). *)
Module Heap.

Definition addr : Type := positive.

(** [JSON_Value_Value] with its [JSON_Value_Type] tag. *)
Inductive json_value_value : Type :=
  | value_string (string : string)
  | value_number (number : double)
  | value_object (pairs : list (string * addr))
  | value_array (items : list addr)
  | value_boolean (boolean : bool)
  | value_null.

(** [struct json_value_t] *)
Record json_value_t : Type := Value_t {
  parent : option addr;
  value : json_value_value
}.

Record heap : Type := Heap_t {
  cells : gmap addr json_value_t;
  next : addr
}.

Definition empty_heap : heap := {| cells := ∅; next := 1%positive |}.

Definition load (h : heap) (a : addr) : option json_value_t := cells h !! a.

Definition store_cell (h : heap) (a : addr) (c : json_value_t) : heap :=
  {| cells := <[a := c]> (cells h); next := next h |}.

(** [parson_malloc] of a value structure, initialised with a NULL parent. *)
Definition alloc (h : heap) (v : json_value_value) : option addr * heap :=
  (Some (next h),
   {| cells := <[next h := {| parent := None; value := v |}]> (cells h);
      next := Pos.succ (next h) |}).

(** [parson_free] of a value structure. *)
Definition free (h : heap) (a : addr) : option heap :=
  _ ← load h a; Some {| cells := delete a (cells h); next := next h |}.

(** [value->parent = p] *)
Definition set_parent (h : heap) (a : addr) (p : option addr) : option heap :=
  c ← load h a; Some (store_cell h a {| parent := p; value := value c |}).

Definition get_items (h : heap) (array : addr) : option (list addr) :=
  c ← load h array;
  match value c with value_array items => Some items | _ => None end.

Definition set_items (h : heap) (array : addr) (items : list addr) : option heap :=
  c ← load h array;
  Some (store_cell h array {| parent := parent c; value := value_array items |}).

Definition get_pairs (h : heap) (object : addr) : option (list (string * addr)) :=
  c ← load h object;
  match value c with value_object pairs => Some pairs | _ => None end.

Definition set_pairs (h : heap) (object : addr) (pairs : list (string * addr))
    : option heap :=
  c ← load h object;
  Some (store_cell h object {| parent := parent c; value := value_object pairs |}).

(** *** UTF-8 validation of [json_value_init_string] *)

Definition IS_CONT (b : ascii) : bool := Z.land (uchar b) 0xC0 =? 0x80.

Definition num_bytes_in_utf8_sequence (c : ascii) : Z :=
  let n := uchar c in
  if (n =? 0xC0) || (n =? 0xC1) || (0xF4 <? n) || IS_CONT c then 0
  else if Z.land n 0x80 =? 0 then 1
  else if Z.land n 0xE0 =? 0xC0 then 2
  else if Z.land n 0xF0 =? 0xE0 then 3
  else if Z.land n 0xF8 =? 0xF0 then 4
  else 0.

(** The result and [*len]. *)
Definition verify_utf8_sequence (string : string) : bool * Z :=
  let len := num_bytes_in_utf8_sequence (char_at 0 string) in
  let byte i := uchar (char_at i string) in
  let more cp i := Z.lor (Z.shiftl cp 6) (Z.land (byte i) 0x3F) in
  let cp :=
    if len =? 1 then Some (byte 0%nat)
    else if (len =? 2) && IS_CONT (char_at 1 string) then
      Some (more (Z.land (byte 0%nat) 0x1F) 1%nat)
    else if (len =? 3) && IS_CONT (char_at 1 string) && IS_CONT (char_at 2 string) then
      Some (more (more (Z.land (byte 0%nat) 0xF) 1%nat) 2%nat)
    else if (len =? 4) && IS_CONT (char_at 1 string) && IS_CONT (char_at 2 string)
            && IS_CONT (char_at 3 string) then
      Some (more (more (more (Z.land (byte 0%nat) 0x7) 1%nat) 2%nat) 3%nat)
    else None in
  match cp with
  | None => (false, len)
  | Some cp =>
      if ((cp <? 0x80) && (1 <? len)) || ((cp <? 0x800) && (2 <? len))
         || ((cp <? 0x10000) && (3 <? len)) then (false, len)
      else if 0x10FFFF <? cp then (false, len)
      else if (0xD800 <=? cp) && (cp <=? 0xDFFF) then (false, len)
      else (true, len)
  end.

(** The loop of [is_valid_utf8] with [left] bytes up to [string_end]; a
    verified sequence has at least one byte, so [fuel] the length is
    enough. *)
Fixpoint is_valid_utf8_loop (fuel : nat) (string : string) (left : Z) : bool :=
  if left <=? 0 then true
  else
    match fuel with
    | O => false
    | S fuel' =>
        let '(ok, len) := verify_utf8_sequence string in
        if negb ok then false
        else is_valid_utf8_loop fuel' (advance (Z.to_nat len) string) (left - len)
    end.

Definition is_valid_utf8 (string : string) (string_len : nat) : bool :=
  is_valid_utf8_loop string_len string (Z.of_nat string_len).

(** *** Constructors *)

Definition json_value_init_object (h : heap) : option addr * heap :=
  alloc h (value_object []).

Definition json_value_init_array (h : heap) : option addr * heap :=
  alloc h (value_array []).

Definition json_value_init_string (h : heap) (string : option string)
    : option addr * heap :=
  match string with
  | None => (None, h)
  | Some string =>
      let string_len := strlen string in
      if negb (is_valid_utf8 string string_len) then (None, h)
      else alloc h (value_string (parson_strndup string string_len))
  end.

Definition json_value_init_number (h : heap) (number : double) : option addr * heap :=
  if IS_NUMBER_INVALID number then (None, h) else alloc h (value_number number).

Definition json_value_init_boolean (h : heap) (boolean : Z) : option addr * heap :=
  alloc h (value_boolean (negb (boolean =? 0))).

Definition json_value_init_null (h : heap) : option addr * heap :=
  alloc h value_null.

(** *** [json_value_free]

    The items are freed first, in index order, then the value itself.
    [fuel] bounds the depth of the recursion. *)
Fixpoint json_value_free_r (fuel : nat) (h : heap) (a : addr) : option heap :=
  match fuel with
  | O => None
  | S fuel' =>
      c ← load h a;
      h ← match value c with
          | value_object pairs =>
              foldl (fun acc p => h ← acc; json_value_free_r fuel' h (snd p))
                    (Some h) pairs
          | value_array items =>
              foldl (fun acc x => h ← acc; json_value_free_r fuel' h x)
                    (Some h) items
          | _ => Some h
          end;
      free h a
  end.

Definition json_value_free (h : heap) (value : option addr) : option heap :=
  match value with
  | None => Some h
  | Some a => json_value_free_r (S (size (cells h))) h a
  end.

(** *** Arrays *)

Definition json_array_add (h : heap) (array value : addr)
    : option (JSON_Status * heap) :=
  items ← get_items h array;
  h ← set_parent h value (Some array);
  h ← set_items h array (items ++ [value]);
  Some (JSONSuccess, h).

Definition json_array_append_value (h : heap) (array value : option addr)
    : option (JSON_Status * heap) :=
  match array, value with
  | Some array, Some value =>
      c ← load h value;
      if parent c is Some _ then Some (JSONFailure, h)
      else json_array_add h array value
  | _, _ => Some (JSONFailure, h)
  end.

Definition json_array_replace_value (h : heap) (array : option addr) (ix : nat)
    (value : option addr) : option (JSON_Status * heap) :=
  match array, value with
  | Some array, Some value =>
      c ← load h value;
      if parent c is Some _ then Some (JSONFailure, h)
      else
        items ← get_items h array;
        if (List.length items <=? ix)%nat then Some (JSONFailure, h)
        else
          h ← json_value_free h (items !! ix);
          h ← set_parent h value (Some array);
          items ← get_items h array;
          h ← set_items h array (<[ix := value]> items);
          Some (JSONSuccess, h)
  | _, _ => Some (JSONFailure, h)
  end.

Definition json_array_remove (h : heap) (array : option addr) (ix : nat)
    : option (JSON_Status * heap) :=
  match array with
  | None => Some (JSONFailure, h)
  | Some array =>
      items ← get_items h array;
      if (List.length items <=? ix)%nat then Some (JSONFailure, h)
      else
        h ← json_value_free h (items !! ix);
        items ← get_items h array;
        let count := List.length items in
        h ← set_items h array
              (take (count - 1) (memmove items ix (ix + 1) (count - 1 - ix)));
        Some (JSONSuccess, h)
  end.

(** *** Objects *)

Definition json_object_addn (h : heap) (object : addr) (name : string)
    (name_len : nat) (value : addr) : option (JSON_Status * heap) :=
  pairs ← get_pairs h object;
  if json_object_getn_value pairs name name_len is Some _ then Some (JSONFailure, h)
  else
    h ← set_parent h value (Some object);
    h ← set_pairs h object (pairs ++ [(parson_strndup name name_len, value)]);
    Some (JSONSuccess, h).

Definition json_object_add (h : heap) (object : addr) (name : string) (value : addr)
    : option (JSON_Status * heap) :=
  json_object_addn h object name (strlen name) value.

(** The index of the first name equal to [name]. *)
Definition find_name (pairs : list (string * addr)) (name : string) : option nat :=
  fst <$> list_find (fun p => strcmp_eq (fst p) name = true) pairs.

Definition json_object_set_value (h : heap) (object : option addr)
    (name : option string) (value : option addr) : option (JSON_Status * heap) :=
  match object, name, value with
  | Some object, Some name, Some value =>
      c ← load h value;
      if parent c is Some _ then Some (JSONFailure, h)
      else
        pairs ← get_pairs h object;
        match json_object_get_value pairs name with
        | Some old_value =>
            h ← json_value_free h (Some old_value);
            pairs ← get_pairs h object;
            match find_name pairs name with
            | Some i =>
                h ← set_parent h value (Some object);
                pairs ← get_pairs h object;
                h ← set_pairs h object
                      (alter (fun p => (fst p, value)) i pairs);
                Some (JSONSuccess, h)
            | None => json_object_add h object name value
            end
        | None => json_object_add h object name value
        end
  | _, _, _ => Some (JSONFailure, h)
  end.

Definition json_object_remove (h : heap) (object : option addr) (name : option string)
    : option (JSON_Status * heap) :=
  match object, name with
  | Some object, Some name =>
      pairs ← get_pairs h object;
      if json_object_get_value pairs name is Some _ then
        match list_find (fun p => strcmp_eq (fst p) name = true) pairs with
        | Some (i, (_, old_value)) =>
            h ← json_value_free h (Some old_value);
            pairs ← get_pairs h object;
            let last_item_index := (List.length pairs - 1)%nat in
            let pairs :=
              if negb (i =? last_item_index)%nat then
                match pairs !! last_item_index with
                | Some last => <[i := last]> pairs
                | None => pairs
                end
              else pairs in
            h ← set_pairs h object (take last_item_index pairs);
            Some (JSONSuccess, h)
        | None => Some (JSONFailure, h)
        end
      else Some (JSONFailure, h)
  | _, _ => Some (JSONFailure, h)
  end.

(** *** Typed wrappers *)

(** The array wrappers free the new value when it is not attached. *)
Definition attach_or_free
    (attach : heap -> option addr -> option (JSON_Status * heap))
    (init : option addr * heap) : option (JSON_Status * heap) :=
  let '(value, h) := init in
  match value with
  | None => Some (JSONFailure, h)
  | Some _ =>
      '(status, h) ← attach h value;
      match status with
      | JSONFailure => h ← json_value_free h value; Some (JSONFailure, h)
      | JSONSuccess => Some (JSONSuccess, h)
      end
  end.

Definition json_array_append_string h array (string : option string) :=
  attach_or_free (fun h => json_array_append_value h array)
    (json_value_init_string h string).

Definition json_array_append_number h array (number : double) :=
  attach_or_free (fun h => json_array_append_value h array)
    (json_value_init_number h number).

Definition json_array_append_boolean h array (boolean : Z) :=
  attach_or_free (fun h => json_array_append_value h array)
    (json_value_init_boolean h boolean).

Definition json_array_append_null h array :=
  attach_or_free (fun h => json_array_append_value h array) (json_value_init_null h).

Definition json_array_replace_string h array (i : nat) (string : option string) :=
  attach_or_free (fun h => json_array_replace_value h array i)
    (json_value_init_string h string).

Definition json_array_replace_number h array (i : nat) (number : double) :=
  attach_or_free (fun h => json_array_replace_value h array i)
    (json_value_init_number h number).

Definition json_array_replace_boolean h array (i : nat) (boolean : Z) :=
  attach_or_free (fun h => json_array_replace_value h array i)
    (json_value_init_boolean h boolean).

Definition json_array_replace_null h array (i : nat) :=
  attach_or_free (fun h => json_array_replace_value h array i)
    (json_value_init_null h).

(** The object wrappers pass the new value on, NULL or not. *)
Definition json_object_set_string h object name (string : option string) :=
  let '(value, h) := json_value_init_string h string in
  json_object_set_value h object name value.

Definition json_object_set_number h object name (number : double) :=
  let '(value, h) := json_value_init_number h number in
  json_object_set_value h object name value.

Definition json_object_set_boolean h object name (boolean : Z) :=
  let '(value, h) := json_value_init_boolean h boolean in
  json_object_set_value h object name value.

Definition json_object_set_null h object name :=
  let '(value, h) := json_value_init_null h in
  json_object_set_value h object name value.

(** *** Programs over the interface *)

Inductive call : Type :=
  | init_object
  | init_array
  | init_string (string : option string)
  | init_number (number : double)
  | init_boolean (boolean : Z)
  | init_null
  | value_free (value : option addr)
  | array_append_value (array value : option addr)
  | array_append_string (array : option addr) (string : option string)
  | array_append_number (array : option addr) (number : double)
  | array_append_boolean (array : option addr) (boolean : Z)
  | array_append_null (array : option addr)
  | array_replace_value (array : option addr) (ix : nat) (value : option addr)
  | array_replace_string (array : option addr) (ix : nat) (string : option string)
  | array_replace_number (array : option addr) (ix : nat) (number : double)
  | array_replace_boolean (array : option addr) (ix : nat) (boolean : Z)
  | array_replace_null (array : option addr) (ix : nat)
  | array_remove (array : option addr) (ix : nat)
  | object_set_value (object : option addr) (name : option string)
      (value : option addr)
  | object_set_string (object : option addr) (name string : option string)
  | object_set_number (object : option addr) (name : option string) (number : double)
  | object_set_boolean (object : option addr) (name : option string) (boolean : Z)
  | object_set_null (object : option addr) (name : option string)
  | object_remove (object : option addr) (name : option string).

(** The heap after a call. *)
Definition exec (h : heap) (c : call) : option heap :=
  match c with
  | init_object => Some (snd (json_value_init_object h))
  | init_array => Some (snd (json_value_init_array h))
  | init_string s => Some (snd (json_value_init_string h s))
  | init_number d => Some (snd (json_value_init_number h d))
  | init_boolean b => Some (snd (json_value_init_boolean h b))
  | init_null => Some (snd (json_value_init_null h))
  | value_free v => json_value_free h v
  | array_append_value a v => snd <$> json_array_append_value h a v
  | array_append_string a s => snd <$> json_array_append_string h a s
  | array_append_number a d => snd <$> json_array_append_number h a d
  | array_append_boolean a b => snd <$> json_array_append_boolean h a b
  | array_append_null a => snd <$> json_array_append_null h a
  | array_replace_value a i v => snd <$> json_array_replace_value h a i v
  | array_replace_string a i s => snd <$> json_array_replace_string h a i s
  | array_replace_number a i d => snd <$> json_array_replace_number h a i d
  | array_replace_boolean a i b => snd <$> json_array_replace_boolean h a i b
  | array_replace_null a i => snd <$> json_array_replace_null h a i
  | array_remove a i => snd <$> json_array_remove h a i
  | object_set_value o n v => snd <$> json_object_set_value h o n v
  | object_set_string o n s => snd <$> json_object_set_string h o n s
  | object_set_number o n d => snd <$> json_object_set_number h o n d
  | object_set_boolean o n b => snd <$> json_object_set_boolean h o n b
  | object_set_null o n => snd <$> json_object_set_null h o n
  | object_remove o n => snd <$> json_object_remove h o n
  end.

Definition run (calls : list call) (h : heap) : option heap :=
  foldl (fun acc c => h ← acc; exec h c) (Some h) calls.

(** *** The parent invariant *)

(** The values an array or an object points to. *)
Definition slots (c : json_value_t) : list addr :=
  match value c with
  | value_array items => items
  | value_object pairs => pairs.*2
  | _ => []
  end.



(** [h'] is [h] without some of its values. *)
Definition shrinks (h h' : heap) : Prop :=
  cells h' ⊆ cells h /\ next h' = next h.

(** *** Getters *)

Definition json_value_get_parent (h : heap) (value : option addr)
    : option (option addr) :=
  match value with
  | None => Some None
  | Some value => c ← load h value; Some (parent c)
  end.

Definition json_array_get_count (h : heap) (array : option addr) : option nat :=
  match array with
  | None => Some O
  | Some array => items ← get_items h array; Some (List.length items)
  end.

Definition json_array_get_value (h : heap) (array : option addr) (index : nat)
    : option (option addr) :=
  match array with
  | None => Some None
  | Some array => items ← get_items h array; Some (items !! index)
  end.

Definition json_object_get_count (h : heap) (object : option addr) : option nat :=
  match object with
  | None => Some O
  | Some object => pairs ← get_pairs h object; Some (List.length pairs)
  end.

Definition json_object_get_value (h : heap) (object : option addr)
    (name : option string) : option (option addr) :=
  match object, name with
  | Some object, Some name =>
      pairs ← get_pairs h object;
      Some (json_object_getn_value pairs name (strlen name))
  | _, _ => Some None
  end.

(** The values reached from [a] through items. *)
Inductive reaches (h : heap) (a : addr) : addr -> Prop :=
  | reaches_refl : reaches h a a
  | reaches_item x y c :
      reaches h a x -> load h x = Some c -> y ∈ slots c -> reaches h a y.

(** From [h] to [h'] the items of every value freed are freed too. *)
Definition free_closed (h h' : heap) : Prop :=
  forall y cy, load h y = Some cy -> load h' y = None ->
               forall z, z ∈ slots cy -> load h' z = None.

(** Every value freed from [h] to [h'] is reached from [a]. *)
Definition free_within (h h' : heap) (a : addr) : Prop :=
  forall x c, load h x = Some c -> load h' x = None -> reaches h a x.

End Heap.

(** ** Comments *)

(** [strstr(s, token)]: the offset of the first occurrence of [token]. *)
Fixpoint strstr (s token : string) : option nat :=
  if String.prefix token s then Some O
  else
    match s with
    | EmptyString => None
    | String _ r => S <$> strstr r token
    end.

Definition spaces (n : nat) : string := string_of_list_ascii (replicate n " "%char).

(** The [while] loop of [remove_comments] from the cursor [string] on: the
    text the buffer holds from the cursor on when the function returns.
    [fuel] bounds the number of rounds; the length of the text is enough. *)
Fixpoint remove_comments_loop (fuel : nat) (string start_token end_token : String.string)
    (in_string escaped : bool) : String.string :=
  match fuel with
  | O => string
  | S fuel' =>
      let start_token_len := strlen start_token in
      let end_token_len := strlen end_token in
      let current_char := peek string in
      if Ascii.eqb current_char NUL then string
      else if Ascii.eqb current_char "\" && negb escaped then
        String current_char
          (remove_comments_loop fuel' (SKIP_CHAR string) start_token end_token
             in_string true)
      else if Ascii.eqb current_char DQUOTE && negb escaped then
        String current_char
          (remove_comments_loop fuel' (SKIP_CHAR string) start_token end_token
             (negb in_string) false)
      else if negb in_string && strncmp_eq string start_token start_token_len then
        let string := advance start_token_len string in
        match strstr (c_str string) (c_str end_token) with
        | None => (spaces start_token_len ++ string)%string
        | Some offset =>
            (spaces (start_token_len + (offset + end_token_len))
             ++ remove_comments_loop fuel' (advance (offset + end_token_len) string)
                  start_token end_token in_string false)%string
        end
      else
        String current_char
          (remove_comments_loop fuel' (SKIP_CHAR string) start_token end_token
             in_string false)
  end.

Definition remove_comments (string start_token end_token : String.string)
    : String.string :=
  if (strlen start_token =? 0)%nat || (strlen end_token =? 0)%nat then string
  else remove_comments_loop (String.length string) string start_token end_token
         false false.

(** [json_parse_string_with_comments] of a non-NULL string: the comments of
    a copy are blanked, then the copy is parsed, with no check for a byte
    order mark. *)
Definition json_parse_string_with_comments
    (strtod : String.string -> double * nat * bool) (string : String.string)
    : result JSON_Value :=
  let string_mutable_copy := parson_strndup string (strlen string) in
  let string_mutable_copy := remove_comments string_mutable_copy "/*" "*/" in
  let string_mutable_copy :=
    remove_comments string_mutable_copy "//" (String "010" EmptyString) in
  bind (parse_value strtod (S (String.length string_mutable_copy))
          string_mutable_copy 0)
       (fun '(value, _) => Ok value).

(** ** Copies *)

(** The [for] loop of the array case of [json_value_deep_copy]: [copies]
    holds the recursive calls on the items, in index order. *)
Fixpoint deep_copy_array_loop (n i : nat) (copies : list (option JSON_Value))
    (temp_array_copy : JSON_Array) : option JSON_Array :=
  match n with
  | O => Some temp_array_copy
  | S k =>
      match json_array_get_value copies i with
      | Some (Some temp_value_copy) =>
          deep_copy_array_loop k (S i) copies
            (json_array_add temp_array_copy temp_value_copy)
      | _ => None
      end
  end.

(** The same for the object case: the value copied for a name is the one the
    object gives for the name. *)
Fixpoint deep_copy_object_loop (n i : nat) (temp_object : JSON_Object)
    (copies : list (string * option JSON_Value)) (temp_object_copy : JSON_Object)
    : option JSON_Object :=
  match n with
  | O => Some temp_object_copy
  | S k =>
      match json_object_get_name temp_object i with
      | None => None
      | Some temp_key =>
          match json_object_get_value copies temp_key with
          | Some (Some temp_value_copy) =>
              match json_object_add temp_object_copy temp_key temp_value_copy with
              | (JSONFailure, _) => None
              | (JSONSuccess, temp_object_copy) =>
                  deep_copy_object_loop k (S i) temp_object copies temp_object_copy
              end
          | _ => None
          end
      end
  end.

Fixpoint json_value_deep_copy (value : JSON_Value) : option JSON_Value :=
  match value with
  | json_array temp_array =>
      json_array <$>
        deep_copy_array_loop (json_array_get_count temp_array) 0
          (List.map json_value_deep_copy temp_array) []
  | json_object temp_object =>
      json_object <$>
        deep_copy_object_loop (json_object_get_count temp_object) 0 temp_object
          (List.map (fun p => (fst p, json_value_deep_copy (snd p))) temp_object) []
  | json_boolean _ => json_value_init_boolean (json_value_get_boolean (Some value))
  | json_number _ => json_value_init_number (json_value_get_number (Some value))
  | json_string temp_string =>
      json_value_init_string_no_copy (parson_strndup temp_string (strlen temp_string))
  | json_null => json_value_init_null
  end.

(** ** Validation *)

#[global] Instance JSON_Value_Type_eq_dec : EqDecision JSON_Value_Type.
Proof. solve_decision. Defined.

(** A [for] loop that returns [JSONFailure] at the first index whose check
    fails. *)
Fixpoint validate_loop (n i : nat) (check : nat -> JSON_Status) : JSON_Status :=
  match n with
  | O => JSONSuccess
  | S k =>
      match check i with
      | JSONFailure => JSONFailure
      | JSONSuccess => validate_loop k (S i) check
      end
  end.

(** [json_validate] of a non-NULL schema. *)
Fixpoint json_validate (schema : JSON_Value) (value : option JSON_Value) {struct schema}
    : JSON_Status :=
  match value with
  | None => JSONFailure
  | Some _ =>
      let schema_type := json_value_get_type (Some schema) in
      let value_type := json_value_get_type value in
      if negb (bool_decide (schema_type = value_type))
         && negb (bool_decide (schema_type = JSONNull))
      then JSONFailure
      else
        match schema with
        | json_array schema_array =>
            let value_array := default [] (json_value_get_array value) in
            match schema_array with
            | [] => JSONSuccess
            | temp_schema_value :: _ =>
                validate_loop (json_array_get_count value_array) 0
                  (fun i => json_validate temp_schema_value
                              (json_array_get_value value_array i))
            end
        | json_object schema_object =>
            let value_object := default [] (json_value_get_object value) in
            let count := json_object_get_count schema_object in
            let checks :=
              List.map (fun p => (fst p, json_validate (snd p))) schema_object in
            if (count =? 0)%nat then JSONSuccess
            else if (json_object_get_count value_object <? count)%nat then JSONFailure
            else
              validate_loop count 0 (fun i =>
                match json_object_get_name schema_object i with
                | None => JSONFailure
                | Some key =>
                    match json_object_get_value value_object key with
                    | None => JSONFailure
                    | Some temp_value =>
                        match json_object_get_value checks key with
                        | Some check => check (Some temp_value)
                        | None => JSONFailure
                        end
                    end
                end)
        | _ => JSONSuccess
        end
  end.

(** ** Definitions used to state the properties *)

(** Examples write JSON text with apostrophes in place of double quotes. *)
Fixpoint dq (s : string) : string :=
  match s with
  | EmptyString => EmptyString
  | String c r => String (if Ascii.eqb c "'" then DQUOTE else c) (dq r)
  end.

(** [n] arrays around [inner], as text and as a value. *)
Definition nested_arrays (n : nat) (inner : string) : string :=
  Nat.iter n (fun s => "[" ++ s ++ "]")%string inner.

Definition nested_value (n : nat) (inner : JSON_Value) : JSON_Value :=
  Nat.iter n (fun v => json_array [v]) inner.

(** [n] objects around [inner], each with the one key [k]. *)
Definition nested_objects (n : nat) (inner : string) : string :=
  Nat.iter n (fun s => dq "{'k':" ++ s ++ "}")%string inner.

Definition nested_object_value (n : nat) (inner : JSON_Value) : JSON_Value :=
  Nat.iter n (fun v => json_object [("k"%string, v)]) inner.

(** The UTF-8 encoding of a code point of a supplementary plane. *)
Definition utf8_4 (cp : Z) : list ascii :=
  [char_of (0xF0 + cp / 0x40000);
   char_of (0x80 + (cp / 0x1000) mod 0x40);
   char_of (0x80 + (cp / 0x40) mod 0x40);
   char_of (0x80 + cp mod 0x40)].

(** The code point a surrogate pair stands for. *)
Definition surrogate_pair (lead trail : Z) : Z :=
  0x10000 + (lead - 0xD800) * 0x400 + (trail - 0xDC00).

(** The trail surrogate escape right after the four digits of a lead
    surrogate escape, if there is one; [p] is the cursor on the [u] of the
    lead escape. *)
Definition trail_escape (p : string) : option Z :=
  let q := advance 5 p in
  if Ascii.eqb (peek q) "\" && Ascii.eqb (peek (SKIP_CHAR q)) "u" then
    match parse_utf16_hex (advance 2 q) with
    | Some trail => if (0xDC00 <=? trail) && (trail <=? 0xDFFF) then Some trail else None
    | None => None
    end
  else None.

(** The value trees the library builds: strings and names are [char *]
    texts, the names of an object are distinct ([json_object_addn] refuses
    a name that is present) and numbers are neither NaN nor infinite
    ([json_value_init_number] refuses those). *)
#[warnings="-register-all"]
Inductive well_formed : JSON_Value -> Prop :=
  | wf_null : well_formed json_null
  | wf_string s : c_str s = s -> well_formed (json_string s)
  | wf_number d : IS_NUMBER_INVALID d = false -> well_formed (json_number d)
  | wf_boolean b : well_formed (json_boolean b)
  | wf_array a : Forall well_formed a -> well_formed (json_array a)
  | wf_object o :
      Forall (fun p => c_str (fst p) = fst p) o ->
      NoDup o.*1 ->
      Forall (fun p => well_formed (snd p)) o ->
      well_formed (json_object o).

(** The number of containers around the most deeply nested value of a
    tree: the largest [nesting] a call of [parse_value] has when the text of
    the tree is parsed from nesting 0. *)
Fixpoint json_depth (v : JSON_Value) : Z :=
  match v with
  | json_array a => if a is [] then 0 else 1 + foldr (fun x d => Z.max (json_depth x) d) 0 a
  | json_object o =>
      if o is [] then 0 else 1 + foldr (fun p d => Z.max (json_depth (snd p)) d) 0 o
  | _ => 0
  end.

(** *** The text of a value *)

Definition nl : string := String "010" EmptyString.

Definition flatten (l : list string) : string := foldr String.append EmptyString l.

(** [level] times four spaces. *)
Definition indent_text (level : Z) : string :=
  flatten (replicate (Z.to_nat level) "    "%string).

(** The escape of one byte of a string. *)
Definition escape_char (escape_slashes : bool) (c : ascii) : string :=
  if Ascii.eqb c DQUOTE then String "\" (String DQUOTE EmptyString)
  else if Ascii.eqb c "\" then "\\"
  else if Ascii.eqb c "008" then "\b"
  else if Ascii.eqb c "012" then "\f"
  else if Ascii.eqb c "010" then "\n"
  else if Ascii.eqb c "013" then "\r"
  else if Ascii.eqb c "009" then "\t"
  else if uchar c <? 0x20 then
    String "\" (String "u" (String "0" (String "0"
      (String (hex_digit (uchar c / 16)) (String (hex_digit (uchar c mod 16))
        EmptyString)))))
  else if Ascii.eqb c "/" then (if escape_slashes then "\/" else "/")
  else String c EmptyString.

Fixpoint escape_string (escape_slashes : bool) (s : string) : string :=
  match s with
  | EmptyString => EmptyString
  | String c r => (escape_char escape_slashes c ++ escape_string escape_slashes r)%string
  end.

Definition quoted_text (escape_slashes : bool) (s : string) : string :=
  String DQUOTE (escape_string escape_slashes (c_str s) ++ String DQUOTE EmptyString).

(** The text of the child at index [i] of a container of [count] children:
    indentation, the child, a comma unless it is the last, a line end. *)
Definition element_text (count : nat) (is_pretty : bool) (level : Z) (i : nat)
    (body : string) : string :=
  ((if is_pretty then indent_text (level + 1) else "")
   ++ body
   ++ (if (i <? count - 1)%nat then "," else "")
   ++ (if is_pretty then nl else ""))%string.

Definition container_text (opening closing : string) (is_pretty : bool) (level : Z)
    (bodies : list string) : string :=
  let count := List.length bodies in
  (opening
   ++ (if (0 <? count)%nat && is_pretty then nl else "")
   ++ flatten (imap (element_text count is_pretty level) bodies)
   ++ (if (0 <? count)%nat && is_pretty then indent_text level else "")
   ++ closing)%string.

Definition member_text (escape_slashes is_pretty : bool) (key : string)
    (value_text : option string) : string :=
  (quoted_text escape_slashes key ++ ":" ++ (if is_pretty then " " else "")
   ++ default EmptyString value_text)%string.

(** The text [json_serialize_to_buffer_r] produces for a value at a level:
    compact or indented.  As in the code, the value written for a name is
    the one the object gives for that name. *)
Fixpoint render (sprintf_g17 : double -> string) (escape_slashes : bool)
    (v : JSON_Value) (level : Z) (is_pretty : bool) {struct v} : string :=
  match v with
  | json_array a =>
      container_text "[" "]" is_pretty level
        (List.map (fun x => render sprintf_g17 escape_slashes x (level + 1) is_pretty) a)
  | json_object o =>
      let members :=
        List.map (fun p => (fst p, render sprintf_g17 escape_slashes (snd p) (level + 1)
                                     is_pretty)) o in
      container_text "{" "}" is_pretty level
        (List.map (fun key => member_text escape_slashes is_pretty key
                                (json_object_get_value members key)) o.*1)
  | json_string s => quoted_text escape_slashes s
  | json_boolean b => if b then "true" else "false"
  | json_number d => sprintf_g17 d
  | json_null => "null"
  end.

(** *** What a serialization step does in the two passes *)

(** [m'] holds [out] from offset [p] on in place of what [m] held there:
    a string stored after it gives what storing after [out] in [m] gives. *)
Definition extends_with (m : list ascii) (p : nat) (out : string) (m' : list ascii) : Prop :=
  (p + String.length out <= List.length m')%nat
  /\ forall text, store m' (p + String.length out) text = store m p (out ++ text).

(** A statement that adds [out]: in the counting pass it adds the length of
    [out] to [written_total] and leaves the buffer alone; in the writing pass
    it also puts [out] at the cursor and moves the cursor to its end. *)
Definition emits (a : stmt) (out : string) : Prop :=
  forall m wt,
    a (Frame m None wt) = Continue (Frame m None (wt + Z.of_nat (String.length out)))
    /\ forall p, (p <= List.length m)%nat ->
         exists m',
           a (Frame m (Some p) wt)
           = Continue (Frame m' (Some (p + String.length out)%nat)
                             (wt + Z.of_nat (String.length out)))
           /\ extends_with m p out m'.

(** The same for a function called with the buffer and the cursor. *)
Definition writes_open (f : list ascii -> option nat -> Z * list ascii) (out : string)
    : Prop :=
  forall m,
    f m None = (Z.of_nat (String.length out), m)
    /\ forall p, (p <= List.length m)%nat ->
         exists m', f m (Some p) = (Z.of_nat (String.length out), m')
                    /\ extends_with m p out m'.

(** A function that ends with a terminated store: the buffer is then
    exactly the old one with [out] and its terminator stored at the
    cursor. *)
Definition writes (f : list ascii -> option nat -> Z * list ascii) (out : string) : Prop :=
  forall m,
    f m None = (Z.of_nat (String.length out), m)
    /\ forall p, (p <= List.length m)%nat ->
         f m (Some p) = (Z.of_nat (String.length out), store m p out).

(** The rest of a function body down to its [return]: it adds [out] and
    returns the total. *)
Definition finishes (body : stmt) (out : string) : Prop :=
  forall m wt,
    body (Frame m None wt) = Return (wt + Z.of_nat (String.length out)) m
    /\ forall p, (p <= List.length m)%nat ->
         exists m',
           body (Frame m (Some p) wt) = Return (wt + Z.of_nat (String.length out)) m'
           /\ extends_with m p out m'.

Definition finishes_exactly (body : stmt) (out : string) : Prop :=
  forall m wt,
    body (Frame m None wt) = Return (wt + Z.of_nat (String.length out)) m
    /\ forall p, (p <= List.length m)%nat ->
         body (Frame m (Some p) wt)
         = Return (wt + Z.of_nat (String.length out)) (store m p out).

(** *** Round trip *)

(** The texts of the children of a container in compact mode. *)
Fixpoint join_commas (bodies : list string) : string :=
  match bodies with
  | [] => EmptyString
  | [b] => b
  | b :: rest => (b ++ "," ++ join_commas rest)%string
  end.

(** What follows a value in a compact text: the end, a comma or a closing
    bracket. *)
Definition stops (rest : string) : Prop :=
  rest = EmptyString \/ peek rest = ","%char \/ peek rest = "]"%char \/ peek rest = "}"%char.

(** The numbers of a tree. *)
Fixpoint numbers (v : JSON_Value) : list double :=
  match v with
  | json_number d => [d]
  | json_array a => List.concat (List.map numbers a)
  | json_object o => List.concat (List.map (fun p => numbers (snd p)) o)
  | _ => []
  end.

(** What the round trip asks of the C library for one number [d]: the text
    ["%1.17g"] gives is a NUL-free text that starts with a digit or a minus
    sign and passes [is_decimal]; before any continuation of the JSON text,
    [strtod] reads exactly that text, without error, as a finite number
    within the epsilon of [d]. *)
Definition number_roundtrips (strtod : string -> double * nat * bool)
    (sprintf_g17 : double -> string) (d : double) : Prop :=
  let text := sprintf_g17 d in
  c_str text = text
  /\ is_number_start (peek text) = true
  /\ forall rest, stops rest ->
       exists d',
         strtod (text ++ rest)%string = (d', String.length text, false)
         /\ is_decimal (text ++ rest)%string (String.length text) = true
         /\ IS_NUMBER_INVALID d' = false
         /\ double_lt (fabs (double_sub d d')) EPSILON = true.

(** Trees of the same shape with the same strings, names and booleans, and
    numbers within the epsilon. *)
#[warnings="-register-all"]
Inductive similar : JSON_Value -> JSON_Value -> Prop :=
  | similar_null : similar json_null json_null
  | similar_string s : similar (json_string s) (json_string s)
  | similar_number d d' :
      IS_NUMBER_INVALID d' = false ->
      double_lt (fabs (double_sub d d')) EPSILON = true ->
      similar (json_number d) (json_number d')
  | similar_boolean b : similar (json_boolean b) (json_boolean b)
  | similar_array a a' : Forall2 similar a a' -> similar (json_array a) (json_array a')
  | similar_object o o' :
      Forall2 (fun p p' => fst p = fst p' /\ similar (snd p) (snd p')) o o' ->
      similar (json_object o) (json_object o').

(** The first byte of the text of a value. *)
Definition is_value_start (c : ascii) : bool :=
  Ascii.eqb c "{" || Ascii.eqb c "[" || Ascii.eqb c DQUOTE || Ascii.eqb c "t"
  || Ascii.eqb c "f" || Ascii.eqb c "n" || is_number_start c.

(** A bound on the fuel [parse_value] needs for the compact text of a
    tree. *)
Fixpoint value_size (v : JSON_Value) : nat :=
  match v with
  | json_array a => S (foldr (fun x n => value_size x + n)%nat 0%nat a)
  | json_object o => S (foldr (fun p n => value_size (snd p) + n)%nat 0%nat o)
  | _ => 1%nat
  end.

(** The value fits the nesting limit when it is parsed inside [nesting]
    containers. *)
Definition fits (nesting : Z) (v : JSON_Value) : bool :=
  nesting + json_depth v <=? MAX_NESTING.

(** The compact text of a value. *)
Definition compact (sprintf_g17 : double -> string) (escape_slashes : bool)
    (v : JSON_Value) (level : Z) : string :=
  render sprintf_g17 escape_slashes v level false.

(** What a parser [pv] does with a [text] of the value [x] followed by the
    rest of a compact text: when [ok], it reads a similar value and stops at
    the rest; when not, it fails. *)
Definition reads (pv : string -> result (JSON_Value * string)) (text : string)
    (ok : bool) (x : JSON_Value) : Prop :=
  forall rest, stops rest ->
    if ok then exists v', pv (text ++ rest)%string = Ok (v', rest) /\ similar x v'
    else pv (text ++ rest)%string = Fail.

(** *** Comments *)

(** [b] is [a] with some bytes overwritten by spaces. *)
Definition blanked (a b : string) : Prop :=
  Forall2 (fun x y => y = x \/ y = " "%char) (list_ascii_of_string a) (list_ascii_of_string b).

(** * Properties *)

(** ** Strings *)

#[local] Arguments String.append !s1 s2 : simpl nomatch.

Lemma append_assoc (a b c : string) : ((a ++ b) ++ c = a ++ (b ++ c))%string.
Proof. induction a as [|x a IH]; cbn; [reflexivity | now rewrite IH]. Qed.

Lemma append_nil_r (a : string) : (a ++ "")%string = a.
Proof. induction a as [|x a IH]; cbn; [reflexivity | now rewrite IH]. Qed.

Lemma length_append (a b : string) :
  String.length (a ++ b) = (String.length a + String.length b)%nat.
Proof. induction a as [|x a IH]; cbn; [reflexivity | now rewrite IH]. Qed.

Lemma advance_append (a b : string) : advance (String.length a) (a ++ b) = b.
Proof. induction a as [|x a IH]; cbn; [reflexivity | exact IH]. Qed.

Lemma peek_char_at (s : string) : peek s = char_at 0 s.
Proof. destruct s; reflexivity. Qed.

Lemma ascii_eqb_true (a b : ascii) : Ascii.eqb a b = true <-> a = b.
Proof. apply Ascii.eqb_eq. Qed.

Lemma ascii_eqb_false (a b : ascii) : Ascii.eqb a b = false <-> a <> b.
Proof. apply Ascii.eqb_neq. Qed.






(** ** The fuel of the parser

    A fuelled function may be given more fuel without changing a result it
    has produced, and the fuel [json_parse_string] gives is enough: the
    parser never moves its cursor backwards, and every turn of a container
    loop reads at least the separating comma. *)

Lemma SKIP_CHAR_length (s : string) : (String.length (SKIP_CHAR s) <= String.length s)%nat.
Proof. destruct s; simpl; lia. Qed.

Lemma SKIP_CHAR_length_lt (s : string) :
  peek s <> NUL -> (String.length (SKIP_CHAR s) < String.length s)%nat.
Proof. destruct s; simpl; [congruence | lia]. Qed.

Lemma SKIP_WHITESPACES_length (s : string) :
  (String.length (SKIP_WHITESPACES s) <= String.length s)%nat.
Proof.
  induction s as [|c r IH]; simpl; [lia|].
  destruct (isspace c); simpl; lia.
Qed.

Lemma advance_length (n : nat) (s : string) :
  (String.length (advance n s) <= String.length s)%nat.
Proof.
  revert s; induction n as [|n IH]; intros s; simpl; [lia|].
  specialize (IH (SKIP_CHAR s)). pose proof (SKIP_CHAR_length s). lia.
Qed.

#[local] Arguments advance : simpl never.

(** [r'] is [r], or [r] ran out of fuel. *)
Definition refines {A} (r r' : result A) : Prop := r = OutOfFuel \/ r = r'.

Lemma refines_refl {A} (r : result A) : refines r r.
Proof. now right. Qed.

Lemma refines_bind {A B} (r r' : result A) (k k' : A -> result B) :
  refines r r' -> (forall a, refines (k a) (k' a)) -> refines (bind r k) (bind r' k').
Proof.
  intros [-> | ->] Hk; [now left|].
  destruct r' as [a| |]; simpl; [apply Hk | now right | now right].
Qed.

Lemma refines_ok {A} (r r' : result A) (a : A) : refines r r' -> r = Ok a -> r' = Ok a.
Proof. intros [-> | ->]; [discriminate | trivial]. Qed.

Lemma refines_fail {A} (r r' : result A) : refines r r' -> r = Fail -> r' = Fail.
Proof. intros [-> | ->]; [discriminate | trivial]. Qed.




Lemma skip_quotes_loop_length (s r : string) :
  skip_quotes_loop s = Some r -> (String.length r < String.length s)%nat.
Proof.
  assert (Hle : (String.length s <= String.length s)%nat) by lia.
  revert Hle. generalize (String.length s) at 2 as n.
  intros n. revert s r. induction n as [|n IH]; intros s r Hle.
  - destruct s; simpl in *; [discriminate | lia].
  - destruct s as [|c s1]; simpl; [discriminate|]. simpl in Hle.
    destruct (Ascii.eqb c DQUOTE); [intros [= ->]; lia|].
    destruct (Ascii.eqb c NUL); [discriminate|].
    destruct (Ascii.eqb c "\").
    + destruct s1 as [|c' s2]; [discriminate|]. simpl in Hle.
      destruct (Ascii.eqb c' NUL); [discriminate|].
      intros H. apply IH in H; simpl in *; lia.
    + intros H. apply IH in H; simpl in *; lia.
Qed.

Lemma skip_quotes_length (s r : string) :
  skip_quotes s = Some r -> (String.length r + 2 <= String.length s)%nat.
Proof.
  unfold skip_quotes. destruct s as [|c s1]; simpl; [discriminate|].
  destruct (negb (Ascii.eqb c DQUOTE)); [discriminate|].
  intros H. apply skip_quotes_loop_length in H. lia.
Qed.

Lemma parse_utf16_length (p q : string) (bytes : list ascii) :
  parse_utf16 p = Some (bytes, q) -> (String.length q <= String.length p)%nat.
Proof.
  unfold parse_utf16; cbv zeta.
  pose proof (SKIP_CHAR_length p) as H1.
  pose proof (advance_length 3 (SKIP_CHAR p)) as H2.
  pose proof (advance_length 4 (SKIP_CHAR p)) as H3.
  pose proof (SKIP_CHAR_length (advance 4 (SKIP_CHAR p))) as H4.
  pose proof (SKIP_CHAR_length (SKIP_CHAR (advance 4 (SKIP_CHAR p)))) as H5.
  pose proof (advance_length 3 (SKIP_CHAR (SKIP_CHAR (advance 4 (SKIP_CHAR p))))) as H6.
  repeat match goal with
         | |- context [match ?x with _ => _ end] => destruct x; try discriminate
         end; intros H;
    apply (f_equal (fun o => match o with Some (_, x) => x | None => q end)) in H;
    subst q; lia.
Qed.

Lemma emit_not_out_of_fuel (bytes : list ascii) (r : result string) :
  r <> OutOfFuel -> emit bytes r <> OutOfFuel.
Proof. destruct r; simpl; congruence. Qed.

Lemma process_string_loop_total (fuel input_len len : nat) (p : string) :
  (String.length p <= input_len)%nat ->
  (len <= fuel + (input_len - String.length p))%nat ->
  process_string_loop fuel input_len p len <> OutOfFuel.
Proof.
  revert p. induction fuel as [|fuel IH]; intros p Hp Hf; simpl.
  - destruct (Ascii.eqb (peek p) NUL); simpl; [discriminate|].
    destruct (input_len - String.length p <? len)%nat eqn:E; simpl; [|discriminate].
    apply Nat.ltb_lt in E. lia.
  - destruct (Ascii.eqb (peek p) NUL) eqn:En; simpl; [discriminate|].
    destruct (input_len - String.length p <? len)%nat eqn:E; simpl; [|discriminate].
    apply ascii_eqb_false in En.
    pose proof (SKIP_CHAR_length_lt p En) as H1.
    pose proof (SKIP_CHAR_length (SKIP_CHAR p)) as H2.
    assert (Hgo : forall q, (String.length q <= String.length (SKIP_CHAR p))%nat ->
              process_string_loop fuel input_len (SKIP_CHAR q) len <> OutOfFuel).
    { intros q Hq. pose proof (SKIP_CHAR_length q). apply IH; lia. }
    destruct (Ascii.eqb (peek p) "\").
    + repeat match goal with
             | |- context [if ?x then _ else _] => destruct x
             end; try discriminate; try (apply emit_not_out_of_fuel, Hgo; lia).
      destruct (parse_utf16 (SKIP_CHAR p)) as [[bytes q]|] eqn:Eu; [|discriminate].
      apply parse_utf16_length in Eu. apply emit_not_out_of_fuel, Hgo; lia.
    + destruct (uchar (peek p) <? 32); [discriminate|].
      apply emit_not_out_of_fuel. apply IH; lia.
Qed.

Lemma process_string_total (input : string) (len : nat) :
  process_string input len <> OutOfFuel.
Proof. unfold process_string. apply process_string_loop_total; lia. Qed.

(** What a parsing function may return on an input: a cursor that has not
    moved backwards, or a failure, but not [OutOfFuel]. *)
Definition advances {A} (s : string) (r : result (A * string)) : Prop :=
  match r with
  | Ok (_, rest) => (String.length rest <= String.length s)%nat
  | Fail => True
  | OutOfFuel => False
  end.

Lemma get_quoted_string_advances (s : string) :
  match get_quoted_string s with
  | Ok (_, rest) => (String.length rest < String.length s)%nat
  | Fail => True
  | OutOfFuel => False
  end.
Proof.
  unfold get_quoted_string.
  destruct (skip_quotes s) as [rest|] eqn:E; [|exact I].
  apply skip_quotes_length in E.
  pose proof (process_string_total (SKIP_CHAR s)
                (String.length s - String.length rest - 2)) as Ht.
  destruct (process_string _ _); simpl; [lia | exact I | congruence].
Qed.

Section ParserFuel.
Variable strtod : string -> double * nat * bool.

Lemma parse_string_value_advances (s : string) : advances s (parse_string_value s).
Proof.
  unfold parse_string_value. pose proof (get_quoted_string_advances s) as H.
  destruct (get_quoted_string s) as [[out rest]| |]; simpl in *; [lia | exact I | exact H].
Qed.

Lemma parse_boolean_value_advances (s : string) : advances s (parse_boolean_value s).
Proof.
  unfold parse_boolean_value.
  repeat match goal with
         | |- context [if ?x then _ else _] => destruct x
         end; simpl; try exact I; apply advance_length.
Qed.

Lemma parse_null_value_advances (s : string) : advances s (parse_null_value s).
Proof.
  unfold parse_null_value.
  destruct (strncmp_eq _ _ _); simpl; [apply advance_length | exact I].
Qed.

Lemma parse_number_value_advances (s : string) :
  advances s (parse_number_value strtod s).
Proof.
  unfold parse_number_value. destruct (strtod s) as [[number consumed] errno].
  destruct (errno || negb (is_decimal s consumed)); simpl; [exact I|].
  destruct (json_value_init_number number); simpl; [apply advance_length | exact I].
Qed.

(** A recursive call that is good for every input shorter than [bound]. *)
Definition good_below (bound : nat) (pv : string -> result (JSON_Value * string)) : Prop :=
  forall s, (String.length s < bound)%nat -> advances s (pv s).

Lemma parse_array_loop_advances (pv : string -> result (JSON_Value * string))
    (bound fuel : nat) (s : string) (acc : JSON_Array) :
  good_below bound pv -> (String.length s < bound)%nat -> (String.length s <= fuel)%nat ->
  advances s (parse_array_loop pv fuel s acc).
Proof.
  intros Hpv. revert s acc. induction fuel as [|fuel IH]; intros s acc Hb Hf.
  - destruct s; simpl in *; [lia | lia].
  - simpl. destruct (Ascii.eqb (peek s) NUL); [simpl; lia|].
    pose proof (Hpv s Hb) as Hs.
    destruct (pv s) as [[v s1]| |]; simpl in *; [|exact I|exact Hs].
    pose proof (SKIP_WHITESPACES_length s1) as H1.
    destruct (Ascii.eqb (peek (SKIP_WHITESPACES s1)) ",") eqn:Ec; simpl; [|lia].
    assert (Hne : peek (SKIP_WHITESPACES s1) <> NUL).
    { apply ascii_eqb_true in Ec. rewrite Ec. discriminate. }
    pose proof (SKIP_CHAR_length_lt _ Hne) as H2.
    pose proof (SKIP_WHITESPACES_length (SKIP_CHAR (SKIP_WHITESPACES s1))) as H3.
    specialize (IH (SKIP_WHITESPACES (SKIP_CHAR (SKIP_WHITESPACES s1)))
                   (json_array_add acc v)).
    destruct (parse_array_loop pv fuel _ _) as [[a r]| |]; simpl in *.
    + assert (String.length r <=
              String.length (SKIP_WHITESPACES (SKIP_CHAR (SKIP_WHITESPACES s1))))%nat
        by (apply IH; lia). lia.
    + exact I.
    + apply IH; lia.
Qed.

Lemma parse_object_loop_advances (pv : string -> result (JSON_Value * string))
    (bound fuel : nat) (s : string) (acc : JSON_Object) :
  good_below bound pv -> (String.length s < bound)%nat -> (String.length s <= fuel)%nat ->
  advances s (parse_object_loop pv fuel s acc).
Proof.
  intros Hpv. revert s acc. induction fuel as [|fuel IH]; intros s acc Hb Hf.
  - destruct s; simpl in *; [lia | lia].
  - simpl. destruct (Ascii.eqb (peek s) NUL); [simpl; lia|].
    pose proof (get_quoted_string_advances s) as Hq.
    destruct (get_quoted_string s) as [[key s0]| |]; simpl in *; [|exact I|exact Hq].
    pose proof (SKIP_WHITESPACES_length s0) as H0.
    destruct (negb (Ascii.eqb (peek (SKIP_WHITESPACES s0)) ":")); [exact I|].
    pose proof (SKIP_CHAR_length (SKIP_WHITESPACES s0)) as H0'.
    assert (Hb0 : (String.length (SKIP_CHAR (SKIP_WHITESPACES s0)) < bound)%nat) by lia.
    pose proof (Hpv _ Hb0) as Hs.
    destruct (pv (SKIP_CHAR (SKIP_WHITESPACES s0))) as [[v s1]| |];
      simpl in *; [|exact I|exact Hs].
    destruct (json_object_add acc key v) as [[|] acc']; [|exact I].
    pose proof (SKIP_WHITESPACES_length s1) as H1.
    destruct (Ascii.eqb (peek (SKIP_WHITESPACES s1)) ",") eqn:Ec; simpl; [|lia].
    assert (Hne : peek (SKIP_WHITESPACES s1) <> NUL).
    { apply ascii_eqb_true in Ec. rewrite Ec. discriminate. }
    pose proof (SKIP_CHAR_length_lt _ Hne) as H2.
    pose proof (SKIP_WHITESPACES_length (SKIP_CHAR (SKIP_WHITESPACES s1))) as H3.
    specialize (IH (SKIP_WHITESPACES (SKIP_CHAR (SKIP_WHITESPACES s1))) acc').
    destruct (parse_object_loop pv fuel _ _) as [[a r]| |]; simpl in *.
    + assert (String.length r <=
              String.length (SKIP_WHITESPACES (SKIP_CHAR (SKIP_WHITESPACES s1))))%nat
        by (apply IH; lia). lia.
    + exact I.
    + apply IH; lia.
Qed.

Lemma parse_array_value_advances (pv : string -> result (JSON_Value * string))
    (fuel : nat) (s : string) :
  good_below fuel pv -> (String.length s <= fuel)%nat ->
  advances s (parse_array_value pv fuel s).
Proof.
  intros Hpv Hf. unfold parse_array_value. simpl.
  destruct (Ascii.eqb (peek s) "[") eqn:Eb; simpl; [|exact I].
  assert (Hne : peek s <> NUL).
  { apply ascii_eqb_true in Eb. rewrite Eb. discriminate. }
  pose proof (SKIP_CHAR_length_lt _ Hne) as H1.
  pose proof (SKIP_WHITESPACES_length (SKIP_CHAR s)) as H2.
  destruct (Ascii.eqb (peek (SKIP_WHITESPACES (SKIP_CHAR s))) "]").
  { simpl. pose proof (SKIP_CHAR_length (SKIP_WHITESPACES (SKIP_CHAR s))). lia. }
  pose proof (parse_array_loop_advances pv fuel fuel
                (SKIP_WHITESPACES (SKIP_CHAR s)) [] Hpv) as Hl.
  destruct (parse_array_loop pv fuel _ _) as [[a r]| |]; simpl in *;
    [|exact I|apply Hl; lia].
  destruct (negb (Ascii.eqb (peek (SKIP_WHITESPACES r)) "]")); [exact I|].
  destruct (json_array_resize a (json_array_get_count a)); simpl; [|exact I].
  pose proof (SKIP_WHITESPACES_length r). pose proof (SKIP_CHAR_length (SKIP_WHITESPACES r)).
  assert (String.length r <= String.length (SKIP_WHITESPACES (SKIP_CHAR s)))%nat
    by (apply Hl; lia). lia.
Qed.

Lemma parse_object_value_advances (pv : string -> result (JSON_Value * string))
    (fuel : nat) (s : string) :
  good_below fuel pv -> (String.length s <= fuel)%nat ->
  advances s (parse_object_value pv fuel s).
Proof.
  intros Hpv Hf. unfold parse_object_value. simpl.
  destruct (Ascii.eqb (peek s) "{") eqn:Eb; simpl; [|exact I].
  assert (Hne : peek s <> NUL).
  { apply ascii_eqb_true in Eb. rewrite Eb. discriminate. }
  pose proof (SKIP_CHAR_length_lt _ Hne) as H1.
  pose proof (SKIP_WHITESPACES_length (SKIP_CHAR s)) as H2.
  destruct (Ascii.eqb (peek (SKIP_WHITESPACES (SKIP_CHAR s))) "}").
  { simpl. pose proof (SKIP_CHAR_length (SKIP_WHITESPACES (SKIP_CHAR s))). lia. }
  pose proof (parse_object_loop_advances pv fuel fuel
                (SKIP_WHITESPACES (SKIP_CHAR s)) [] Hpv) as Hl.
  destruct (parse_object_loop pv fuel _ _) as [[a r]| |]; simpl in *;
    [|exact I|apply Hl; lia].
  destruct (negb (Ascii.eqb (peek (SKIP_WHITESPACES r)) "}")); [exact I|].
  destruct (json_object_resize a (json_object_get_count a)); simpl; [|exact I].
  pose proof (SKIP_WHITESPACES_length r). pose proof (SKIP_CHAR_length (SKIP_WHITESPACES r)).
  assert (String.length r <= String.length (SKIP_WHITESPACES (SKIP_CHAR s)))%nat
    by (apply Hl; lia). lia.
Qed.

Lemma advances_skip (s s' : string) (r : result (JSON_Value * string)) :
  (String.length s' <= String.length s)%nat -> advances s' r -> advances s r.
Proof. destruct r as [[v x]| |]; simpl; [lia | trivial | trivial]. Qed.

(** The parser gives a result, and a cursor not before the one it was
    given, whenever its fuel exceeds the length of the input. *)
Lemma parse_value_advances (fuel : nat) (s : string) (nesting : Z) :
  (String.length s < fuel)%nat -> advances s (parse_value strtod fuel s nesting).
Proof.
  revert s nesting. induction fuel as [|fuel IH]; intros s nesting Hf; [lia|].
  simpl. destruct (MAX_NESTING <? nesting); [exact I|].
  pose proof (SKIP_WHITESPACES_length s) as Hw.
  apply (advances_skip s (SKIP_WHITESPACES s)); [exact Hw|].
  set (s' := SKIP_WHITESPACES s) in *.
  repeat match goal with
         | |- context [if ?x then _ else _] => destruct x
         end.
  - apply parse_object_value_advances; [|lia]. intros x Hx. now apply IH.
  - apply parse_array_value_advances; [|lia]. intros x Hx. now apply IH.
  - apply parse_string_value_advances.
  - apply parse_boolean_value_advances.
  - apply parse_number_value_advances.
  - apply parse_null_value_advances.
  - exact I.
Qed.

(** [json_parse_string] always returns: a value or NULL. *)
Lemma json_parse_string_total (s : string) : json_parse_string strtod s <> OutOfFuel.
Proof.
  unfold json_parse_string.
  pose proof (parse_value_advances (S (String.length (skip_bom s))) (skip_bom s) 0) as H.
  destruct (parse_value _ _ _ _) as [[v r]| |]; simpl in *;
    [discriminate | discriminate | exfalso; apply H; lia].
Qed.

(** More fuel does not change a result. *)
Lemma parse_array_loop_refines (pv pv' : string -> result (JSON_Value * string))
    (fuel fuel' : nat) (s : string) (acc : JSON_Array) :
  (forall x, refines (pv x) (pv' x)) -> (fuel <= fuel')%nat ->
  refines (parse_array_loop pv fuel s acc) (parse_array_loop pv' fuel' s acc).
Proof.
  intros Hpv. revert fuel' s acc. induction fuel as [|fuel IH]; intros fuel' s acc Hf.
  - simpl. destruct fuel'; simpl; destruct (Ascii.eqb (peek s) NUL);
      try apply refines_refl; now left.
  - destruct fuel' as [|fuel']; [lia|]. simpl.
    destruct (Ascii.eqb (peek s) NUL); [apply refines_refl|].
    apply refines_bind; [apply Hpv|]. intros [v s1].
    destruct (negb _); [apply refines_refl|]. apply IH. lia.
Qed.

Lemma parse_object_loop_refines (pv pv' : string -> result (JSON_Value * string))
    (fuel fuel' : nat) (s : string) (acc : JSON_Object) :
  (forall x, refines (pv x) (pv' x)) -> (fuel <= fuel')%nat ->
  refines (parse_object_loop pv fuel s acc) (parse_object_loop pv' fuel' s acc).
Proof.
  intros Hpv. revert fuel' s acc. induction fuel as [|fuel IH]; intros fuel' s acc Hf.
  - simpl. destruct fuel'; simpl; destruct (Ascii.eqb (peek s) NUL);
      try apply refines_refl; now left.
  - destruct fuel' as [|fuel']; [lia|]. simpl.
    destruct (Ascii.eqb (peek s) NUL); [apply refines_refl|].
    apply refines_bind; [apply refines_refl|]. intros [key s0].
    destruct (negb _); [apply refines_refl|].
    apply refines_bind; [apply Hpv|]. intros [v s1].
    destruct (json_object_add acc key v) as [[|] acc']; [|apply refines_refl].
    destruct (negb _); [apply refines_refl|]. apply IH. lia.
Qed.

Lemma parse_value_refines (fuel fuel' : nat) (s : string) (nesting : Z) :
  (fuel <= fuel')%nat ->
  refines (parse_value strtod fuel s nesting) (parse_value strtod fuel' s nesting).
Proof.
  revert fuel' s nesting. induction fuel as [|fuel IH]; intros fuel' s nesting Hf;
    [now left|].
  destruct fuel' as [|fuel']; [lia|]. simpl.
  destruct (MAX_NESTING <? nesting); [apply refines_refl|].
  repeat match goal with
         | |- context [if ?x then _ else _] => destruct x
         end; try apply refines_refl.
  - unfold parse_object_value. simpl.
    destruct (negb _); [apply refines_refl|].
    destruct (Ascii.eqb _ "}"); [apply refines_refl|].
    apply refines_bind; [|intros [a r]; apply refines_refl].
    apply parse_object_loop_refines; [|lia]. intros x. apply IH. lia.
  - unfold parse_array_value. simpl.
    destruct (negb _); [apply refines_refl|].
    destruct (Ascii.eqb _ "]"); [apply refines_refl|].
    apply refines_bind; [|intros [a r]; apply refines_refl].
    apply parse_array_loop_refines; [|lia]. intros x. apply IH. lia.
Qed.

(** The result of [parse_value] with any fuel that gives one is the result
    of [json_parse_string]. *)
Lemma json_parse_string_of_parse_value (fuel : nat) (s rest : string) (value : JSON_Value) :
  parse_value strtod fuel (skip_bom s) 0 = Ok (value, rest) ->
  json_parse_string strtod s = Ok value.
Proof.
  intros H. unfold json_parse_string.
  set (f0 := S (String.length (skip_bom s))).
  pose proof (parse_value_advances f0 (skip_bom s) 0) as Ht.
  destruct (Nat.le_ge_cases fuel f0) as [Hle | Hge].
  - rewrite (refines_ok _ _ _ (parse_value_refines fuel f0 _ 0 Hle) H). reflexivity.
  - destruct (parse_value_refines f0 fuel (skip_bom s) 0 Hge) as [E | E].
    + rewrite E in Ht. simpl in Ht. exfalso. apply Ht. unfold f0. lia.
    + rewrite E, H. reflexivity.
Qed.

Lemma json_parse_string_fail_of_parse_value (fuel : nat) (s : string) :
  parse_value strtod fuel (skip_bom s) 0 = Fail ->
  json_parse_string strtod s = Fail.
Proof.
  intros H. unfold json_parse_string.
  set (f0 := S (String.length (skip_bom s))).
  pose proof (parse_value_advances f0 (skip_bom s) 0) as Ht.
  destruct (Nat.le_ge_cases fuel f0) as [Hle | Hge].
  - rewrite (refines_fail _ _ (parse_value_refines fuel f0 _ 0 Hle) H). reflexivity.
  - destruct (parse_value_refines f0 fuel (skip_bom s) 0 Hge) as [E | E].
    + rewrite E in Ht. simpl in Ht. exfalso. apply Ht. unfold f0. lia.
    + rewrite E, H. reflexivity.
Qed.

End ParserFuel.

(** ** Names *)

(** A text without NUL bytes: what a [char *] can denote. *)
Definition nul_free (s : string) : Prop := c_str s = s.

Lemma nul_free_cons (c : ascii) (s : string) :
  nul_free (String c s) <-> c <> NUL /\ nul_free s.
Proof.
  unfold nul_free. simpl. destruct (Ascii.eqb c NUL) eqn:E.
  - apply ascii_eqb_true in E. split; [discriminate | intros [H _]; contradiction].
  - apply ascii_eqb_false in E. split.
    + intros [= H]. now split.
    + intros [_ H]. now rewrite H.
Qed.

Lemma c_str_nul_free (s : string) : nul_free (c_str s).
Proof.
  unfold nul_free. induction s as [|c s IH]; simpl; [reflexivity|].
  destruct (Ascii.eqb c NUL) eqn:E; simpl; [reflexivity|]. now rewrite E, IH.
Qed.

Lemma strlen_nul_free (s : string) : nul_free s -> strlen s = String.length s.
Proof. intros H. unfold strlen. now rewrite H. Qed.

Lemma strncmp_eq_nul_free (a b : string) :
  nul_free a -> nul_free b -> String.length a = String.length b ->
  strncmp_eq a b (String.length b) = String.eqb a b.
Proof.
  revert b. induction a as [|x a IH]; intros [|y b] Ha Hb Hl; simpl in *;
    try reflexivity; try discriminate.
  apply nul_free_cons in Ha as [Hx Ha]. apply nul_free_cons in Hb as [Hy Hb].
  destruct (Ascii.eqb x y) eqn:E; [|reflexivity].
  apply ascii_eqb_false in Hx. rewrite Hx. apply IH; auto.
Qed.

(** On NUL-free names the comparison of [json_object_getn_value] is
    equality. *)
Lemma name_matches_eqb (stored name : string) :
  nul_free stored -> nul_free name ->
  name_matches stored name (strlen name) = String.eqb stored name.
Proof.
  intros Hs Hn. unfold name_matches.
  rewrite !strlen_nul_free by assumption.
  destruct (String.length stored =? String.length name)%nat eqn:E; simpl.
  - apply Nat.eqb_eq in E. now apply strncmp_eq_nul_free.
  - apply Nat.eqb_neq in E. symmetry. apply String.eqb_neq. congruence.
Qed.

Lemma strncmp_eq_refl (a : string) (n : nat) : strncmp_eq a a n = true.
Proof.
  revert a. induction n as [|n IH]; intros a; simpl; [reflexivity|].
  rewrite Ascii.eqb_refl. destruct (Ascii.eqb (peek a) NUL); [reflexivity | apply IH].
Qed.

Lemma name_matches_refl (name : string) : name_matches name name (strlen name) = true.
Proof. unfold name_matches. now rewrite Nat.eqb_refl, strncmp_eq_refl. Qed.

Section ObjectLemmas.
Context {V : Type}.
Implicit Types (object : list (string * V)) (name : string).

Definition names_nul_free object : Prop := Forall (fun p => nul_free (fst p)) object.

(** A lookup by a NUL-free name finds the first pair with that name. *)
Lemma json_object_get_value_in object name :
  names_nul_free object -> nul_free name ->
  name ∈ object.*1 -> is_Some (json_object_get_value object name).
Proof.
  intros Ho Hn. unfold json_object_get_value.
  induction Ho as [|[k v] o Hk Ho IH]; simpl; [intros H; inversion H|].
  rewrite name_matches_eqb by assumption.
  destruct (String.eqb_spec k name) as [-> | Hne]; [eauto|].
  intros H. apply elem_of_cons in H as [-> | H]; [contradiction | now apply IH].
Qed.

Lemma json_object_get_value_not_in object name :
  names_nul_free object -> nul_free name ->
  name ∉ object.*1 -> json_object_get_value object name = None.
Proof.
  intros Ho Hn. unfold json_object_get_value.
  induction Ho as [|[k v] o Hk Ho IH]; simpl; [reflexivity|].
  rewrite name_matches_eqb by assumption.
  intros H. apply not_elem_of_cons in H as [Hne H].
  destruct (String.eqb_spec k name) as [-> | _]; [contradiction | now apply IH].
Qed.

(** The name at an index is always found by the lookup. *)
Lemma json_object_get_value_name object i name :
  json_object_get_name object i = Some name ->
  is_Some (json_object_get_value object name).
Proof.
  unfold json_object_get_name, json_object_get_value.
  revert i. induction object as [|[k v] o IH]; intros i; simpl; [destruct i; discriminate|].
  destruct i as [|i]; simpl.
  - intros [= ->]. rewrite name_matches_refl. eauto.
  - intros H. destruct (name_matches k name (strlen name)); [eauto | now apply (IH i)].
Qed.

Lemma json_object_addn_present object name name_len (value : V) :
  is_Some (json_object_getn_value object name name_len) ->
  json_object_addn object name name_len value = (JSONFailure, object).
Proof. intros [old H]. unfold json_object_addn. now rewrite H. Qed.

Lemma json_object_addn_absent object name name_len (value : V) :
  json_object_getn_value object name name_len = None ->
  json_object_addn object name name_len value
    = (JSONSuccess, object ++ [(parson_strndup name name_len, value)]).
Proof. intros H. unfold json_object_addn. now rewrite H. Qed.
End ObjectLemmas.

(** ** Induction on value trees *)

Lemma JSON_Value_ind' (P : JSON_Value -> Prop) :
  P json_null ->
  (forall s, P (json_string s)) ->
  (forall d, P (json_number d)) ->
  (forall o, Forall (fun p => P (snd p)) o -> P (json_object o)) ->
  (forall a, Forall P a -> P (json_array a)) ->
  (forall b, P (json_boolean b)) ->
  forall v, P v.
Proof.
  intros Hnull Hstr Hnum Hobj Harr Hbool.
  fix IH 1. intros [ | s | d | o | a | b ].
  - exact Hnull.
  - apply Hstr.
  - apply Hnum.
  - apply Hobj. induction o as [|[k v] o IHo]; constructor; [apply IH | exact IHo].
  - apply Harr. induction a as [|v a IHa]; constructor; [apply IH | exact IHa].
  - apply Hbool.
Qed.

Lemma all_indices_true (n from : nat) (test : nat -> bool) :
  all_indices n from test = true <->
  forall i, (from <= i < from + n)%nat -> test i = true.
Proof.
  revert from. induction n as [|n IH]; intros from; simpl.
  - split; [intros _ i Hi; lia | reflexivity].
  - destruct (test from) eqn:E.
    + rewrite IH. split; intros H i Hi.
      * destruct (Nat.eq_dec i from) as [-> | Hne]; [exact E | apply H; lia].
      * apply H. lia.
    + split; [discriminate|]. intros H. rewrite <- E. apply H. lia.
Qed.

Section MappedLookup.
Context {A B : Type} (f : A -> B).

Lemma json_object_getn_value_map (o : list (string * A)) (name : string) (n : nat) :
  json_object_getn_value (List.map (fun p => (fst p, f (snd p))) o) name n
  = f <$> json_object_getn_value o name n.
Proof.
  induction o as [|[k v] o IH]; simpl; [reflexivity|].
  destruct (name_matches k name n); [reflexivity | exact IH].
Qed.

Lemma json_object_get_value_map (o : list (string * A)) (name : string) :
  json_object_get_value (List.map (fun p => (fst p, f (snd p))) o) name
  = f <$> json_object_get_value o name.
Proof. apply json_object_getn_value_map. Qed.

Lemma json_object_get_name_map (o : list (string * A)) (i : nat) :
  json_object_get_name (List.map (fun p => (fst p, f (snd p))) o) i
  = json_object_get_name o i.
Proof.
  unfold json_object_get_name.
  change (List.map (fun p => (fst p, f (snd p))) o) with ((fun p => (fst p, f (snd p))) <$> o).
  rewrite list_lookup_fmap. now destruct (o !! i).
Qed.
End MappedLookup.

(** With distinct NUL-free names the lookup finds the value paired with the
    name. *)
Lemma json_object_get_value_elem {V} (o : list (string * V)) (name : string) (v : V) :
  names_nul_free o -> NoDup o.*1 -> (name, v) ∈ o ->
  json_object_get_value o name = Some v.
Proof.
  intros Ho Hnd Hin. unfold json_object_get_value.
  induction Ho as [|[k w] o Hk Ho IH]; [inversion Hin|].
  simpl in *. apply NoDup_cons in Hnd as [Hk' Hnd].
  assert (Hn : nul_free name).
  { apply elem_of_cons in Hin as [[= -> ->] | Hin]; [exact Hk|].
    apply (proj1 (Forall_forall _ _) Ho _ Hin). }
  rewrite name_matches_eqb by assumption.
  apply elem_of_cons in Hin as [[= -> ->] | Hin].
  - now rewrite String.eqb_refl.
  - destruct (String.eqb_spec k name) as [-> | _]; [|now apply IH].
    exfalso. apply Hk'. apply list_elem_of_fmap. now exists (name, v).
Qed.

Lemma json_object_getn_value_elem {V} (o : list (string * V)) (name : string)
    (n : nat) (v : V) :
  json_object_getn_value o name n = Some v -> exists k, (k, v) ∈ o.
Proof.
  induction o as [|[k w] o IH]; simpl; [discriminate|].
  destruct (name_matches k name n).
  - intros [= ->]. exists k. apply list_elem_of_here.
  - intros H. destruct (IH H) as [k' Hk']. exists k'. now apply list_elem_of_further.
Qed.

(** ** The two passes of the serializer *)

Lemma length_list_ascii (s : string) :
  List.length (list_ascii_of_string s) = String.length s.
Proof. induction s as [|c s IH]; simpl; [reflexivity | now rewrite IH]. Qed.

Lemma list_ascii_append (a b : string) :
  list_ascii_of_string (a ++ b) = list_ascii_of_string a ++ list_ascii_of_string b.
Proof. induction a as [|c a IH]; simpl; [reflexivity | now rewrite IH]. Qed.

Lemma write_at_length (m : list ascii) (p : nat) (bs : list ascii) :
  (p <= List.length m)%nat -> (p + List.length bs <= List.length (write_at m p bs))%nat.
Proof. intros Hp. unfold write_at. rewrite !length_app, length_take. lia. Qed.

Lemma take_write_at (m : list ascii) (p k : nat) (bs : list ascii) :
  (p <= List.length m)%nat -> (k <= List.length bs)%nat ->
  take (p + k) (write_at m p bs) = take p m ++ take k bs.
Proof.
  intros Hp Hk. unfold write_at.
  rewrite take_app_add' by (rewrite length_take; lia).
  now rewrite take_app_le.
Qed.

Lemma drop_write_at (m : list ascii) (p k : nat) (bs : list ascii) :
  (p <= List.length m)%nat -> (List.length bs <= k)%nat ->
  drop (p + k) (write_at m p bs) = drop (p + k) m.
Proof.
  intros Hp Hk. unfold write_at.
  rewrite drop_app_add' by (rewrite length_take; lia).
  rewrite drop_app_ge by lia. rewrite drop_drop. f_equal. lia.
Qed.

(** A store at the end of the text of a store continues that text. *)
Lemma store_store (m : list ascii) (p : nat) (a b : string) :
  (p <= List.length m)%nat ->
  store (store m p a) (p + String.length a) b = store m p (a ++ b).
Proof.
  intros Hp. unfold store. rewrite <- (length_list_ascii a).
  unfold write_at at 1.
  rewrite take_write_at by (rewrite ?length_app; simpl; lia).
  rewrite take_app_length.
  replace (p + List.length (list_ascii_of_string a)
           + List.length (list_ascii_of_string b ++ [NUL]))%nat
    with (p + (List.length (list_ascii_of_string a) +
               List.length (list_ascii_of_string b) + 1))%nat
    by (rewrite length_app; simpl; lia).
  rewrite drop_write_at by (rewrite ?length_app; simpl; lia).
  unfold write_at. rewrite list_ascii_append, <- !app_assoc. do 4 f_equal.
  f_equal. rewrite !length_app. simpl. lia.
Qed.

(** A store after a single byte continues from that byte. *)
Lemma write_store (m : list ascii) (p : nat) (c : ascii) (b : string) :
  (p <= List.length m)%nat ->
  store (write_at m p [c]) (p + 1) b = store m p (String c b).
Proof.
  intros Hp. unfold store. unfold write_at at 1.
  rewrite (take_write_at m p 1 [c]) by (simpl; lia).
  replace (p + 1 + List.length (list_ascii_of_string b ++ [NUL]))%nat
    with (p + (List.length (list_ascii_of_string b) + 2))%nat
    by (rewrite length_app; simpl; lia).
  rewrite drop_write_at by (simpl; lia).
  unfold write_at. simpl. rewrite <- !app_assoc. simpl.
  rewrite length_app. simpl. do 5 f_equal. lia.
Qed.

Lemma store_length (m : list ascii) (p : nat) (a : string) :
  (p <= List.length m)%nat -> (p + String.length a < List.length (store m p a))%nat.
Proof.
  intros Hp. unfold store.
  pose proof (write_at_length m p (list_ascii_of_string a ++ [NUL]) Hp) as H.
  rewrite length_app, length_list_ascii in H. simpl in H. lia.
Qed.

Lemma extends_with_store (m : list ascii) (p : nat) (out : string) :
  (p <= List.length m)%nat -> extends_with m p out (store m p out).
Proof.
  intros Hp. split.
  - pose proof (store_length m p out Hp). lia.
  - intros text. now apply store_store.
Qed.

Lemma extends_with_nil (m : list ascii) (p : nat) :
  (p <= List.length m)%nat -> extends_with m p EmptyString m.
Proof. intros Hp. split; simpl; [lia|]. intros text. now rewrite Nat.add_0_r. Qed.

Lemma extends_with_append (m m1 m2 : list ascii) (p : nat) (o1 o2 : string) :
  extends_with m p o1 m1 -> extends_with m1 (p + String.length o1) o2 m2 ->
  extends_with m p (o1 ++ o2) m2.
Proof.
  intros [H1 E1] [H2 E2]. unfold extends_with. rewrite length_append. split; [lia|].
  intros text. rewrite Nat.add_assoc, E2, E1. now rewrite append_assoc.
Qed.

Lemma writes_writes_open f (out : string) : writes f out -> writes_open f out.
Proof.
  intros H m. destruct (H m) as [Hn Hs]. split; [exact Hn|].
  intros p Hp. exists (store m p out). split; [now apply Hs|].
  now apply extends_with_store.
Qed.

Lemma emits_skip : emits skip EmptyString.
Proof.
  intros m wt. unfold skip. simpl. rewrite Z.add_0_r. split; [reflexivity|].
  intros p Hp. exists m. rewrite Nat.add_0_r. split; [reflexivity|].
  now apply extends_with_nil.
Qed.

Lemma emits_when (c : bool) (a : stmt) (out : string) :
  emits a out -> emits (when c a) (if c then out else EmptyString).
Proof. intros H. destruct c; [exact H | apply emits_skip]. Qed.

Lemma emits_seq (a b : stmt) (o1 o2 : string) :
  emits a o1 -> emits b o2 -> emits (seq a b) (o1 ++ o2).
Proof.
  intros Ha Hb m wt. unfold seq. rewrite length_append, Nat2Z.inj_add, Z.add_assoc.
  destruct (Ha m wt) as [Han Has]. split.
  - rewrite Han. apply (Hb m).
  - intros p Hp. destruct (Has p Hp) as (m1 & E1 & X1). rewrite E1.
    destruct (Hb m1 (wt + Z.of_nat (String.length o1))) as [_ Hbs].
    destruct (Hbs (p + String.length o1)%nat (proj1 X1)) as (m2 & E2 & X2).
    exists m2. rewrite E2, Nat.add_assoc. split; [reflexivity|].
    now apply (extends_with_append m m1 m2).
Qed.

Lemma emits_call f (out : string) : writes_open f out -> emits (call f) out.
Proof.
  intros H m wt. destruct (H m) as [Hn Hs]. unfold call. simpl. split.
  - rewrite Hn.
    replace (Z.of_nat (String.length out) <? 0) with false
      by (symmetry; apply Z.ltb_ge; lia).
    reflexivity.
  - intros p Hp. destruct (Hs p Hp) as (m' & E & X). rewrite E.
    replace (Z.of_nat (String.length out) <? 0) with false
      by (symmetry; apply Z.ltb_ge; lia).
    exists m'. simpl. rewrite Nat2Z.id. now split.
Qed.

Lemma emits_for_loop (body : nat -> stmt) (outs : list string) (from : nat) :
  (forall i o, outs !! i = Some o -> emits (body (from + i)%nat) o) ->
  emits (for_loop (List.length outs) from body) (flatten outs).
Proof.
  revert from. induction outs as [|o outs IH]; intros from H; simpl.
  - apply emits_skip.
  - apply emits_seq.
    + specialize (H 0%nat o eq_refl). now rewrite Nat.add_0_r in H.
    + apply IH. intros i o' Hi. specialize (H (S i) o' Hi).
      now replace (S from + i)%nat with (from + S i)%nat by lia.
Qed.

Lemma append_string_writes (text : string) :
  nul_free text -> writes (append_string text) text.
Proof.
  intros Hn m. unfold append_string. rewrite strlen_nul_free by exact Hn.
  split; [reflexivity|]. intros p Hp. now rewrite Hn.
Qed.

Lemma emits_APPEND_STRING (text : string) : nul_free text -> emits (APPEND_STRING text) text.
Proof. intros Hn. apply emits_call, writes_writes_open, append_string_writes, Hn. Qed.

Lemma emits_put_char (c : ascii) : emits (put_char c) (String c EmptyString).
Proof.
  intros m wt. unfold put_char. simpl. split; [reflexivity|].
  intros p Hp. exists (write_at m p [c]). split; [reflexivity|]. split.
  - pose proof (write_at_length m p [c] Hp). simpl in *. lia.
  - intros text. now apply write_store.
Qed.

(** The rest of a function body, down to its [return]. *)
Lemma finishes_return : finishes return_written_total EmptyString.
Proof.
  intros m wt. unfold return_written_total. simpl. rewrite Z.add_0_r.
  split; [reflexivity|]. intros p Hp. exists m. split; [reflexivity|].
  now apply extends_with_nil.
Qed.

Lemma finishes_seq (a b : stmt) (o1 o2 : string) :
  emits a o1 -> finishes b o2 -> finishes (seq a b) (o1 ++ o2).
Proof.
  intros Ha Hb m wt. unfold seq. rewrite length_append, Nat2Z.inj_add, Z.add_assoc.
  destruct (Ha m wt) as [Han Has]. split.
  - rewrite Han. apply (Hb m).
  - intros p Hp. destruct (Has p Hp) as (m1 & E1 & X1). rewrite E1.
    destruct (Hb m1 (wt + Z.of_nat (String.length o1))) as [_ Hbs].
    destruct (Hbs (p + String.length o1)%nat (proj1 X1)) as (m2 & E2 & X2).
    exists m2. rewrite E2. split; [reflexivity|].
    now apply (extends_with_append m m1 m2).
Qed.

Lemma finishes_exactly_last (text : string) :
  nul_free text ->
  finishes_exactly (seq (APPEND_STRING text) return_written_total) text.
Proof.
  intros Hn m wt. unfold seq, return_written_total, APPEND_STRING, call, append_string.
  simpl. rewrite strlen_nul_free by exact Hn.
  replace (Z.of_nat (String.length text) <? 0) with false
    by (symmetry; apply Z.ltb_ge; lia).
  split; [reflexivity|]. intros p Hp. simpl. now rewrite Hn.
Qed.

Lemma finishes_exactly_call f (out : string) :
  writes f out -> finishes_exactly (seq (call f) return_written_total) out.
Proof.
  intros H m wt. unfold seq, return_written_total, call. simpl.
  destruct (H m) as [Hn Hs].
  replace (Z.of_nat (String.length out) <? 0) with false in *
    by (symmetry; apply Z.ltb_ge; lia).
  split.
  - rewrite Hn.
    replace (Z.of_nat (String.length out) <? 0) with false
      by (symmetry; apply Z.ltb_ge; lia).
    reflexivity.
  - intros p Hp. rewrite (Hs p Hp).
    replace (Z.of_nat (String.length out) <? 0) with false
      by (symmetry; apply Z.ltb_ge; lia).
    reflexivity.
Qed.

Lemma finishes_exactly_seq (a b : stmt) (o1 o2 : string) :
  emits a o1 -> finishes_exactly b o2 -> finishes_exactly (seq a b) (o1 ++ o2).
Proof.
  intros Ha Hb m wt. unfold seq. rewrite length_append, Nat2Z.inj_add, Z.add_assoc.
  destruct (Ha m wt) as [Han Has]. split.
  - rewrite Han. apply (Hb m).
  - intros p Hp. destruct (Has p Hp) as (m1 & E1 & X1). rewrite E1.
    destruct (Hb m1 (wt + Z.of_nat (String.length o1))) as [_ Hbs].
    rewrite (Hbs (p + String.length o1)%nat (proj1 X1)). f_equal. apply X1.
Qed.

Lemma run_writes_open (body : stmt) (out : string) :
  finishes body out -> writes_open (run body) out.
Proof.
  intros H m. unfold run. destruct (H m 0) as [Hn Hs]. split.
  - now rewrite Hn.
  - intros p Hp. destruct (Hs p Hp) as (m' & E & X). rewrite E. now exists m'.
Qed.

Lemma run_writes (body : stmt) (out : string) :
  finishes_exactly body out -> writes (run body) out.
Proof.
  intros H m. unfold run. destruct (H m 0) as [Hn Hs]. split.
  - now rewrite Hn.
  - intros p Hp. now rewrite (Hs p Hp).
Qed.

Lemma append_indent_writes_open (level : Z) :
  writes_open (append_indent level) (indent_text level).
Proof.
  unfold append_indent, indent_text. apply run_writes_open.
  rewrite <- (append_nil_r (flatten _)). apply finishes_seq; [|apply finishes_return].
  rewrite <- (length_replicate (Z.to_nat level) "    "%string) at 1.
  apply emits_for_loop. intros i o Hi.
  apply lookup_replicate in Hi as [-> _]. now apply emits_APPEND_STRING.
Qed.

Lemma emits_APPEND_INDENT (level : Z) : emits (APPEND_INDENT level) (indent_text level).
Proof. apply emits_call, append_indent_writes_open. Qed.

Lemma hex_digit_not_nul (n : Z) : 0 <= n < 16 -> hex_digit n <> NUL.
Proof.
  intros Hn. rewrite <- (Z2Nat.id n) by lia.
  assert (Hk : (Z.to_nat n < 16)%nat) by lia. revert Hk.
  generalize (Z.to_nat n) as k. intros k Hk.
  do 16 (destruct k as [|k]; [discriminate|]). lia.
Qed.

Lemma uchar_range (c : ascii) : 0 <= uchar c < 256.
Proof.
  unfold uchar. pose proof (N_ascii_bounded c) as H. lia.
Qed.

Section Serializer.
Variable sprintf_g17 : double -> string.
Variable parson_escape_slashes : bool.

Lemma escape_char_nul_free (c : ascii) :
c <> NUL -> nul_free (escape_char parson_escape_slashes c).
Proof.
intros Hc. unfold escape_char.
repeat match goal with
       | |- context [if ?x then _ else _] => destruct x eqn:?
       end; try reflexivity.
- pose proof (uchar_range c).
  repeat (apply nul_free_cons; split; [try discriminate|]); try reflexivity.
  + apply hex_digit_not_nul. split; [apply Z.div_pos; lia | apply Z.div_lt_upper_bound; lia].
  + apply hex_digit_not_nul. apply Z.mod_pos_bound. lia.
- apply nul_free_cons. split; [exact Hc | reflexivity].
Qed.

Lemma emits_serialize_char (c : ascii) :
c <> NUL ->
emits (serialize_char parson_escape_slashes c) (escape_char parson_escape_slashes c).
Proof.
intros Hc. pose proof (escape_char_nul_free c Hc) as Hn. revert Hn.
unfold serialize_char, escape_char.
repeat match goal with
       | |- context [if ?x then _ else _] => destruct x eqn:?
       end; intros Hn; try (apply emits_APPEND_STRING; exact Hn).
apply emits_put_char.
Qed.

Lemma emits_serialize_chars (s : string) :
nul_free s ->
emits (serialize_chars parson_escape_slashes s) (escape_string parson_escape_slashes s).
Proof.
induction s as [|c s IH]; intros Hn; simpl.
- apply emits_skip.
- apply nul_free_cons in Hn as [Hc Hs].
  apply emits_seq; [now apply emits_serialize_char | now apply IH].
Qed.

Lemma json_serialize_string_writes (s : string) :
writes (json_serialize_string parson_escape_slashes s)
       (quoted_text parson_escape_slashes s).
Proof.
unfold json_serialize_string, quoted_text. apply run_writes.
change (String DQUOTE (escape_string parson_escape_slashes (c_str s)
                       ++ String DQUOTE EmptyString))
  with (String DQUOTE EmptyString
        ++ (escape_string parson_escape_slashes (c_str s) ++ String DQUOTE EmptyString))%string.
apply finishes_exactly_seq; [now apply emits_APPEND_STRING|].
apply finishes_exactly_seq; [apply emits_serialize_chars, c_str_nul_free|].
now apply finishes_exactly_last.
Qed.

Lemma emits_element (count : nat) (level : Z) (is_pretty : bool) (i : nat)
  (a : stmt) (body : string) :
emits a body ->
emits (seq (when is_pretty (APPEND_INDENT (level + 1)))
        (seq a
          (seq (when (i <? count - 1)%nat (APPEND_STRING ","))
               (when is_pretty (APPEND_STRING nl)))))
      (element_text count is_pretty level i body).
Proof.
intros Ha. unfold element_text.
apply emits_seq; [apply emits_when, emits_APPEND_INDENT|].
apply emits_seq; [exact Ha|].
apply emits_seq; apply emits_when; now apply emits_APPEND_STRING.
Qed.

Lemma emits_member (count : nat) (level : Z) (is_pretty : bool) (i : nat)
  (a_key a_value : stmt) (key_text value_text : string) :
emits a_key key_text -> emits a_value value_text ->
emits (seq (when is_pretty (APPEND_INDENT (level + 1)))
        (seq a_key
          (seq (APPEND_STRING ":")
            (seq (when is_pretty (APPEND_STRING " "))
              (seq a_value
                (seq (when (i <? count - 1)%nat (APPEND_STRING ","))
                     (when is_pretty (APPEND_STRING nl))))))))
      (element_text count is_pretty level i
         (key_text ++ ":" ++ (if is_pretty then " " else "") ++ value_text)).
Proof.
intros Hk Hv. unfold element_text. rewrite !append_assoc.
apply emits_seq; [apply emits_when, emits_APPEND_INDENT|].
apply emits_seq; [exact Hk|].
apply emits_seq; [now apply emits_APPEND_STRING|].
apply emits_seq; [apply emits_when; now apply emits_APPEND_STRING|].
apply emits_seq; [exact Hv|].
apply emits_seq; apply emits_when; now apply emits_APPEND_STRING.
Qed.

Lemma finishes_container (opening closing : string) (count : nat) (level : Z)
  (is_pretty : bool) (body : nat -> stmt) (bodies : list string) :
nul_free opening -> nul_free closing -> count = List.length bodies ->
(forall i b, bodies !! i = Some b ->
   emits (body i) (element_text count is_pretty level i b)) ->
finishes_exactly
  (seq (APPEND_STRING opening)
    (seq (when ((0 <? count)%nat && is_pretty) (APPEND_STRING nl))
      (seq (for_loop count 0 body)
        (seq (when ((0 <? count)%nat && is_pretty) (APPEND_INDENT level))
          (seq (APPEND_STRING closing) return_written_total)))))
  (container_text opening closing is_pretty level bodies).
Proof.
intros Ho Hc -> Hb. unfold container_text.
apply finishes_exactly_seq; [now apply emits_APPEND_STRING|].
apply finishes_exactly_seq; [apply emits_when; now apply emits_APPEND_STRING|].
apply finishes_exactly_seq.
- rewrite <- (length_imap (element_text (List.length bodies) is_pretty level) bodies) at 1.
  apply emits_for_loop. intros i o Hi. rewrite list_lookup_imap in Hi.
  destruct (bodies !! i) as [b|] eqn:Eb; [|discriminate].
  injection Hi as <-. now apply Hb.
- apply finishes_exactly_seq; [apply emits_when, emits_APPEND_INDENT|].
  now apply finishes_exactly_last.
Qed.

Lemma serialize_array_body_writes {A} (f : A -> list ascii -> option nat -> Z * list ascii)
  (r : A -> string) (a : list A) (level : Z) (is_pretty : bool) :
Forall (fun x => writes_open (f x) (r x)) a ->
writes (serialize_array_body_run (List.length a) level is_pretty (List.map f a))
       (container_text "[" "]" is_pretty level (List.map r a)).
Proof.
intros Ha. unfold serialize_array_body_run, serialize_array_body. apply run_writes.
apply finishes_container; try reflexivity; [now rewrite length_map|].
intros i b Hb. apply emits_element.
unfold json_array_get_value.
change (List.map f a) with (f <$> a). change (List.map r a) with (r <$> a) in Hb.
rewrite list_lookup_fmap in Hb. rewrite list_lookup_fmap.
destruct (a !! i) as [x|] eqn:Ex; simpl in *; [|discriminate].
injection Hb as <-. apply emits_call.
apply (proj1 (Forall_lookup _ _) Ha i x Ex).
Qed.

Lemma serialize_object_body_writes {A}
  (f : A -> list ascii -> option nat -> Z * list ascii) (r : A -> string)
  (o : list (string * A)) (level : Z) (is_pretty : bool) :
Forall (fun p => writes_open (f (snd p)) (r (snd p))) o ->
writes (serialize_object_body_run parson_escape_slashes (List.length o) level is_pretty
          (List.map (fun p => (fst p, f (snd p))) o))
       (container_text "{" "}" is_pretty level
          (List.map (fun key => member_text parson_escape_slashes is_pretty key
                       (json_object_get_value
                          (List.map (fun p => (fst p, r (snd p))) o) key)) o.*1)).
Proof.
intros Ho. unfold serialize_object_body_run, serialize_object_body. apply run_writes.
apply finishes_container; try reflexivity; [now rewrite length_map, length_fmap|].
intros i b Hb.
rewrite json_object_get_name_map.
change (List.map ?g o.*1) with (g <$> o.*1) in Hb.
rewrite list_lookup_fmap in Hb.
unfold json_object_get_name.
destruct (o.*1 !! i) as [key|] eqn:Ek; simpl in Hb; [|discriminate].
injection Hb as <-. rewrite list_lookup_fmap in Ek.
assert (Hname : json_object_get_name o i = Some key) by exact Ek.
unfold json_object_get_name in Hname |- *. rewrite Hname.
destruct (json_object_get_value_name o i key Hname) as [x Hx].
rewrite !json_object_get_value_map, Hx.
change (f <$> Some x) with (Some (f x)). change (r <$> Some x) with (Some (r x)).
unfold call_value, default.
destruct (json_object_getn_value_elem o key _ x Hx) as [k Hk].
pose proof (proj1 (Forall_forall _ _) Ho _ Hk) as Hw. simpl in Hw.
unfold member_text. lazy beta iota.
apply emits_member.
- apply emits_call, writes_writes_open, json_serialize_string_writes.
- now apply emits_call.
Qed.

(** The serializer writes the text of the value, and counts its length. *)
Lemma json_serialize_to_buffer_r_writes (v : JSON_Value) :
forall level is_pretty,
  writes (json_serialize_to_buffer_r sprintf_g17 parson_escape_slashes v level is_pretty)
         (render sprintf_g17 parson_escape_slashes v level is_pretty).
Proof.
induction v as [ | s | d | o IH | a IH | b ] using JSON_Value_ind';
  intros level is_pretty; cbn [json_serialize_to_buffer_r render].
- apply run_writes. now apply finishes_exactly_last.
- apply run_writes, finishes_exactly_call, json_serialize_string_writes.
- apply run_writes, finishes_exactly_call. intros m. split; reflexivity.
- apply (serialize_object_body_writes
           (fun x => json_serialize_to_buffer_r sprintf_g17 parson_escape_slashes x
                       (level + 1) is_pretty)
           (fun x => render sprintf_g17 parson_escape_slashes x (level + 1) is_pretty)).
  eapply Forall_impl; [exact IH|]. intros [k x] Hx. apply writes_writes_open, Hx.
- apply (serialize_array_body_writes
           (fun x => json_serialize_to_buffer_r sprintf_g17 parson_escape_slashes x
                       (level + 1) is_pretty)
           (fun x => render sprintf_g17 parson_escape_slashes x (level + 1) is_pretty)).
  eapply Forall_impl; [exact IH|]. intros x Hx. apply writes_writes_open, Hx.
- apply run_writes. destruct b; now apply finishes_exactly_last.
Qed.

End Serializer.

(** ** Numbers *)



(** ** UTF-16 escapes *)

Lemma land_shiftl_small (a b n : Z) :
  0 <= n -> 0 <= b < 2 ^ n -> Z.land (Z.shiftl a n) b = 0.
Proof.
  intros Hn Hb. apply Z.bits_inj'. intros i Hi.
  rewrite Z.land_spec, Z.bits_0.
  destruct (Z.lt_ge_cases i n) as [Hlt | Hge].
  - now rewrite Z.shiftl_spec_low.
  - rewrite <- (Z.mod_small b (2 ^ n)) by lia.
    rewrite Z.mod_pow2_bits_high by lia. apply andb_false_r.
Qed.

Lemma lor_shiftl_add (a b n : Z) :
  0 <= n -> 0 <= b < 2 ^ n -> Z.lor (Z.shiftl a n) b = a * 2 ^ n + b.
Proof.
  intros Hn Hb. pose proof (land_shiftl_small a b n Hn Hb) as H.
  rewrite <- Z.shiftl_mul_pow2 by lia.
  rewrite Z.add_nocarry_lxor by exact H. symmetry. now apply Z.lxor_lor.
Qed.

Lemma land_ones_small (a n : Z) : 0 <= n -> 0 <= a < 2 ^ n -> Z.land a (Z.ones n) = a.
Proof. intros Hn Ha. rewrite Z.land_ones by lia. apply Z.mod_small. lia. Qed.

(** The bit operations of the surrogate branch of [parse_utf16] compute the
    code point of the pair. *)
Lemma surrogate_bits (lead trail : Z) :
  0xD800 <= lead <= 0xDBFF -> 0xDC00 <= trail <= 0xDFFF ->
  Z.lor (Z.shiftl (Z.land (lead - 0xD800) 0x3FF) 10) (Z.land (trail - 0xDC00) 0x3FF)
    + 0x010000 = surrogate_pair lead trail.
Proof.
  intros Hl Ht. unfold surrogate_pair.
  change 0x3FF with (Z.ones 10).
  rewrite !land_ones_small by lia.
  rewrite lor_shiftl_add by lia. lia.
Qed.

(** The bytes stored by the surrogate branch are the UTF-8 encoding. *)
Lemma utf8_4_bits (cp : Z) :
  0x10000 <= cp < 0x110000 ->
  [char_of (Z.lor (Z.land (Z.shiftr cp 18) 0x07) 0xF0);
   char_of (Z.lor (Z.land (Z.shiftr cp 12) 0x3F) 0x80);
   char_of (Z.lor (Z.land (Z.shiftr cp 6) 0x3F) 0x80);
   char_of (Z.lor (Z.land cp 0x3F) 0x80)] = utf8_4 cp.
Proof.
  intros Hcp. unfold utf8_4.
  rewrite !Z.shiftr_div_pow2 by lia.
  change 0x07 with (Z.ones 3). change 0x3F with (Z.ones 6).
  rewrite !Z.land_ones by lia.
  assert (H18 : 0 <= cp / 2 ^ 18 < 2 ^ 3).
  { split; [apply Z.div_pos; lia | apply Z.div_lt_upper_bound; lia]. }
  rewrite (Z.mod_small (cp / 2 ^ 18)) by lia.
  assert (Hlor : forall a hi k, 0 <= k -> 0 <= a < 2 ^ k -> hi mod 2 ^ k = 0 -> 0 <= hi ->
            Z.lor a hi = hi + a).
  { intros a hi k Hk Ha Hhi Hpos. rewrite Z.lor_comm.
    rewrite (Z.div_mod hi (2 ^ k)) at 1 by lia. rewrite Hhi, Z.add_0_r.
    rewrite Z.mul_comm, <- Z.shiftl_mul_pow2 by lia.
    rewrite lor_shiftl_add by lia.
    rewrite (Z.div_mod hi (2 ^ k)) at 2 by lia. lia. }
  rewrite (Hlor (cp / 2 ^ 18) 0xF0 4) by (try reflexivity; lia).
  rewrite !(Hlor _ 0x80 6) by
    (try reflexivity; try lia; apply Z.mod_pos_bound; lia).
  reflexivity.
Qed.

Lemma parse_utf16_trail_first (p : string) (trail : Z) :
  parse_utf16_hex (SKIP_CHAR p) = Some trail -> 0xDC00 <= trail <= 0xDFFF ->
  parse_utf16 p = None.
Proof.
  intros Hh Hr. unfold parse_utf16. rewrite Hh.
  replace (trail <? 0x80) with false by (symmetry; apply Z.ltb_ge; lia).
  replace (trail <? 0x800) with false by (symmetry; apply Z.ltb_ge; lia).
  replace (trail <? 0xD800) with false by (symmetry; apply Z.ltb_ge; lia).
  replace (0xDFFF <? trail) with false by (symmetry; apply Z.ltb_ge; lia).
  replace (trail <=? 0xDBFF) with false by (symmetry; apply Z.leb_gt; lia).
  now rewrite andb_false_r.
Qed.

Lemma parse_utf16_lead (p : string) (lead : Z) :
  parse_utf16_hex (SKIP_CHAR p) = Some lead -> 0xD800 <= lead <= 0xDBFF ->
  parse_utf16 p =
    match trail_escape p with
    | Some trail => Some (utf8_4 (surrogate_pair lead trail), advance 10 p)
    | None => None
    end.
Proof.
  intros Hh Hr. unfold parse_utf16, trail_escape. rewrite Hh.
  replace (lead <? 0x80) with false by (symmetry; apply Z.ltb_ge; lia).
  replace (lead <? 0x800) with false by (symmetry; apply Z.ltb_ge; lia).
  replace (lead <? 0xD800) with false by (symmetry; apply Z.ltb_ge; lia).
  replace (0xDFFF <? lead) with false by (symmetry; apply Z.ltb_ge; lia).
  replace (0xD800 <=? lead) with true by (symmetry; apply Z.leb_le; lia).
  replace (lead <=? 0xDBFF) with true by (symmetry; apply Z.leb_le; lia).
  cbn [orb andb].
  change (advance 4 (SKIP_CHAR p)) with (advance 5 p).
  change (SKIP_CHAR (SKIP_CHAR (advance 5 p))) with (advance 2 (advance 5 p)).
  destruct (Ascii.eqb (peek (advance 5 p)) "\"); cbn [negb andb]; [|reflexivity].
  destruct (Ascii.eqb (peek (SKIP_CHAR (advance 5 p))) "u"); cbn [negb]; [|reflexivity].
  destruct (parse_utf16_hex (advance 2 (advance 5 p))) as [trail|]; [|reflexivity].
  destruct (trail <? 0xDC00) eqn:E1; cbn [orb].
  { replace (0xDC00 <=? trail) with false by (symmetry; apply Z.leb_gt; lia). reflexivity. }
  destruct (0xDFFF <? trail) eqn:E2.
  { replace (trail <=? 0xDFFF) with false by (symmetry; apply Z.leb_gt; lia).
    now rewrite andb_false_r. }
  apply Z.ltb_ge in E1, E2.
  replace (0xDC00 <=? trail) with true by (symmetry; apply Z.leb_le; lia).
  replace (trail <=? 0xDFFF) with true by (symmetry; apply Z.leb_le; lia).
  cbn [andb]. rewrite surrogate_bits by lia.
  rewrite utf8_4_bits by (unfold surrogate_pair; lia).
  reflexivity.
Qed.

(** A failing escape makes [process_string] fail. *)
Lemma process_string_loop_bad_escape (fuel input_len len : nat) (p : string) :
  peek p = "u"%char -> parse_utf16 p = None ->
  (input_len - String.length (String "\" p) < len)%nat ->
  process_string_loop (S fuel) input_len (String "\" p) len = Fail.
Proof.
  intros Hu Hp Hlen. apply Nat.ltb_lt in Hlen.
  change (process_string_loop (S fuel) input_len (String "\" p) len) with
    (if Ascii.eqb "\" NUL || negb (input_len - String.length (String "\" p) <? len)%nat
     then Ok EmptyString
     else if Ascii.eqb "\" "\" then
       if Ascii.eqb (peek p) DQUOTE then emit [DQUOTE] (process_string_loop fuel input_len (SKIP_CHAR p) len)
       else if Ascii.eqb (peek p) "\" then emit ["\"%char] (process_string_loop fuel input_len (SKIP_CHAR p) len)
       else if Ascii.eqb (peek p) "/" then emit ["/"%char] (process_string_loop fuel input_len (SKIP_CHAR p) len)
       else if Ascii.eqb (peek p) "b" then emit ["008"%char] (process_string_loop fuel input_len (SKIP_CHAR p) len)
       else if Ascii.eqb (peek p) "f" then emit ["012"%char] (process_string_loop fuel input_len (SKIP_CHAR p) len)
       else if Ascii.eqb (peek p) "n" then emit ["010"%char] (process_string_loop fuel input_len (SKIP_CHAR p) len)
       else if Ascii.eqb (peek p) "r" then emit ["013"%char] (process_string_loop fuel input_len (SKIP_CHAR p) len)
       else if Ascii.eqb (peek p) "t" then emit ["009"%char] (process_string_loop fuel input_len (SKIP_CHAR p) len)
       else if Ascii.eqb (peek p) "u" then
         match parse_utf16 p with
         | None => Fail
         | Some (bytes, input_ptr) =>
             emit bytes (process_string_loop fuel input_len (SKIP_CHAR input_ptr) len)
         end
       else Fail
     else if uchar "\" <? 0x20 then Fail
     else emit ["\"%char] (process_string_loop fuel input_len (SKIP_CHAR (String "\" p)) len)).
  rewrite Hlen, Hu, Hp. reflexivity.
Qed.

(** C8. The escapes [\uD83D\uDE00] give the four bytes F0 9F 98 80 of
    U+1F600.  A lead surrogate escape gives the UTF-8 encoding of the code
    point of the pair when a trail surrogate escape follows it at once, and
    fails otherwise; a trail surrogate escape that comes first fails; a
    failing escape fails the whole string. *)
Theorem utf16_surrogate_pairs (strtod : string -> double * nat * bool) :
  json_parse_string strtod (dq "'\uD83D\uDE00'")
    = Ok (json_string (String "240" (String "159" (String "152" (String "128" "")))))
  /\ utf8_4 0x1F600 = ["240"; "159"; "152"; "128"]%char
  /\ json_parse_string strtod (dq "'\uD800'") = Fail
  /\ json_parse_string strtod (dq "'ab\uD800cd'") = Fail
  /\ json_parse_string strtod (dq "'\uD800A'") = Fail
  /\ json_parse_string strtod (dq "'\uDE00\uD83D'") = Fail
  /\ (forall p lead,
        parse_utf16_hex (SKIP_CHAR p) = Some lead -> 0xD800 <= lead <= 0xDBFF ->
        parse_utf16 p =
          match trail_escape p with
          | Some trail => Some (utf8_4 (surrogate_pair lead trail), advance 10 p)
          | None => None
          end)
  /\ (forall p trail,
        parse_utf16_hex (SKIP_CHAR p) = Some trail -> 0xDC00 <= trail <= 0xDFFF ->
        parse_utf16 p = None)
  /\ (forall fuel input_len len p,
        peek p = "u"%char -> parse_utf16 p = None ->
        (input_len - String.length (String "\" p) < len)%nat ->
        process_string_loop (S fuel) input_len (String "\" p) len = Fail).
Proof.
  do 6 (split; [vm_compute; reflexivity|]).
  split; [exact parse_utf16_lead|].
  split; [exact parse_utf16_trail_first|].
  intros fuel input_len len p. apply process_string_loop_bad_escape.
Qed.

Lemma utf16_surrogate_pairs_witness :
  parse_utf16 "uD83D\uDE00" = Some (utf8_4 0x1F600, "0"%string)
  /\ parse_utf16 "uD800x" = None
  /\ parse_utf16 "uDE00\uD83D" = None
  /\ process_string_loop 1 7 "\uD800x" 6 = Fail.
Proof.
  pose proof (utf16_surrogate_pairs RefLibc.strtod)
    as (_ & _ & _ & _ & _ & _ & Hlead & Htrail & Hbad).
  split; [|split; [|split]].
  - rewrite (Hlead "uD83D\uDE00"%string 0xD83D); [reflexivity | reflexivity | lia].
  - rewrite (Hlead "uD800x"%string 0xD800); [reflexivity | reflexivity | lia].
  - apply (Htrail "uDE00\uD83D"%string 0xDE00); [reflexivity | lia].
  - apply (Hbad 0%nat 7%nat 6%nat "uD800x"%string); [reflexivity | reflexivity | simpl; lia].
Defined.

(** ** Trailing input *)




(** ** Duplicate keys *)

Lemma parse_object_loop_duplicate (pv : string -> result (JSON_Value * string))
    (fuel : nat) (s s0 s1 new_key : string) (new_value : JSON_Value)
    (output_object : JSON_Object) :
  peek s <> NUL ->
  get_quoted_string s = Ok (new_key, s0) ->
  peek (SKIP_WHITESPACES s0) = ":"%char ->
  pv (SKIP_CHAR (SKIP_WHITESPACES s0)) = Ok (new_value, s1) ->
  is_Some (json_object_get_value output_object new_key) ->
  parse_object_loop pv (S fuel) s output_object = Fail.
Proof.
  intros Hs Hq Hc Hv Hdup. simpl.
  apply ascii_eqb_false in Hs. rewrite Hs, Hq. simpl.
  rewrite Hc. simpl. rewrite Hv. simpl.
  unfold json_object_add. now rewrite json_object_addn_present.
Qed.

(** C4. [json_object_addn] with a name the object already has returns
    [JSONFailure] and the object is as before; so does [json_object_add]
    with the name of one of the pairs.  In the parser the pair read is then
    not skipped: the loop of [parse_object_value] returns NULL and so does
    the parse. *)
Theorem duplicate_key_insertion_fails :
  (forall (V : Type) (object : list (string * V)) (name : string) (name_len : nat)
          (value : V),
     is_Some (json_object_getn_value object name name_len) ->
     json_object_addn object name name_len value = (JSONFailure, object))
  /\ (forall (V : Type) (object : list (string * V)) (name : string) (value : V),
        names_nul_free object -> nul_free name -> name ∈ object.*1 ->
        json_object_add object name value = (JSONFailure, object))
  /\ (forall pv fuel s s0 s1 new_key new_value output_object,
        peek s <> NUL ->
        get_quoted_string s = Ok (new_key, s0) ->
        peek (SKIP_WHITESPACES s0) = ":"%char ->
        pv (SKIP_CHAR (SKIP_WHITESPACES s0)) = Ok (new_value, s1) ->
        is_Some (json_object_get_value output_object new_key) ->
        parse_object_loop pv (S fuel) s output_object = Fail)
  /\ (forall strtod,
        json_parse_string strtod (dq "{'a':true,'a':false}") = Fail
        /\ json_parse_string strtod (dq "[{'a':true,'b':{'c':null,'d':[],'c':null}}]") = Fail
        /\ json_parse_string strtod (dq "{'a':true,'b':false}")
           = Ok (json_object [("a"%string, json_boolean true);
                              ("b"%string, json_boolean false)])).
Proof.
  split; [|split; [|split]].
  - intros V object name name_len value. apply json_object_addn_present.
  - intros V object name value Ho Hn Hin. unfold json_object_add.
    apply json_object_addn_present. now apply json_object_get_value_in.
  - intros pv fuel s s0 s1 new_key new_value output_object.
    apply parse_object_loop_duplicate.
  - intros strtod. split; [|split]; vm_compute; reflexivity.
Qed.

Lemma duplicate_key_insertion_fails_witness :
  json_object_addn [("a"%string, 1); ("b"%string, 2)] "b.c" 1 3
    = (JSONFailure, [("a"%string, 1); ("b"%string, 2)])
  /\ json_object_add [("a"%string, 1); ("b"%string, 2)] "a" 3
     = (JSONFailure, [("a"%string, 1); ("b"%string, 2)])
  /\ parse_object_loop (fun s => parse_value RefLibc.strtod 1 s 1) 1
       (dq "'a':2}") [("a"%string, json_null)] = Fail.
Proof.
  pose proof duplicate_key_insertion_fails as (Haddn & Hadd & Hloop & _).
  split; [|split].
  - apply Haddn. vm_compute. eauto.
  - apply Hadd.
    + repeat constructor.
    + reflexivity.
    + apply (bool_decide_unpack _). vm_compute. exact I.
  - eapply (Hloop _ 0%nat (dq "'a':2}")).
    + discriminate.
    + vm_compute. reflexivity.
    + reflexivity.
    + vm_compute. reflexivity.
    + vm_compute. eauto.
Defined.

(** ** Removal *)

Lemma json_array_remove_shift {V} (array : list V) (ix : nat) :
  (ix < List.length array)%nat ->
  json_array_remove array ix = (JSONSuccess, take ix array ++ drop (S ix) array).
Proof.
  intros Hix. unfold json_array_remove, json_array_get_count, memmove.
  replace (List.length array <=? ix)%nat with false by (symmetry; apply Nat.leb_gt; lia).
  f_equal.
  replace (ix + 1)%nat with (S ix) by lia.
  rewrite (take_ge (drop (S ix) array)) by (rewrite length_drop; lia).
  rewrite app_assoc, take_app_ge; rewrite length_app, length_take, length_drop; [|lia].
  replace (List.length array - 1 - (ix `min` List.length array
            + (List.length array - S ix)))%nat with 0%nat by lia.
  now rewrite take_0, app_nil_r.
Qed.

Lemma json_array_remove_out_of_range {V} (array : list V) (ix : nat) :
  (List.length array <= ix)%nat -> json_array_remove array ix = (JSONFailure, array).
Proof.
  intros Hix. unfold json_array_remove, json_array_get_count.
  now replace (List.length array <=? ix)%nat with true by (symmetry; apply Nat.leb_le; lia).
Qed.

(** What [json_object_remove] leaves when the pair at index [i] is removed
    from [object]: the last pair takes its place. *)
Definition swap_remove {V} (object : list V) (i : nat) : list V :=
  match object !! (List.length object - 1)%nat with
  | Some last =>
      if (i =? List.length object - 1)%nat then take i object
      else take i object ++ last :: drop (S i) (take (List.length object - 1) object)
  | None => object
  end.

Lemma remove_scan_first {V} (object : list (string * V)) (name : string) (i : nat) (v : V) :
  names_nul_free object -> nul_free name ->
  object !! i = Some (name, v) ->
  (forall j w, (j < i)%nat -> object !! j <> Some (name, w)) ->
  forall n k, (k <= i)%nat -> (i < k + n)%nat ->
  remove_scan object name n k = (JSONSuccess, swap_remove object i).
Proof.
  intros Ho Hn Hi Hfirst n. induction n as [|n IH]; intros k Hk Hin; [lia|].
  simpl. destruct (Nat.eq_dec k i) as [-> | Hne].
  - rewrite Hi. unfold strcmp_eq. rewrite Hn, String.eqb_refl.
    unfold swap_remove, json_object_get_count.
    pose proof (lookup_lt_Some _ _ _ Hi) as Hlt.
    destruct (object !! (List.length object - 1)%nat) as [last|] eqn:Hlast;
      [|apply lookup_ge_None in Hlast; lia].
    f_equal.
    destruct (Nat.eqb_spec i (List.length object - 1)) as [E | E]; simpl.
    + now rewrite E.
    + rewrite insert_take_drop by lia.
      rewrite take_app_ge; rewrite length_take; [|lia].
      replace (List.length object - 1 - i `min` List.length object)%nat
        with (S (List.length object - 1 - S i)) by lia.
      simpl. do 2 f_equal. rewrite take_drop_commute. f_equal. f_equal. lia.
  - assert (Hlt : (k < i)%nat) by lia.
    destruct (lookup_lt_is_Some_2 object k) as [[stored w] Hk'].
    { pose proof (lookup_lt_Some _ _ _ Hi). lia. }
    rewrite Hk'. unfold strcmp_eq.
    assert (Hs : nul_free stored).
    { eapply (Forall_lookup_1 _ _ _ _ Ho Hk'). }
    rewrite Hs, Hn.
    destruct (String.eqb_spec stored name) as [-> | _].
    + exfalso. exact (Hfirst k w Hlt Hk').
    + apply IH; lia.
Qed.

Lemma json_object_remove_swap {V} (object : list (string * V)) (name : string)
    (i : nat) (v : V) :
  names_nul_free object -> nul_free name -> NoDup object.*1 ->
  object !! i = Some (name, v) ->
  json_object_remove object name = (JSONSuccess, swap_remove object i).
Proof.
  intros Ho Hn Hnd Hi. unfold json_object_remove, json_object_remove_internal.
  destruct (json_object_get_value_in object name Ho Hn) as [old Hold].
  { apply list_elem_of_lookup. exists i. now rewrite list_lookup_fmap, Hi. }
  rewrite Hold.
  apply (remove_scan_first object name i v); auto; try lia.
  - intros j w Hj Hjw.
    assert (j = i); [|lia].
    apply (NoDup_lookup _ _ _ name Hnd); now rewrite list_lookup_fmap, ?Hjw, ?Hi.
  - unfold json_object_get_count. pose proof (lookup_lt_Some _ _ _ Hi). lia.
Qed.

Lemma swap_remove_lookup {V} (object : list V) (i : nat) :
  (i < List.length object)%nat ->
  List.length (swap_remove object i) = (List.length object - 1)%nat
  /\ (forall j, (j < List.length object - 1)%nat -> j <> i ->
        swap_remove object i !! j = object !! j)
  /\ ((i < List.length object - 1)%nat ->
        swap_remove object i !! i = object !! (List.length object - 1)%nat).
Proof.
  intros Hi. unfold swap_remove.
  destruct (object !! (List.length object - 1)%nat) as [last|] eqn:Hlast;
    [|apply lookup_ge_None in Hlast; lia].
  destruct (Nat.eqb_spec i (List.length object - 1)) as [E | E].
  - split; [rewrite length_take; lia|]. split; [|lia].
    intros j Hj Hne. rewrite lookup_take_lt by lia. reflexivity.
  - split; [|split].
    + rewrite length_app, length_take. simpl. rewrite length_drop, length_take. lia.
    + intros j Hj Hne. destruct (Nat.lt_ge_cases j i) as [Hlt | Hge].
      * rewrite lookup_app_l by (rewrite length_take; lia).
        now rewrite lookup_take_lt by lia.
      * rewrite lookup_app_r by (rewrite length_take; lia).
        rewrite length_take.
        replace (j - i `min` List.length object)%nat with (S (j - S i)) by lia.
        simpl. rewrite lookup_drop, lookup_take_lt by lia. f_equal. lia.
    + intros _. rewrite lookup_app_r by (rewrite length_take; lia).
      rewrite length_take. replace (i - i `min` List.length object)%nat with 0%nat by lia.
      reflexivity.
Qed.

(** C6. [json_array_remove] at a valid index leaves the items before the
    index followed by the items after it, in their order.
    [json_object_remove] of a present name leaves one pair less, with the
    last pair in the place of the removed one and the other pairs where they
    were; the order of the pairs is not kept in general. *)
Theorem removal_semantics :
  (forall (V : Type) (array : list V) (ix : nat),
     (ix < List.length array)%nat ->
     json_array_remove array ix = (JSONSuccess, take ix array ++ drop (S ix) array))
  /\ (forall (V : Type) (object : list (string * V)) (name : string) (i : nat) (v : V),
        names_nul_free object -> nul_free name -> NoDup object.*1 ->
        object !! i = Some (name, v) ->
        exists object',
          json_object_remove object name = (JSONSuccess, object')
          /\ List.length object' = (List.length object - 1)%nat
          /\ (forall j, (j < List.length object - 1)%nat -> j <> i ->
                object' !! j = object !! j)
          /\ ((i < List.length object - 1)%nat ->
                object' !! i = object !! (List.length object - 1)%nat))
  /\ json_array_remove [10; 20; 30] 1 = (JSONSuccess, [10; 30])
  /\ json_object_remove [("a"%string, 1); ("b"%string, 2); ("c"%string, 3)] "b"
     = (JSONSuccess, [("a"%string, 1); ("c"%string, 3)])
  /\ json_object_remove [("a"%string, 1); ("b"%string, 2); ("c"%string, 3)] "a"
     = (JSONSuccess, [("c"%string, 3); ("b"%string, 2)]).
Proof.
  split; [|split; [|split; [|split]]]; try reflexivity.
  - intros V array ix. apply json_array_remove_shift.
  - intros V object name i v Ho Hn Hnd Hi. exists (swap_remove object i).
    split; [now apply (json_object_remove_swap object name i v)|].
    apply swap_remove_lookup. now apply (lookup_lt_Some _ _ _ Hi).
Qed.

Lemma removal_semantics_witness :
  json_array_remove [json_null; json_boolean true; json_array []; json_string "x"] 1
    = (JSONSuccess, [json_null; json_array []; json_string "x"])
  /\ exists object',
       json_object_remove [("a"%string, 1); ("b"%string, 2); ("c"%string, 3);
                           ("d"%string, 4)] "b" = (JSONSuccess, object')
       /\ object' !! 1%nat = Some ("d"%string, 4)
       /\ object' !! 2%nat = Some ("c"%string, 3).
Proof.
  pose proof removal_semantics as (Harr & Hobj & _).
  split.
  - apply (Harr _ [json_null; json_boolean true; json_array []; json_string "x"] 1%nat).
    simpl. lia.
  - destruct (Hobj Z [("a"%string, 1); ("b"%string, 2); ("c"%string, 3); ("d"%string, 4)]
                "b"%string 1%nat 2) as (object' & Hr & _ & Hother & Hlast).
    + repeat constructor.
    + reflexivity.
    + apply (bool_decide_unpack _). vm_compute. exact I.
    + reflexivity.
    + exists object'. split; [exact Hr|]. split.
      * rewrite Hlast by (simpl; lia). reflexivity.
      * rewrite Hother by (simpl; lia). reflexivity.
Defined.

(** ** Structural equality *)

Lemma json_value_equals_array (a b : JSON_Array) :
  json_value_equals (json_array a) (Some (json_array b)) = true <->
  List.length a = List.length b
  /\ forall i x, a !! i = Some x -> json_value_equals x (b !! i) = true.
Proof.
  cbn [json_value_equals]. unfold json_array_get_count, json_array_get_value.
  destruct (Nat.eqb_spec (List.length a) (List.length b)) as [E | E]; cbn [negb].
  - rewrite all_indices_true. split.
    + intros H. split; [exact E|]. intros i x Hi.
      assert (Hr : (0 <= i < 0 + List.length a)%nat)
        by (apply lookup_lt_Some in Hi; lia).
      specialize (H i Hr).
      change (List.map json_value_equals a) with (json_value_equals <$> a) in H.
      now rewrite list_lookup_fmap, Hi in H.
    + intros [_ H] i Hi.
      change (List.map json_value_equals a) with (json_value_equals <$> a).
      rewrite list_lookup_fmap.
      destruct (a !! i) as [x|] eqn:Ex; [now apply H|].
      apply lookup_ge_None in Ex. lia.
  - split; [discriminate | intros [H _]; contradiction].
Qed.

(** Two objects are equal when they have as many pairs and, for the name of
    each pair of the first, the values the two objects give that name are
    equal. *)
Lemma json_value_equals_object (a b : JSON_Object) :
  json_value_equals (json_object a) (Some (json_object b)) = true <->
  List.length a = List.length b
  /\ forall i key, json_object_get_name a i = Some key ->
       exists x, json_object_get_value a key = Some x
                 /\ json_value_equals x (json_object_get_value b key) = true.
Proof.
  cbn [json_value_equals]. unfold json_object_get_count.
  destruct (Nat.eqb_spec (List.length a) (List.length b)) as [E | E]; cbn [negb].
  - rewrite all_indices_true. split.
    + intros H. split; [exact E|]. intros i key Hi.
      destruct (json_object_get_value_name a i key Hi) as [x Hx].
      exists x. split; [exact Hx|].
      assert (Hr : (0 <= i < 0 + List.length a)%nat).
      { unfold json_object_get_name in Hi. destruct (a !! i) eqn:Ei; [|discriminate].
        apply lookup_lt_Some in Ei. lia. }
      specialize (H i Hr). now rewrite Hi, json_object_get_value_map, Hx in H.
    + intros [_ H] i Hi.
      destruct (json_object_get_name a i) as [key|] eqn:Ek; [|reflexivity].
      destruct (H i key Ek) as (x & Hx & Hxb).
      now rewrite json_object_get_value_map, Hx.
  - split; [discriminate | intros [H _]; contradiction].
Qed.

Lemma double_sub_diag (d : double) :
  IS_NUMBER_INVALID d = false -> double_sub d d = S754_zero false.
Proof.
  destruct d as [[|]|[|]| |s m e]; try discriminate; try reflexivity.
  intros _. unfold double_sub, SFsub. now rewrite Z.sub_diag.
Qed.

(** A value equals itself. *)
Lemma json_value_equals_refl (v : JSON_Value) :
  well_formed v -> json_value_equals v (Some v) = true.
Proof.
  induction v as [ | s | d | o IH | a IH | b ] using JSON_Value_ind'; intros Hwf.
  - reflexivity.
  - cbn. unfold strcmp_eq. apply String.eqb_refl.
  - inversion Hwf as [ | | d' Hd | | | ]; subst. cbn. now rewrite double_sub_diag.
  - inversion Hwf as [ | | | | | o' Hn Hnd Hch ]; subst.
    apply json_value_equals_object. split; [reflexivity|].
    intros i key Hi.
    destruct (json_object_get_value_name o i key Hi) as [x Hx]. exists x.
    split; [exact Hx|]. rewrite Hx.
    destruct (json_object_getn_value_elem o key _ x Hx) as [k Hk].
    apply (proj1 (Forall_forall _ _) IH _ Hk).
    apply (proj1 (Forall_forall _ _) Hch _ Hk).
  - inversion Hwf as [ | | | | a' Hch | ]; subst.
    apply json_value_equals_array. split; [reflexivity|].
    intros i x Hi. rewrite Hi.
    apply (proj1 (Forall_lookup _ _) IH i x Hi).
    apply (proj1 (Forall_lookup _ _) Hch i x Hi).
  - cbn. now destruct b.
Qed.




(** ** The size pass and the write pass *)

Lemma c_str_append_nul (a : string) (rest : list ascii) :
  c_str (string_of_list_ascii (list_ascii_of_string a ++ NUL :: rest)) = c_str a.
Proof.
  induction a as [|c a IH]; simpl; [reflexivity|].
  destruct (Ascii.eqb c NUL); [reflexivity | now rewrite IH].
Qed.

Section Passes.
Variable sprintf_g17 : double -> string.
Variable parson_escape_slashes : bool.
Variable parson_malloc : nat -> list ascii.

Let text (v : JSON_Value) (is_pretty : bool) : string :=
render sprintf_g17 parson_escape_slashes v 0 is_pretty.


Lemma json_serialization_size_pretty_text (v : JSON_Value) :
json_serialization_size_pretty sprintf_g17 parson_escape_slashes (Some v)
= S (String.length (text v true)).
Proof.
unfold json_serialization_size_pretty, serialize_value_to_buffer_r.
destruct (json_serialize_to_buffer_r_writes sprintf_g17 parson_escape_slashes v 0 true [])
  as [-> _].
cbn [fst].
replace (Z.of_nat _ <? 0) with false by (symmetry; apply Z.ltb_ge; lia).
unfold text. lia.
Qed.


Lemma json_serialize_to_buffer_pretty_text (v : JSON_Value) (m : list ascii) (size : nat) :
json_serialize_to_buffer_pretty sprintf_g17 parson_escape_slashes (Some v) m size
= if (size <=? String.length (text v true))%nat then (JSONFailure, m)
  else (JSONSuccess, store m 0 (text v true)).
Proof.
unfold json_serialize_to_buffer_pretty. rewrite json_serialization_size_pretty_text.
cbn [Nat.eqb orb]. rewrite Nat.ltb_antisym.
replace (S (String.length (text v true)) <=? size)%nat
  with (negb (size <=? String.length (text v true))%nat).
2:{ destruct (Nat.leb_spec size (String.length (text v true)));
    destruct (Nat.leb_spec (S (String.length (text v true))) size); simpl; lia || reflexivity. }
rewrite negb_involutive.
destruct (size <=? String.length (text v true))%nat; [reflexivity|].
unfold serialize_value_to_buffer_r.
destruct (json_serialize_to_buffer_r_writes sprintf_g17 parson_escape_slashes v 0 true m)
  as [_ Hs].
rewrite Hs by lia.
replace (Z.of_nat _ <? 0) with false by (symmetry; apply Z.ltb_ge; lia).
reflexivity.
Qed.


Lemma json_serialize_to_string_pretty_text (v : JSON_Value) :
json_serialize_to_string_pretty sprintf_g17 parson_escape_slashes parson_malloc (Some v)
= Some (c_str (text v true)).
Proof.
unfold json_serialize_to_string_pretty. rewrite json_serialization_size_pretty_text.
cbn [Nat.eqb]. rewrite json_serialize_to_buffer_pretty_text.
replace (S _ <=? _)%nat with false by (symmetry; apply Nat.leb_gt; lia).
unfold store, write_at. rewrite take_0. cbn [app].
rewrite <- app_assoc. cbn [app]. now rewrite c_str_append_nul.
Qed.

End Passes.



(** ** Round trip: strings *)

Lemma peek_append (a b : string) : a <> EmptyString -> peek (a ++ b) = peek a.
Proof. destruct a; [congruence | reflexivity]. Qed.

Lemma hex_digit_value (n : Z) :
  0 <= n < 16 ->
  hex_char_to_int (hex_digit n) = n
  /\ hex_digit n <> DQUOTE /\ hex_digit n <> "\"%char /\ hex_digit n <> NUL.
Proof.
  intros Hn. rewrite <- (Z2Nat.id n) by lia.
  assert (Hk : (Z.to_nat n < 16)%nat) by lia. revert Hk.
  generalize (Z.to_nat n) as k. intros k Hk.
  do 16 (destruct k as [|k]; [repeat split; discriminate|]). lia.
Qed.

Lemma char_of_uchar (c : ascii) : char_of (uchar c) = c.
Proof.
  unfold char_of, uchar. pose proof (N_ascii_bounded c) as Hb.
  rewrite Z.mod_small by lia. rewrite N2Z.id. apply ascii_N_embedding.
Qed.

(** The escape of a control byte is read back as that byte. *)
Lemma parse_utf16_control (c : ascii) (tail : string) :
  uchar c < 0x20 ->
  parse_utf16 (String "u" (String "0" (String "0"
     (String (hex_digit (uchar c / 16)) (String (hex_digit (uchar c mod 16)) tail)))))
  = Some ([c], String (hex_digit (uchar c mod 16)) tail).
Proof.
  intros Hc. pose proof (uchar_range c) as Hr.
  assert (H1 : 0 <= uchar c / 16 < 16)
    by (split; [apply Z.div_pos; lia | apply Z.div_lt_upper_bound; lia]).
  assert (H2 : 0 <= uchar c mod 16 < 16) by (apply Z.mod_pos_bound; lia).
  destruct (hex_digit_value _ H1) as (V1 & _ & _ & N1).
  destruct (hex_digit_value _ H2) as (V2 & _ & _ & N2).
  unfold parse_utf16, parse_utf16_hex. cbn [SKIP_CHAR].
  apply ascii_eqb_false in N1, N2. rewrite N1, N2. cbn [Ascii.eqb Bool.eqb NUL andb orb].
  rewrite V1, V2. cbn [hex_char_to_int].
  change (hex_char_to_int "0") with 0. cbn [Z.eqb orb Z.shiftl Z.lor].
  destruct (uchar c / 16 =? -1) eqn:E1; [apply Z.eqb_eq in E1; lia|].
  destruct (uchar c mod 16 =? -1) eqn:E2; [apply Z.eqb_eq in E2; lia|].
  cbn [orb].
  change (Z.lor (Z.shiftl 0 12) (Z.shiftl 0 8)) with 0. rewrite Z.lor_0_l.
  assert (Hcp : Z.lor (Z.shiftl (uchar c / 16) 4) (uchar c mod 16) = uchar c).
  { rewrite lor_shiftl_add by lia. change (2 ^ 4) with 16.
    rewrite Z.mul_comm. symmetry. apply Z.div_mod. lia. }
  rewrite Hcp.
  replace (uchar c <? 128) with true by (symmetry; apply Z.ltb_lt; lia).
  now rewrite char_of_uchar.
Qed.

Lemma process_string_loop_unfold (fuel input_len len : nat) (p : string) :
  process_string_loop (S fuel) input_len p len =
  if Ascii.eqb (peek p) NUL || negb (input_len - String.length p <? len)%nat
  then Ok EmptyString
  else
    let continue q := process_string_loop fuel input_len (SKIP_CHAR q) len in
    if Ascii.eqb (peek p) "\" then
      let q := SKIP_CHAR p in
      let c := peek q in
      if Ascii.eqb c DQUOTE then emit [DQUOTE] (continue q)
      else if Ascii.eqb c "\" then emit ["\"%char] (continue q)
      else if Ascii.eqb c "/" then emit ["/"%char] (continue q)
      else if Ascii.eqb c "b" then emit ["008"%char] (continue q)
      else if Ascii.eqb c "f" then emit ["012"%char] (continue q)
      else if Ascii.eqb c "n" then emit ["010"%char] (continue q)
      else if Ascii.eqb c "r" then emit ["013"%char] (continue q)
      else if Ascii.eqb c "t" then emit ["009"%char] (continue q)
      else if Ascii.eqb c "u" then
        match parse_utf16 q with
        | None => Fail
        | Some (bytes, q') => emit bytes (continue q')
        end
      else Fail
    else if uchar (peek p) <? 0x20 then Fail
    else emit [peek p] (continue p).
Proof. reflexivity. Qed.

Section StringRoundTrip.
Variable escape_slashes : bool.

Lemma escape_char_not_empty (c : ascii) : escape_char escape_slashes c <> EmptyString.
Proof.
unfold escape_char.
repeat match goal with
       | |- context [if ?x then _ else _] => destruct x
       end; discriminate.
Qed.

(** [skip_quotes] passes over the escape of a byte. *)
Lemma skip_quotes_loop_escape_char (c : ascii) (tail : string) :
c <> NUL ->
skip_quotes_loop (escape_char escape_slashes c ++ tail) = skip_quotes_loop tail.
Proof.
intros Hc. unfold escape_char.
destruct (Ascii.eqb c DQUOTE) eqn:Eq; [reflexivity|].
destruct (Ascii.eqb c "\") eqn:Eb; [reflexivity|].
repeat match goal with
       | |- context [if Ascii.eqb c ?x then _ else _] =>
           destruct (Ascii.eqb c x); [reflexivity|]
       end.
destruct (uchar c <? 32) eqn:E32.
- pose proof (uchar_range c) as Hr. apply Z.ltb_lt in E32.
  assert (H1 : 0 <= uchar c / 16 < 16)
    by (split; [apply Z.div_pos; lia | apply Z.div_lt_upper_bound; lia]).
  assert (H2 : 0 <= uchar c mod 16 < 16) by (apply Z.mod_pos_bound; lia).
  destruct (hex_digit_value _ H1) as (_ & Q1 & B1 & N1).
  destruct (hex_digit_value _ H2) as (_ & Q2 & B2 & N2).
  apply ascii_eqb_false in Q1, B1, N1, Q2, B2, N2.
  cbn [String.append skip_quotes_loop Ascii.eqb Bool.eqb DQUOTE NUL].
  cbn [skip_quotes_loop]. now rewrite Q1, B1, N1, Q2, B2, N2.
- apply ascii_eqb_false in Hc.
  destruct (Ascii.eqb c "/") eqn:Es.
  + destruct escape_slashes; reflexivity.
  + cbn [String.append skip_quotes_loop]. now rewrite Eq, Hc, Eb.
Qed.

Lemma skip_quotes_loop_escape_string (s tail : string) :
nul_free s ->
skip_quotes_loop (escape_string escape_slashes s ++ tail) = skip_quotes_loop tail.
Proof.
induction s as [|c s IH]; intros Hn; [reflexivity|].
apply nul_free_cons in Hn as [Hc Hs]. cbn [escape_string].
rewrite append_assoc, skip_quotes_loop_escape_char by exact Hc. now apply IH.
Qed.

(** [process_string] turns the escape of a byte back into the byte. *)
Lemma process_string_loop_escape_char (c : ascii) (tail : string)
  (fuel input_len len : nat) :
c <> NUL ->
(input_len - String.length (escape_char escape_slashes c ++ tail) < len)%nat ->
process_string_loop (S fuel) input_len (escape_char escape_slashes c ++ tail) len
= emit [c] (process_string_loop fuel input_len tail len).
Proof.
intros Hc Hpos. rewrite process_string_loop_unfold.
apply Nat.ltb_lt in Hpos. rewrite Hpos. cbn [negb]. rewrite orb_false_r.
clear Hpos. unfold escape_char.
destruct (Ascii.eqb c DQUOTE) eqn:Eq;
  [apply ascii_eqb_true in Eq; subst c; reflexivity|].
destruct (Ascii.eqb c "\") eqn:Eb;
  [apply ascii_eqb_true in Eb; subst c; reflexivity|].
repeat match goal with
       | |- context [if Ascii.eqb c ?x then _ else _] =>
           let E := fresh "E" in
           destruct (Ascii.eqb c x) eqn:E;
             [apply ascii_eqb_true in E; subst c; reflexivity|]
       end.
destruct (uchar c <? 32) eqn:E32.
- apply Z.ltb_lt in E32.
  cbn [String.append peek SKIP_CHAR Ascii.eqb Bool.eqb NUL DQUOTE].
  cbv zeta. cbn [peek SKIP_CHAR Ascii.eqb Bool.eqb NUL DQUOTE].
  now rewrite parse_utf16_control.
- apply ascii_eqb_false in Hc.
  destruct (Ascii.eqb c "/") eqn:Es.
  + apply ascii_eqb_true in Es; subst c. destruct escape_slashes; reflexivity.
  + cbn [String.append peek SKIP_CHAR]. cbv zeta. now rewrite Hc, Eb, E32.
Qed.

Lemma process_string_loop_escape_string (s tail : string) (fuel input_len len : nat) :
nul_free s ->
(String.length s <= fuel)%nat ->
(String.length (escape_string escape_slashes s ++ tail) <= input_len)%nat ->
(input_len - String.length tail = len)%nat ->
process_string_loop fuel input_len (escape_string escape_slashes s ++ tail) len = Ok s.
Proof.
revert fuel. induction s as [|c s IH]; intros fuel Hn Hf Hin Hlen.
- cbn [escape_string String.append].
  destruct fuel; cbn [process_string_loop];
    replace (input_len - String.length tail <? len)%nat with false
      by (symmetry; apply Nat.ltb_ge; lia);
    now rewrite orb_true_r.
- apply nul_free_cons in Hn as [Hc Hs].
  destruct fuel as [|fuel]; [simpl in Hf; lia|].
  cbn [escape_string] in *. rewrite append_assoc in *.
  pose proof (escape_char_not_empty c) as Hne.
  assert (Hpos : (0 < String.length (escape_char escape_slashes c))%nat)
    by (destruct (escape_char escape_slashes c); [congruence | simpl; lia]).
  rewrite length_append in Hin.
  rewrite process_string_loop_escape_char;
    [|exact Hc|rewrite !length_append in *; lia].
  rewrite IH; [reflexivity | exact Hs | simpl in Hf; lia | lia | exact Hlen].
Qed.

(** A quoted text is read back as the string it was made from. *)
Lemma get_quoted_string_quoted_text (s rest : string) :
nul_free s ->
get_quoted_string (quoted_text escape_slashes s ++ rest) = Ok (s, rest).
Proof.
intros Hn. unfold get_quoted_string, skip_quotes, quoted_text.
rewrite Hn. cbn [String.append peek SKIP_CHAR Ascii.eqb Bool.eqb DQUOTE negb].
rewrite append_assoc, skip_quotes_loop_escape_string by exact Hn.
cbn [String.append skip_quotes_loop Ascii.eqb Bool.eqb DQUOTE].
unfold process_string.
rewrite process_string_loop_escape_string; [reflexivity | exact Hn | | lia | ].
- cbn [String.length]. rewrite !length_append. cbn [String.length].
  assert (String.length s <= String.length (escape_string escape_slashes s))%nat; [|lia].
  clear. induction s as [|c s IH]; [simpl; lia|].
  cbn [escape_string String.length]. rewrite length_append.
  pose proof (escape_char_not_empty c).
  destruct (escape_char escape_slashes c); [congruence | simpl; lia].
- cbn [String.length]. rewrite !length_append. cbn [String.length]. lia.
Qed.

End StringRoundTrip.

(** ** Compact texts *)

Lemma flatten_elements (count : nat) (level : Z) (bodies : list string) (k : nat) :
  count = (k + List.length bodies)%nat ->
  flatten (imap (fun i => element_text count false level (k + i)) bodies)
  = join_commas bodies.
Proof.
  revert k. induction bodies as [|b bodies IH]; intros k Hc; [reflexivity|].
  cbn [imap flatten foldr].
  rewrite (imap_ext _ (fun i => element_text count false level (S k + i)))
    by (intros i x _; unfold compose; now replace (k + S i)%nat with (S k + i)%nat by lia).
  fold (flatten (imap (fun i => element_text count false level (S k + i)) bodies)).
  rewrite IH by (cbn in Hc; lia).
  unfold element_text. cbn [String.append].
  destruct bodies as [|b' bodies].
  - replace (k + 0 <? count - 1)%nat with false
      by (symmetry; apply Nat.ltb_ge; cbn in Hc; lia).
    cbn [join_commas]. now rewrite !append_nil_r.
  - replace (k + 0 <? count - 1)%nat with true
      by (symmetry; apply Nat.ltb_lt; cbn in Hc; lia).
    cbn [join_commas]. now rewrite !append_assoc.
Qed.

Lemma container_text_compact (opening closing : string) (level : Z)
    (bodies : list string) :
  container_text opening closing false level bodies
  = (opening ++ join_commas bodies ++ closing)%string.
Proof.
  unfold container_text. rewrite andb_false_r. cbn [String.append].
  pose proof (flatten_elements (List.length bodies) level bodies 0 eq_refl) as H.
  change (flatten (imap (element_text (List.length bodies) false level) bodies)
          = join_commas bodies) in H.
  now rewrite H.
Qed.

Section CompactText.
Variable sprintf_g17 : double -> string.
Variable escape_slashes : bool.

Lemma compact_array (a : JSON_Array) (level : Z) :
compact sprintf_g17 escape_slashes (json_array a) level
= ("[" ++ join_commas (List.map (fun x => compact sprintf_g17 escape_slashes x (level + 1)) a) ++ "]")%string.
Proof. unfold compact. cbn [render]. apply container_text_compact. Qed.

Lemma compact_object (o : JSON_Object) (level : Z) :
well_formed (json_object o) ->
compact sprintf_g17 escape_slashes (json_object o) level
= ("{" ++ join_commas
           (List.map (fun p => quoted_text escape_slashes (fst p) ++ ":"
                               ++ compact sprintf_g17 escape_slashes (snd p) (level + 1)) o)
       ++ "}")%string.
Proof.
intros Hwf. inversion Hwf as [ | | | | | o' Hn Hnd Hch ]; subst.
unfold compact. cbn [render]. rewrite container_text_compact.
f_equal. f_equal. f_equal. change (o.*1) with (List.map fst o). rewrite List.map_map.
apply List.map_ext_in. intros [k x] Hin. apply list_elem_of_In in Hin.
cbn [fst snd]. unfold member_text.
rewrite (json_object_get_value_map
           (fun x => render sprintf_g17 escape_slashes x (level + 1) false)),
  (json_object_get_value_elem o k x Hn Hnd Hin).
reflexivity.
Qed.

End CompactText.

(** ** The first character of a value *)

Lemma is_value_start_class (c : ascii) :
  is_value_start c = true ->
  isspace c = false /\ Ascii.eqb c NUL = false /\ Ascii.eqb c "]" = false
  /\ Ascii.eqb c "239" = false.
Proof.
  destruct c as [[] [] [] [] [] [] [] []]; vm_compute;
    (discriminate || (intros _; auto)).
Qed.

Lemma is_number_start_class (c : ascii) :
  is_number_start c = true ->
  Ascii.eqb c "{" = false /\ Ascii.eqb c "[" = false /\ Ascii.eqb c DQUOTE = false
  /\ Ascii.eqb c "f" = false /\ Ascii.eqb c "t" = false /\ is_value_start c = true.
Proof.
  destruct c as [[] [] [] [] [] [] [] []]; vm_compute;
    (discriminate || (intros _; repeat split; reflexivity)).
Qed.

Lemma SKIP_WHITESPACES_id (s : string) :
  isspace (peek s) = false -> SKIP_WHITESPACES s = s.
Proof. destruct s as [|c s]; cbn; [reflexivity | now intros ->]. Qed.

Lemma SKIP_WHITESPACES_stops (rest : string) : stops rest -> SKIP_WHITESPACES rest = rest.
Proof.
  intros [-> | [H | [H | H]]]; [reflexivity | | | ];
    apply SKIP_WHITESPACES_id; now rewrite H.
Qed.

Lemma SKIP_WHITESPACES_value (s : string) :
  is_value_start (peek s) = true -> SKIP_WHITESPACES s = s.
Proof. intros H. apply SKIP_WHITESPACES_id. now apply is_value_start_class. Qed.

(** ** Depth and size *)

Lemma foldr_max_le {A} (f : A -> Z) (l : list A) (bound : Z) :
  foldr (fun x d => Z.max (f x) d) 0 l <= bound
  <-> 0 <= bound /\ Forall (fun x => f x <= bound) l.
Proof.
  induction l as [|x l IH]; cbn [foldr].
  - split; [intros H; split; [exact H | constructor] | now intros [H _]].
  - rewrite Forall_cons. rewrite Z.max_lub_iff, IH. tauto.
Qed.

Lemma json_depth_nonneg (v : JSON_Value) : 0 <= json_depth v.
Proof.
  destruct v as [ | s | d | o | a | b ]; cbn [json_depth]; try lia.
  - destruct o as [|p o]; [lia|].
    pose proof (proj1 (foldr_max_le (fun p => json_depth (snd p)) (p :: o) _)
                  (Z.le_refl _)) as [H _]. lia.
  - destruct a as [|x a]; [lia|].
    pose proof (proj1 (foldr_max_le json_depth (x :: a) _) (Z.le_refl _)) as [H _]. lia.
Qed.

Lemma forallb_Forall {A} (f : A -> bool) (l : list A) :
  forallb f l = true <-> Forall (fun x => f x = true) l.
Proof.
  induction l as [|x l IH]; cbn [forallb]; [split; [constructor | reflexivity]|].
  rewrite Forall_cons, andb_true_iff, IH. tauto.
Qed.

Lemma fits_array (nesting : Z) (a : JSON_Array) :
  a <> [] -> fits nesting (json_array a) = forallb (fits (nesting + 1)) a.
Proof.
  intros Hne. apply eq_true_iff_eq. rewrite forallb_Forall.
  unfold fits. rewrite Z.leb_le. cbn [json_depth].
  destruct a as [|x a]; [congruence|].
  set (l := x :: a).
  transitivity (foldr (fun x d => Z.max (json_depth x) d) 0 l <= MAX_NESTING - nesting - 1);
    [lia|].
  rewrite foldr_max_le. split.
  - intros [_ H]. eapply Forall_impl; [exact H|]. intros y Hy. cbn beta in Hy |- *. apply Z.leb_le. lia.
  - intros H. assert (H' : Forall (fun y => json_depth y <= MAX_NESTING - nesting - 1) l).
    { eapply Forall_impl; [exact H|]. intros y Hy. cbn beta in Hy |- *. apply Z.leb_le in Hy. lia. }
    split; [|exact H']. apply Forall_inv in H'. pose proof (json_depth_nonneg x). lia.
Qed.

Lemma fits_object (nesting : Z) (o : JSON_Object) :
  o <> [] ->
  fits nesting (json_object o) = forallb (fun p => fits (nesting + 1) (snd p)) o.
Proof.
  intros Hne. apply eq_true_iff_eq. rewrite forallb_Forall.
  unfold fits. rewrite Z.leb_le. cbn [json_depth].
  destruct o as [|x o]; [congruence|].
  set (l := x :: o).
  transitivity (foldr (fun p d => Z.max (json_depth (snd p)) d) 0 l
                <= MAX_NESTING - nesting - 1); [lia|].
  rewrite (foldr_max_le (fun p => json_depth (snd p))). split.
  - intros [_ H]. eapply Forall_impl; [exact H|]. intros y Hy. cbn beta in Hy |- *. apply Z.leb_le. lia.
  - intros H.
    assert (H' : Forall (fun y => json_depth (snd y) <= MAX_NESTING - nesting - 1) l).
    { eapply Forall_impl; [exact H|]. intros y Hy. cbn beta in Hy |- *. apply Z.leb_le in Hy. lia. }
    split; [|exact H']. apply Forall_inv in H'.
    pose proof (json_depth_nonneg (snd x)). lia.
Qed.

Lemma value_size_pos (v : JSON_Value) : (1 <= value_size v)%nat.
Proof. destruct v; cbn [value_size]; lia. Qed.

Lemma size_sum_elem {A} (f : A -> nat) (l : list A) :
  Forall (fun x => f x <= foldr (fun x n => f x + n) 0 l)%nat l.
Proof.
  induction l as [|x l IH]; constructor; cbn [foldr]; [lia|].
  eapply Forall_impl; [exact IH|]. cbn beta. intros y Hy. lia.
Qed.

Lemma size_sum_length {A} (f : A -> nat) (l : list A) :
  (forall x, 1 <= f x)%nat -> (List.length l <= foldr (fun x n => f x + n) 0 l)%nat.
Proof.
  intros Hf. induction l as [|x l IH]; cbn [foldr List.length]; [lia|].
  specialize (Hf x). lia.
Qed.

(** ** The container loops on compact texts *)

Lemma join_commas_cons (b : string) (bodies : list string) (tail : string) :
  (join_commas (b :: bodies) ++ tail)%string
  = (b ++ (if bodies is [] then tail else "," ++ join_commas bodies ++ tail))%string.
Proof.
  destruct bodies as [|b' bodies]; cbn [join_commas]; [reflexivity|].
  now rewrite !append_assoc.
Qed.

Lemma parse_array_loop_unfold (pv : string -> result (JSON_Value * string))
    (fuel : nat) (s : string) (output_array : JSON_Array) :
  parse_array_loop pv (S fuel) s output_array
  = if Ascii.eqb (peek s) NUL then Ok (output_array, s)
    else
      bind (pv s) (fun '(new_array_value, s) =>
        let output_array := json_array_add output_array new_array_value in
        let s := SKIP_WHITESPACES s in
        if negb (Ascii.eqb (peek s) ",") then Ok (output_array, s)
        else parse_array_loop pv fuel (SKIP_WHITESPACES (SKIP_CHAR s)) output_array).
Proof. reflexivity. Qed.

Lemma parse_object_loop_unfold (pv : string -> result (JSON_Value * string))
    (fuel : nat) (s : string) (output_object : JSON_Object) :
  parse_object_loop pv (S fuel) s output_object
  = if Ascii.eqb (peek s) NUL then Ok (output_object, s)
    else
      bind (get_quoted_string s) (fun '(new_key, s) =>
        let s := SKIP_WHITESPACES s in
        if negb (Ascii.eqb (peek s) ":") then Fail
        else
          bind (pv (SKIP_CHAR s)) (fun '(new_value, s) =>
            match json_object_add output_object new_key new_value with
            | (JSONFailure, _) => Fail
            | (JSONSuccess, output_object) =>
                let s := SKIP_WHITESPACES s in
                if negb (Ascii.eqb (peek s) ",") then Ok (output_object, s)
                else parse_object_loop pv fuel (SKIP_WHITESPACES (SKIP_CHAR s))
                       output_object
            end)).
Proof. reflexivity. Qed.

(** The loop of [parse_array_value] on the texts of the items of an array,
    up to the closing bracket: it reads every item when each is read, and
    fails when one is not. *)
Lemma parse_array_loop_join (pv : string -> result (JSON_Value * string))
    (txt : JSON_Value -> string) (ok : JSON_Value -> bool) (xs : list JSON_Value)
    (tail : string) :
  peek tail = "]"%char ->
  Forall (fun x => (forall rest, is_value_start (peek (txt x ++ rest)) = true)
                   /\ reads pv (txt x) (ok x) x) xs ->
  forall (output_array : JSON_Array) (fuel : nat),
    xs <> [] -> (List.length xs <= fuel)%nat ->
    if forallb ok xs
    then exists vs',
        Forall2 similar xs vs'
        /\ parse_array_loop pv fuel (join_commas (List.map txt xs) ++ tail) output_array
           = Ok (output_array ++ vs', tail)
    else parse_array_loop pv fuel (join_commas (List.map txt xs) ++ tail) output_array
         = Fail.
Proof.
  intros Htail Hall. induction Hall as [|x xs [Hstart Hx] Hxs IH];
    intros acc fuel Hne Hf; [congruence|].
  destruct fuel as [|fuel]; [cbn in Hf; lia|].
  cbn [List.map]. rewrite join_commas_cons, parse_array_loop_unfold.
  set (R := if List.map txt xs is [] then tail
            else ("," ++ join_commas (List.map txt xs) ++ tail)%string).
  assert (HR : stops R).
  { unfold R, stops. destruct (List.map txt xs); [rewrite Htail | cbn]; auto. }
  destruct (is_value_start_class _ (Hstart R)) as (_ & -> & _).
  specialize (Hx R HR). cbn [forallb]. destruct (ok x); cbn [andb].
  - destruct Hx as (v' & -> & Hv). cbn [bind]. cbv zeta.
    rewrite SKIP_WHITESPACES_stops by exact HR. unfold json_array_add.
    destruct xs as [|y xs].
    + cbn [forallb List.map] in *. unfold R. rewrite Htail. cbn [Ascii.eqb Bool.eqb negb].
      exists [v']. split; [repeat constructor; exact Hv | reflexivity].
    + unfold R. cbn [List.map]. cbn [String.append peek Ascii.eqb Bool.eqb negb SKIP_CHAR].
      rewrite SKIP_WHITESPACES_value.
      2:{ rewrite join_commas_cons. apply Forall_inv in Hxs. apply Hxs. }
      specialize (IH (acc ++ [v']) fuel ltac:(congruence) ltac:(cbn in Hf |- *; lia)).
      cbn [List.map] in IH.
      destruct (forallb ok (y :: xs)).
      * destruct IH as (vs' & Hvs & ->). exists (v' :: vs').
        split; [now constructor | now rewrite <- app_assoc].
      * exact IH.
  - now rewrite Hx.
Qed.

(** The same for the loop of [parse_object_value] on the texts of the pairs
    of an object with distinct NUL-free names. *)
Lemma parse_object_loop_join (escape_slashes : bool)
    (pv : string -> result (JSON_Value * string))
    (txt : JSON_Value -> string) (ok : JSON_Value -> bool) (o : JSON_Object)
    (tail : string) :
  peek tail = "}"%char ->
  Forall (fun p => (forall rest, is_value_start (peek (txt (snd p) ++ rest)) = true)
                   /\ reads pv (txt (snd p)) (ok (snd p)) (snd p)) o ->
  forall (output_object : JSON_Object) (fuel : nat),
    o <> [] -> (List.length o <= fuel)%nat ->
    names_nul_free output_object -> names_nul_free o ->
    NoDup (output_object.*1 ++ o.*1) ->
    let text := join_commas
                  (List.map (fun p => (quoted_text escape_slashes (fst p) ++ ":"
                                       ++ txt (snd p))%string) o) in
    if forallb (fun p => ok (snd p)) o
    then exists o',
        Forall2 (fun p p' => fst p = fst p' /\ similar (snd p) (snd p')) o o'
        /\ parse_object_loop pv fuel (text ++ tail) output_object
           = Ok (output_object ++ o', tail)
    else parse_object_loop pv fuel (text ++ tail) output_object = Fail.
Proof.
  intros Htail Hall. induction Hall as [|[k x] o [Hstart Hx] Ho IH];
    intros acc fuel Hne Hf Hacc Hnames Hnd; [congruence|].
  cbn [fst snd] in *. cbv zeta.
  destruct fuel as [|fuel]; [cbn in Hf; lia|].
  apply Forall_cons in Hnames as [Hk Hnames]. cbn [fst] in Hk.
  cbn [List.map fst snd]. rewrite join_commas_cons, parse_object_loop_unfold.
  set (members := List.map (fun p => (quoted_text escape_slashes (fst p) ++ ":"
                                      ++ txt (snd p))%string) o).
  set (R := if members is [] then tail else ("," ++ join_commas members ++ tail)%string).
  assert (HR : stops R).
  { unfold R, stops. destruct members; [rewrite Htail | cbn]; auto. }
  rewrite !append_assoc.
  assert (Hq : peek (quoted_text escape_slashes k ++ ":" ++ txt x ++ R) = DQUOTE)
    by reflexivity.
  rewrite Hq. change (Ascii.eqb DQUOTE NUL) with false. cbv iota.
  rewrite get_quoted_string_quoted_text by exact Hk. cbn [bind]. cbv zeta.
  cbn [String.append SKIP_WHITESPACES]. change (isspace ":") with false. cbv iota.
  cbn [peek SKIP_CHAR Ascii.eqb Bool.eqb negb].
  specialize (Hx R HR). cbn [forallb snd]. destruct (ok x); cbn [andb].
  - destruct Hx as (v' & -> & Hv). cbn [bind].
    assert (Hadd : json_object_add acc k v' = (JSONSuccess, acc ++ [(k, v')])).
    { unfold json_object_add. rewrite json_object_addn_absent.
      - unfold parson_strndup. rewrite strlen_nul_free by exact Hk.
        replace (String.substring 0 (String.length k) k) with k; [now rewrite Hk|].
        clear. induction k as [|c k IH]; cbn; [reflexivity | now rewrite <- IH].
      - apply json_object_get_value_not_in; [exact Hacc | exact Hk|].
        apply NoDup_app in Hnd as (_ & Hd & _). intros Hin. apply (Hd _ Hin).
        cbn. apply list_elem_of_here. }
    rewrite Hadd. cbv zeta. rewrite SKIP_WHITESPACES_stops by exact HR.
    destruct o as [|[k' y] o].
    + cbn [forallb List.map] in *. unfold R, members. cbn [List.map]. rewrite Htail.
      cbn [Ascii.eqb Bool.eqb negb].
      exists [(k, v')]. split; [repeat constructor; exact Hv | reflexivity].
    + unfold R, members. cbn [List.map fst snd].
      cbn [String.append peek Ascii.eqb Bool.eqb negb SKIP_CHAR].
      rewrite SKIP_WHITESPACES_id by (now rewrite join_commas_cons).
      assert (Hnd' : NoDup ((acc ++ [(k, v')]).*1 ++ ((k', y) :: o).*1)).
      { rewrite fmap_app, <- app_assoc. exact Hnd. }
      assert (Hacc' : names_nul_free (acc ++ [(k, v')])).
      { apply Forall_app. split; [exact Hacc | repeat constructor; exact Hk]. }
      specialize (IH (acc ++ [(k, v')]) fuel ltac:(congruence)
                    ltac:(cbn in Hf |- *; lia) Hacc' Hnames Hnd').
      cbv zeta in IH. cbn [List.map fst snd String.append] in IH.
      destruct (forallb (fun p => ok (snd p)) ((k', y) :: o)).
      * destruct IH as (o' & Ho' & ->). exists ((k, v') :: o').
        split; [constructor; [split; [reflexivity | exact Hv] | exact Ho']
               | now rewrite <- app_assoc].
      * exact IH.
  - now rewrite Hx.
Qed.

(** ** [parse_value] on compact texts *)

Section RoundTrip.
Variable strtod : string -> double * nat * bool.
Variable sprintf_g17 : double -> string.
Variable escape_slashes : bool.

Lemma parse_value_unfold (fuel : nat) (s : string) (nesting : Z) :
parse_value strtod (S fuel) s nesting
= if MAX_NESTING <? nesting then Fail
  else
    let s := SKIP_WHITESPACES s in
    let c := peek s in
    if Ascii.eqb c "{" then
      parse_object_value (fun s => parse_value strtod fuel s (nesting + 1)) fuel s
    else if Ascii.eqb c "[" then
      parse_array_value (fun s => parse_value strtod fuel s (nesting + 1)) fuel s
    else if Ascii.eqb c DQUOTE then parse_string_value s
    else if Ascii.eqb c "f" || Ascii.eqb c "t" then parse_boolean_value s
    else if is_number_start c then parse_number_value strtod s
    else if Ascii.eqb c "n" then parse_null_value s
    else Fail.
Proof. reflexivity. Qed.

(** The check on entry. *)
Lemma parse_value_too_deep (fuel : nat) (s : string) (nesting : Z) :
MAX_NESTING < nesting -> parse_value strtod (S fuel) s nesting = Fail.
Proof.
intros H. rewrite parse_value_unfold. apply Z.ltb_lt in H. now rewrite H.
Qed.

(** The dispatch on the first character. *)
Lemma parse_value_dispatch (fuel : nat) (s : string) (nesting : Z) :
nesting <= MAX_NESTING -> is_value_start (peek s) = true ->
parse_value strtod (S fuel) s nesting
= let c := peek s in
  if Ascii.eqb c "{" then
    parse_object_value (fun s => parse_value strtod fuel s (nesting + 1)) fuel s
  else if Ascii.eqb c "[" then
    parse_array_value (fun s => parse_value strtod fuel s (nesting + 1)) fuel s
  else if Ascii.eqb c DQUOTE then parse_string_value s
  else if Ascii.eqb c "f" || Ascii.eqb c "t" then parse_boolean_value s
  else if is_number_start c then parse_number_value strtod s
  else if Ascii.eqb c "n" then parse_null_value s
  else Fail.
Proof.
intros Hn Hs. rewrite parse_value_unfold.
replace (MAX_NESTING <? nesting) with false by (symmetry; apply Z.ltb_ge; exact Hn).
now rewrite SKIP_WHITESPACES_value.
Qed.

Lemma parse_value_object (fuel : nat) (s : string) (nesting : Z) :
nesting <= MAX_NESTING ->
parse_value strtod (S fuel) (String "{" s) nesting
= parse_object_value (fun s => parse_value strtod fuel s (nesting + 1)) fuel
    (String "{" s).
Proof. intros H. now rewrite parse_value_dispatch. Qed.

Lemma parse_value_array (fuel : nat) (s : string) (nesting : Z) :
nesting <= MAX_NESTING ->
parse_value strtod (S fuel) (String "[" s) nesting
= parse_array_value (fun s => parse_value strtod fuel s (nesting + 1)) fuel
    (String "[" s).
Proof. intros H. now rewrite parse_value_dispatch. Qed.

Lemma compact_starts (v : JSON_Value) (level : Z) (rest : string) :
Forall (number_roundtrips strtod sprintf_g17) (numbers v) ->
is_value_start (peek (compact sprintf_g17 escape_slashes v level ++ rest)) = true.
Proof.
intros Hnum. destruct v as [ | s | d | o | a | b ]; unfold compact; cbn [render].
- reflexivity.
- reflexivity.
- apply Forall_inv in Hnum. destruct Hnum as (_ & Hstart & _).
  rewrite peek_append; [now apply is_number_start_class|].
  intros E. rewrite E in Hstart. discriminate.
- rewrite container_text_compact. reflexivity.
- rewrite container_text_compact. reflexivity.
- destruct b; reflexivity.
Qed.

Lemma fits_scalar (nesting : Z) (v : JSON_Value) :
json_depth v = 0 ->
(nesting <= MAX_NESTING /\ fits nesting v = true)
\/ (MAX_NESTING < nesting /\ fits nesting v = false).
Proof.
intros Hd. unfold fits. rewrite Hd, Z.add_0_r.
destruct (Z.leb_spec nesting MAX_NESTING); [left | right]; split; auto.
Qed.

Lemma numbers_children (a : list JSON_Value) :
Forall (number_roundtrips strtod sprintf_g17) (List.concat (List.map numbers a)) ->
Forall (fun x => Forall (number_roundtrips strtod sprintf_g17) (numbers x)) a.
Proof.
induction a as [|x a IH]; cbn [List.map List.concat]; [constructor|].
intros H. apply Forall_app in H as [Hx Ha]. constructor; [exact Hx | now apply IH].
Qed.

Lemma numbers_members (o : JSON_Object) :
Forall (number_roundtrips strtod sprintf_g17)
  (List.concat (List.map (fun p => numbers (snd p)) o)) ->
Forall (fun p => Forall (number_roundtrips strtod sprintf_g17) (numbers (snd p))) o.
Proof.
induction o as [|x o IH]; cbn [List.map List.concat]; [constructor|].
intros H. apply Forall_app in H as [Hx Ho]. constructor; [exact Hx | now apply IH].
Qed.

(** [parse_value] reads the compact text of a well-formed value when the
  value fits the nesting limit, and fails on it when it does not. *)
Lemma parse_value_compact (v : JSON_Value) :
well_formed v ->
Forall (number_roundtrips strtod sprintf_g17) (numbers v) ->
forall (level nesting : Z) (fuel : nat),
  (value_size v <= fuel)%nat ->
  reads (fun s => parse_value strtod fuel s nesting)
    (compact sprintf_g17 escape_slashes v level) (fits nesting v) v.
Proof.
induction v as [ | s | d | o IH | a IH | b ] using JSON_Value_ind';
  intros Hwf Hnum level nesting [|fuel] Hfuel rest Hrest;
  try (cbn [value_size] in Hfuel; lia).
- destruct (fits_scalar nesting json_null eq_refl) as [[Hn ->] | [Hn ->]];
    [|now apply parse_value_too_deep].
  exists json_null. split; [|constructor].
  now rewrite parse_value_dispatch.
- inversion Hwf as [ | s' Hs | | | | ]; subst.
  destruct (fits_scalar nesting (json_string s) eq_refl) as [[Hn ->] | [Hn ->]];
    [|now apply parse_value_too_deep].
  exists (json_string s). split; [|constructor].
  rewrite parse_value_dispatch by (exact Hn || reflexivity).
  change (parse_string_value (quoted_text escape_slashes s ++ rest)
          = Ok (json_string s, rest)).
  unfold parse_string_value. rewrite get_quoted_string_quoted_text by exact Hs.
  cbn [bind of_option json_value_init_string_no_copy]. now rewrite Hs.
- pose proof (compact_starts (json_number d) level rest Hnum) as Hv.
  apply Forall_inv in Hnum. destruct Hnum as (Hnf & Hstart & Hread).
  destruct (fits_scalar nesting (json_number d) eq_refl) as [[Hn ->] | [Hn ->]];
    [|now apply parse_value_too_deep].
  destruct (Hread rest Hrest) as (d' & Hconv & Hdec & Hinv & Hlt).
  exists (json_number d'). split; [|now constructor].
  rewrite parse_value_dispatch by assumption. cbv zeta.
  unfold compact in *. cbn [render] in *.
  assert (Hp : is_number_start (peek (sprintf_g17 d ++ rest)) = true).
  { rewrite peek_append; [exact Hstart|]. intros E. rewrite E in Hstart. discriminate. }
  destruct (is_number_start_class _ Hp) as (-> & -> & -> & -> & -> & _).
  rewrite Hp. cbn [orb]. unfold parse_number_value. rewrite Hconv, Hdec.
  cbn [orb negb]. unfold json_value_init_number. rewrite Hinv.
  cbn [of_option bind]. now rewrite advance_append.
- (* object *)
  inversion Hwf as [ | | | | | o' Hnames Hnd Hch ]; subst.
  assert (Htext : (compact sprintf_g17 escape_slashes (json_object o) level ++ rest
                   = String "{" (join_commas
                       (List.map (fun p => quoted_text escape_slashes (fst p) ++ ":"
                          ++ compact sprintf_g17 escape_slashes (snd p) (level + 1)) o)
                       ++ "}" ++ rest))%string).
  { rewrite compact_object by exact Hwf. now rewrite !append_assoc. }
  rewrite Htext. clear Htext.
  destruct (Z.ltb_spec MAX_NESTING nesting) as [Hn | Hn].
  { replace (fits nesting (json_object o)) with false;
      [now apply parse_value_too_deep|].
    symmetry. apply Z.leb_gt. pose proof (json_depth_nonneg (json_object o)). lia. }
  rewrite parse_value_object by exact Hn.
  unfold parse_object_value.
  cbn [json_value_get_object json_value_init_object peek SKIP_CHAR].
  change (Ascii.eqb "{" "{") with true. cbn [negb]. cbv iota.
  destruct o as [|[k x] o].
  + replace (fits nesting (json_object [])) with true
      by (symmetry; apply Z.leb_le; cbn [json_depth]; lia).
    exists (json_object []). split; [reflexivity | repeat constructor].
  + rewrite fits_object by congruence.
    pose proof (parse_object_loop_join escape_slashes
                  (fun s => parse_value strtod fuel s (nesting + 1))
                  (fun x => compact sprintf_g17 escape_slashes x (level + 1))
                  (fits (nesting + 1)) ((k, x) :: o) ("}" ++ rest) eq_refl) as Hloop.
    cbn [value_size] in Hfuel.
    pose proof (size_sum_elem (fun p => value_size (snd p)) ((k, x) :: o)) as Hsz.
    pose proof (size_sum_length (fun p => value_size (snd p)) ((k, x) :: o)
                  (fun p => value_size_pos (snd p))) as Hlen.
    apply numbers_members in Hnum.
    assert (Hall : Forall (fun p =>
              (forall rest, is_value_start
                 (peek (compact sprintf_g17 escape_slashes (snd p) (level + 1) ++ rest))
                 = true)
              /\ reads (fun s => parse_value strtod fuel s (nesting + 1))
                   (compact sprintf_g17 escape_slashes (snd p) (level + 1))
                   (fits (nesting + 1) (snd p)) (snd p)) ((k, x) :: o)).
    { apply Forall_forall. intros p Hp.
      pose proof (proj1 (Forall_forall _ _) IH p Hp) as IHp.
      pose proof (proj1 (Forall_forall _ _) Hch p Hp) as Hwfp.
      pose proof (proj1 (Forall_forall _ _) Hnum p Hp) as Hnump.
      pose proof (proj1 (Forall_forall _ _) Hsz p Hp) as Hszp.
      cbn beta in *. split.
      - intros r. now apply compact_starts.
      - apply IHp; [assumption | assumption | lia]. }
    specialize (Hloop Hall [] fuel ltac:(congruence) ltac:(lia)
                  ltac:(constructor) Hnames Hnd).
    cbv zeta in Hloop.
    set (text := join_commas
                   (List.map (fun p => (quoted_text escape_slashes (fst p) ++ ":"
                      ++ compact sprintf_g17 escape_slashes (snd p) (level + 1))%string)
                      ((k, x) :: o))) in *.
    assert (Hq : peek (text ++ "}" ++ rest) = DQUOTE).
    { unfold text. cbn [List.map]. now rewrite join_commas_cons. }
    rewrite SKIP_WHITESPACES_id by (now rewrite Hq). rewrite Hq.
    change (Ascii.eqb DQUOTE "}") with false. cbv iota.
    destruct (forallb (fun p => fits (nesting + 1) (snd p)) ((k, x) :: o)).
    * destruct Hloop as (o' & Ho' & ->). cbn [app bind].
      exists (json_object o'). split; [|now constructor].
      inversion Ho' as [|p p' l l' Hp Hl]; subst. reflexivity.
    * now rewrite Hloop.
- (* array *)
  inversion Hwf as [ | | | | a' Hch | ]; subst.
  assert (Htext : (compact sprintf_g17 escape_slashes (json_array a) level ++ rest
                   = String "[" (join_commas
                       (List.map (fun x => compact sprintf_g17 escape_slashes x
                                             (level + 1)) a)
                       ++ "]" ++ rest))%string).
  { rewrite compact_array. now rewrite !append_assoc. }
  rewrite Htext. clear Htext.
  destruct (Z.ltb_spec MAX_NESTING nesting) as [Hn | Hn].
  { replace (fits nesting (json_array a)) with false;
      [now apply parse_value_too_deep|].
    symmetry. apply Z.leb_gt. pose proof (json_depth_nonneg (json_array a)). lia. }
  rewrite parse_value_array by exact Hn.
  unfold parse_array_value.
  cbn [json_value_get_array json_value_init_array peek SKIP_CHAR].
  change (Ascii.eqb "[" "[") with true. cbn [negb]. cbv iota.
  destruct a as [|x a].
  + replace (fits nesting (json_array [])) with true
      by (symmetry; apply Z.leb_le; cbn [json_depth]; lia).
    exists (json_array []). split; [reflexivity | repeat constructor].
  + rewrite fits_array by congruence.
    pose proof (parse_array_loop_join
                  (fun s => parse_value strtod fuel s (nesting + 1))
                  (fun x => compact sprintf_g17 escape_slashes x (level + 1))
                  (fits (nesting + 1)) (x :: a) ("]" ++ rest) eq_refl) as Hloop.
    cbn [value_size] in Hfuel.
    pose proof (size_sum_elem value_size (x :: a)) as Hsz.
    pose proof (size_sum_length value_size (x :: a) value_size_pos) as Hlen.
    apply numbers_children in Hnum.
    assert (Hall : Forall (fun x =>
              (forall rest, is_value_start
                 (peek (compact sprintf_g17 escape_slashes x (level + 1) ++ rest)) = true)
              /\ reads (fun s => parse_value strtod fuel s (nesting + 1))
                   (compact sprintf_g17 escape_slashes x (level + 1))
                   (fits (nesting + 1) x) x) (x :: a)).
    { apply Forall_forall. intros p Hp.
      pose proof (proj1 (Forall_forall _ _) IH p Hp) as IHp.
      pose proof (proj1 (Forall_forall _ _) Hch p Hp) as Hwfp.
      pose proof (proj1 (Forall_forall _ _) Hnum p Hp) as Hnump.
      pose proof (proj1 (Forall_forall _ _) Hsz p Hp) as Hszp.
      cbn beta in *. split.
      - intros r. now apply compact_starts.
      - apply IHp; [assumption | assumption | lia]. }
    specialize (Hloop Hall [] fuel ltac:(congruence) ltac:(lia)).
    set (text := join_commas
                   (List.map (fun x => compact sprintf_g17 escape_slashes x (level + 1))
                      (x :: a))) in *.
    assert (Hq : is_value_start (peek (text ++ "]" ++ rest)) = true).
    { unfold text. cbn [List.map]. rewrite join_commas_cons.
      apply Forall_inv in Hall. apply Hall. }
    rewrite SKIP_WHITESPACES_value by exact Hq.
    destruct (is_value_start_class _ Hq) as (_ & _ & -> & _).
    destruct (forallb (fits (nesting + 1)) (x :: a)).
    * destruct Hloop as (vs' & Hvs & ->). cbn [app bind].
      exists (json_array vs'). split; [|now constructor].
      inversion Hvs as [|p p' l l' Hp Hl]; subst. reflexivity.
    * now rewrite Hloop.
- destruct (fits_scalar nesting (json_boolean b) eq_refl) as [[Hn ->] | [Hn ->]];
    [|now apply parse_value_too_deep].
  exists (json_boolean b). split; [|constructor].
  rewrite parse_value_dispatch by (exact Hn || (destruct b; reflexivity)).
  destruct b; reflexivity.
Qed.

End RoundTrip.

(** ** Similar trees are equal *)



(** ** The text of a value is a C string *)



Section TextIsCString.
Variable strtod : string -> double * nat * bool.
Variable sprintf_g17 : double -> string.
Variable escape_slashes : bool.




(** [json_parse_string] on the compact text of a value. *)
Lemma json_parse_string_compact (v : JSON_Value) :
well_formed v ->
Forall (number_roundtrips strtod sprintf_g17) (numbers v) ->
if fits 0 v
then exists v', json_parse_string strtod (compact sprintf_g17 escape_slashes v 0) = Ok v'
                /\ similar v v'
else json_parse_string strtod (compact sprintf_g17 escape_slashes v 0) = Fail.
Proof.
intros Hwf Hnum.
pose proof (parse_value_compact strtod sprintf_g17 escape_slashes v Hwf Hnum 0 0
              (value_size v) (Nat.le_refl _) EmptyString (or_introl eq_refl)) as H.
rewrite append_nil_r in H.
assert (Hbom : skip_bom (compact sprintf_g17 escape_slashes v 0)
               = compact sprintf_g17 escape_slashes v 0).
{ unfold skip_bom. rewrite <- peek_char_at.
  pose proof (compact_starts strtod sprintf_g17 escape_slashes v 0 EmptyString Hnum) as Hs.
  rewrite append_nil_r in Hs.
  destruct (is_value_start_class _ Hs) as (_ & _ & _ & ->). reflexivity. }
destruct (fits 0 v).
- destruct H as (v' & H & Hsim). exists v'. split; [|exact Hsim].
  apply (json_parse_string_of_parse_value strtod (value_size v) _ EmptyString).
  now rewrite Hbom.
- apply (json_parse_string_fail_of_parse_value strtod (value_size v)).
  now rewrite Hbom.
Qed.

End TextIsCString.

(** ** Nested values *)

Lemma json_depth_nested_value (n : nat) (leaf : JSON_Value) :
  json_depth (nested_value n leaf) = Z.of_nat n + json_depth leaf.
Proof.
  induction n as [|n IH]; [cbn; lia|].
  change (nested_value (S n) leaf) with (json_array [nested_value n leaf]).
  cbn [json_depth foldr].
  pose proof (json_depth_nonneg (nested_value n leaf)). lia.
Qed.

Lemma json_depth_nested_object_value (n : nat) (leaf : JSON_Value) :
  json_depth (nested_object_value n leaf) = Z.of_nat n + json_depth leaf.
Proof.
  induction n as [|n IH]; [cbn; lia|].
  change (nested_object_value (S n) leaf)
    with (json_object [("k"%string, nested_object_value n leaf)]).
  cbn [json_depth foldr snd].
  pose proof (json_depth_nonneg (nested_object_value n leaf)). lia.
Qed.

Lemma well_formed_nested_value (n : nat) (leaf : JSON_Value) :
  well_formed leaf -> well_formed (nested_value n leaf).
Proof.
  intros H. induction n as [|n IH]; [exact H|].
  change (nested_value (S n) leaf) with (json_array [nested_value n leaf]).
  repeat constructor. exact IH.
Qed.

(** ** The reference C library on an example number *)

Lemma stops_cases (rest : string) :
  stops rest ->
  rest = EmptyString
  \/ exists c r, rest = String c r /\ (c = "," \/ c = "]" \/ c = "}")%char.
Proof.
  intros [-> | H]; [now left | right].
  destruct rest as [|c r]; cbn in H; [destruct H as [H | [H | H]]; discriminate|].
  exists c, r. split; [reflexivity | exact H].
Qed.

(** The double 2.5 is printed as [2.5] and read back exactly. *)
Lemma ref_libc_roundtrips_example :
  number_roundtrips RefLibc.strtod RefLibc.sprintf_g17
    (S754_finite false 5629499534213120 (-51)).
Proof.
  split; [vm_compute; reflexivity|]. split; [vm_compute; reflexivity|].
  intros rest Hrest.
  change (RefLibc.sprintf_g17 (S754_finite false 5629499534213120 (-51)))
    with "2.5"%string.
  exists (S754_finite false 5629499534213120 (-51)).
  apply stops_cases in Hrest as [-> | (c & r & -> & [-> | [-> | ->]])].
  all: split; [vm_compute; reflexivity|].
  all: split; [vm_compute; reflexivity|].
  all: split; vm_compute; reflexivity.
Qed.

(** ** The texts of nested values *)

Lemma nested_arrays_empty (n : nat) : nested_arrays (S n) "" = nested_arrays n "[]".
Proof. unfold nested_arrays. now rewrite Nat.iter_succ_r. Qed.

Lemma nested_objects_empty (n : nat) : nested_objects (S n) "" = nested_objects n (dq "{'k':}").
Proof. unfold nested_objects. now rewrite Nat.iter_succ_r. Qed.

Lemma numbers_nested_value (n : nat) (leaf : JSON_Value) :
  numbers (nested_value n leaf) = numbers leaf.
Proof.
  induction n as [|n IH]; [reflexivity|].
  change (nested_value (S n) leaf) with (json_array [nested_value n leaf]).
  cbn [numbers List.map List.concat]. now rewrite app_nil_r.
Qed.

Lemma numbers_nested_object_value (n : nat) (leaf : JSON_Value) :
  numbers (nested_object_value n leaf) = numbers leaf.
Proof.
  induction n as [|n IH]; [reflexivity|].
  change (nested_object_value (S n) leaf)
    with (json_object [("k"%string, nested_object_value n leaf)]).
  cbn [numbers List.map List.concat snd]. now rewrite app_nil_r.
Qed.

Lemma well_formed_nested_object_value (n : nat) (leaf : JSON_Value) :
  well_formed leaf -> well_formed (nested_object_value n leaf).
Proof.
  intros H. induction n as [|n IH]; [exact H|].
  change (nested_object_value (S n) leaf)
    with (json_object [("k"%string, nested_object_value n leaf)]).
  constructor; [repeat constructor | | repeat constructor; exact IH].
  apply NoDup_singleton.
Qed.

Section NestedTexts.
Variable sprintf_g17 : double -> string.
Variable escape_slashes : bool.

Lemma compact_nested_value (n : nat) (leaf : JSON_Value) :
forall level,
  compact sprintf_g17 escape_slashes (nested_value n leaf) level
  = nested_arrays n (compact sprintf_g17 escape_slashes leaf (level + Z.of_nat n)).
Proof.
induction n as [|n IH]; intros level; [cbn [Z.of_nat]; now rewrite Z.add_0_r|].
change (nested_value (S n) leaf) with (json_array [nested_value n leaf]).
rewrite compact_array. cbn [List.map join_commas]. rewrite IH.
replace (level + 1 + Z.of_nat n) with (level + Z.of_nat (S n)) by lia.
reflexivity.
Qed.

Lemma compact_nested_object_value (n : nat) (leaf : JSON_Value) :
well_formed leaf ->
forall level,
  compact sprintf_g17 escape_slashes (nested_object_value n leaf) level
  = nested_objects n (compact sprintf_g17 escape_slashes leaf (level + Z.of_nat n)).
Proof.
intros Hleaf. induction n as [|n IH]; intros level;
  [cbn [Z.of_nat]; now rewrite Z.add_0_r|].
pose proof (well_formed_nested_object_value (S n) leaf Hleaf) as Hwf.
change (nested_object_value (S n) leaf)
  with (json_object [("k"%string, nested_object_value n leaf)]) in *.
rewrite compact_object by exact Hwf. cbn [List.map join_commas fst snd]. rewrite IH.
replace (level + 1 + Z.of_nat n) with (level + Z.of_nat (S n)) by lia.
reflexivity.
Qed.

End NestedTexts.

(** A tree without numbers is similar to itself only. *)
Lemma similar_eq (v : JSON_Value) :
  forall v', similar v v' -> numbers v = [] -> v' = v.
Proof.
  induction v as [ | s | d | o IH | a IH | b ] using JSON_Value_ind';
    intros v' Hsim Hnum; inversion Hsim; subst; try reflexivity; try discriminate.
  - f_equal. cbn [numbers] in Hnum.
    match goal with H : Forall2 _ o _ |- _ => rename H into Hall end. clear Hsim.
    induction Hall as [|[k x] [k' x'] o o' [Hk Hx] Hall IHall]; [reflexivity|].
    cbn [fst snd List.map List.concat] in *.
    apply app_eq_nil in Hnum as [Hnx Hno].
    apply Forall_cons in IH as [IHx IHo]. cbn [snd] in IHx.
    rewrite (IHx x' Hx Hnx), (IHall IHo Hno). now subst k'.
  - f_equal. cbn [numbers] in Hnum.
    match goal with H : Forall2 _ a _ |- _ => rename H into Hall end. clear Hsim.
    induction Hall as [|x x' a a' Hx Hall IHall]; [reflexivity|].
    cbn [List.map List.concat] in *.
    apply app_eq_nil in Hnum as [Hnx Hna].
    apply Forall_cons in IH as [IHx IHa].
    now rewrite (IHx x' Hx Hnx), (IHall IHa Hna).
Qed.

(** [json_parse_string] on the compact text of a tree without numbers. *)
Lemma json_parse_string_exact (strtod : string -> double * nat * bool)
    (sprintf_g17 : double -> string) (escape_slashes : bool)
    (v : JSON_Value) (text : string) :
  well_formed v -> numbers v = [] ->
  compact sprintf_g17 escape_slashes v 0 = text ->
  json_parse_string strtod text = if fits 0 v then Ok v else Fail.
Proof.
  intros Hwf Hnum <-.
  assert (Hn : Forall (number_roundtrips strtod sprintf_g17) (numbers v))
    by (rewrite Hnum; constructor).
  pose proof (json_parse_string_compact strtod sprintf_g17 escape_slashes v Hwf Hn) as H.
  destruct (fits 0 v); [|exact H].
  destruct H as (v' & -> & Hsim). now rewrite (similar_eq v v' Hsim Hnum).
Qed.

(** ** C1: the round trip *)




(** ** C3: the nesting limit *)

(** C3 (amended). [parse_value] fails on entry when its [nesting] is above
    2048, and the values of a container are parsed with the [nesting] of the
    container plus one.  So the compact text of a well-formed value is
    parsed exactly when no value of the tree lies inside more than 2048
    containers.  2048 arrays or objects around [true] are parsed and 2049
    are not; 2049 arrays or objects of which the innermost is empty are
    parsed and 2050 are not. *)
Theorem nesting_limit
    (strtod : string -> double * nat * bool) (sprintf_g17 : double -> string)
    (parson_escape_slashes : bool) :
  (forall fuel s nesting,
     MAX_NESTING < nesting -> parse_value strtod (S fuel) s nesting = Fail)
  /\ (forall v,
        well_formed v -> Forall (number_roundtrips strtod sprintf_g17) (numbers v) ->
        if json_depth v <=? MAX_NESTING
        then exists v',
            json_parse_string strtod (compact sprintf_g17 parson_escape_slashes v 0)
            = Ok v' /\ similar v v'
        else json_parse_string strtod (compact sprintf_g17 parson_escape_slashes v 0)
             = Fail)
  /\ (forall n leaf, json_depth (nested_value n leaf) = Z.of_nat n + json_depth leaf)
  /\ (forall n leaf,
        json_depth (nested_object_value n leaf) = Z.of_nat n + json_depth leaf)
  /\ json_parse_string strtod (nested_arrays 2048 "true")
     = Ok (nested_value 2048 (json_boolean true))
  /\ json_parse_string strtod (nested_arrays 2049 "true") = Fail
  /\ json_parse_string strtod (nested_arrays 2049 "")
     = Ok (nested_value 2048 (json_array []))
  /\ json_parse_string strtod (nested_arrays 2050 "") = Fail
  /\ json_parse_string strtod (nested_objects 2048 "true")
     = Ok (nested_object_value 2048 (json_boolean true))
  /\ json_parse_string strtod (nested_objects 2049 "true") = Fail
  /\ json_parse_string strtod (nested_objects 2048 "{}")
     = Ok (nested_object_value 2048 (json_object []))
  /\ json_parse_string strtod (nested_objects 2049 "{}") = Fail.
Proof.
  split; [apply parse_value_too_deep|].
  split.
  { intros v Hwf Hnum.
    exact (json_parse_string_compact strtod sprintf_g17 parson_escape_slashes v Hwf Hnum). }
  split; [apply json_depth_nested_value|].
  split; [apply json_depth_nested_object_value|].
  assert (Harr : forall n leaf text,
             well_formed leaf -> numbers leaf = [] ->
             (forall level, compact sprintf_g17 parson_escape_slashes leaf level = text) ->
             json_parse_string strtod (nested_arrays n text)
             = if fits 0 (nested_value n leaf) then Ok (nested_value n leaf) else Fail).
  { intros n leaf text Hwf Hnum Htext.
    apply (json_parse_string_exact strtod sprintf_g17 parson_escape_slashes).
    - now apply well_formed_nested_value.
    - now rewrite numbers_nested_value.
    - now rewrite compact_nested_value, Htext. }
  assert (Hobj : forall n leaf text,
             well_formed leaf -> numbers leaf = [] ->
             (forall level, compact sprintf_g17 parson_escape_slashes leaf level = text) ->
             json_parse_string strtod (nested_objects n text)
             = if fits 0 (nested_object_value n leaf)
               then Ok (nested_object_value n leaf) else Fail).
  { intros n leaf text Hwf Hnum Htext.
    apply (json_parse_string_exact strtod sprintf_g17 parson_escape_slashes).
    - now apply well_formed_nested_object_value.
    - now rewrite numbers_nested_object_value.
    - now rewrite compact_nested_object_value, Htext. }
  assert (Hfits : forall n leaf,
             json_depth leaf = 0 ->
             fits 0 (nested_value n leaf) = (Z.of_nat n <=? MAX_NESTING)
             /\ fits 0 (nested_object_value n leaf) = (Z.of_nat n <=? MAX_NESTING)).
  { intros n leaf Hd. unfold fits.
    rewrite json_depth_nested_value, json_depth_nested_object_value, Hd.
    split; f_equal; lia. }
  pose proof (wf_boolean true) as Htrue.
  assert (Hempty : well_formed (json_array [])) by (constructor; constructor).
  assert (Hnone : well_formed (json_object []))
    by (constructor; constructor).
  split.
  { rewrite (Harr 2048%nat (json_boolean true) "true" Htrue eq_refl (fun _ => eq_refl)).
    now rewrite (proj1 (Hfits 2048%nat (json_boolean true) eq_refl)). }
  split.
  { rewrite (Harr 2049%nat (json_boolean true) "true" Htrue eq_refl (fun _ => eq_refl)).
    now rewrite (proj1 (Hfits 2049%nat (json_boolean true) eq_refl)). }
  split.
  { rewrite (nested_arrays_empty 2048).
    rewrite (Harr 2048%nat (json_array []) "[]" Hempty eq_refl (fun _ => eq_refl)).
    now rewrite (proj1 (Hfits 2048%nat (json_array []) eq_refl)). }
  split.
  { rewrite (nested_arrays_empty 2049).
    rewrite (Harr 2049%nat (json_array []) "[]" Hempty eq_refl (fun _ => eq_refl)).
    now rewrite (proj1 (Hfits 2049%nat (json_array []) eq_refl)). }
  split.
  { rewrite (Hobj 2048%nat (json_boolean true) "true" Htrue eq_refl (fun _ => eq_refl)).
    now rewrite (proj2 (Hfits 2048%nat (json_boolean true) eq_refl)). }
  split.
  { rewrite (Hobj 2049%nat (json_boolean true) "true" Htrue eq_refl (fun _ => eq_refl)).
    now rewrite (proj2 (Hfits 2049%nat (json_boolean true) eq_refl)). }
  split.
  { rewrite (Hobj 2048%nat (json_object []) "{}" Hnone eq_refl (fun _ => eq_refl)).
    now rewrite (proj2 (Hfits 2048%nat (json_object []) eq_refl)). }
  rewrite (Hobj 2049%nat (json_object []) "{}" Hnone eq_refl (fun _ => eq_refl)).
  now rewrite (proj2 (Hfits 2049%nat (json_object []) eq_refl)).
Qed.

(** A call with [nesting] 2049 fails at once; an array of depth 2 with the
    number 2.5 in it is parsed. *)
Lemma nesting_limit_witness :
  parse_value RefLibc.strtod 1 "true" 2049 = Fail
  /\ exists v',
       json_parse_string RefLibc.strtod "[[2.5],{}]" = Ok v'
       /\ similar
            (json_array
               [json_array [json_number (S754_finite false 5629499534213120 (-51))];
                json_object []]) v'.
Proof.
  destruct (nesting_limit RefLibc.strtod RefLibc.sprintf_g17 false) as (Hdeep & Htext & _).
  split.
  - apply Hdeep. reflexivity.
  - apply (Htext (json_array
                    [json_array [json_number (S754_finite false 5629499534213120 (-51))];
                     json_object []])).
    + repeat constructor.
    + change (Forall (number_roundtrips RefLibc.strtod RefLibc.sprintf_g17)
                [S754_finite false 5629499534213120 (-51)]).
      constructor; [exact ref_libc_roundtrips_example | constructor].
Defined.

(** 2049 arrays, and 2049 objects, the innermost empty, are parsed. *)
Lemma parses_2049_nested_containers :
  json_parse_string RefLibc.strtod (nested_arrays 2049 "")
  = Ok (nested_value 2048 (json_array []))
  /\ String.length (nested_arrays 2049 "") = 4098%nat
  /\ json_parse_string RefLibc.strtod (nested_objects 2048 "{}")
     = Ok (nested_object_value 2048 (json_object [])).
Proof.
  destruct (nesting_limit RefLibc.strtod RefLibc.sprintf_g17 false)
    as (_ & _ & _ & _ & _ & _ & Harr & _ & _ & _ & Hobj & _).
  split; [exact Harr|]. split; [vm_compute; reflexivity | exact Hobj].
Qed.

(** ** The parent invariant of values in memory *)

Lemma load_store_cell (h : Heap.heap) (a b : Heap.addr) (c : Heap.json_value_t) :
  Heap.load (Heap.store_cell h a c) b = if decide (a = b) then Some c else Heap.load h b.
Proof.
  unfold Heap.load, Heap.store_cell. cbn [Heap.cells].
  destruct (decide (a = b)) as [-> | Hne];
    [apply lookup_insert_eq | now apply lookup_insert_ne].
Qed.

Lemma shrinks_refl (h : Heap.heap) : Heap.shrinks h h.
Proof. split; reflexivity. Qed.

Lemma shrinks_trans (h1 h2 h3 : Heap.heap) :
  Heap.shrinks h1 h2 -> Heap.shrinks h2 h3 -> Heap.shrinks h1 h3.
Proof. intros [H1 E1] [H2 E2]. split; [now transitivity (Heap.cells h2) | congruence]. Qed.

Lemma shrinks_load (h h' : Heap.heap) (a : Heap.addr) (c : Heap.json_value_t) :
  Heap.shrinks h h' -> Heap.load h' a = Some c -> Heap.load h a = Some c.
Proof. intros [Hs _] H. exact (lookup_weaken _ _ _ _ H Hs). Qed.









(** *** Lists of items *)





(** *** [json_value_free] only takes values away *)

Lemma free_shrinks (h h' : Heap.heap) (a : Heap.addr) :
  Heap.free h a = Some h' -> Heap.shrinks h h'.
Proof.
  unfold Heap.free. destruct (Heap.load h a); [|discriminate]. cbn. intros [= <-].
  split; [apply delete_subseteq | reflexivity].
Qed.

Lemma foldl_bind_None {A} (f : Heap.heap -> A -> option Heap.heap) (l : list A) :
  foldl (fun acc x => h ← acc; f h x) None l = None.
Proof. induction l as [|x l IH]; [reflexivity | exact IH]. Qed.

Lemma foldl_shrinks {A} (f : Heap.heap -> A -> option Heap.heap) (l : list A) :
  (forall h x h', f h x = Some h' -> Heap.shrinks h h') ->
  forall h h', foldl (fun acc x => h ← acc; f h x) (Some h) l = Some h' ->
               Heap.shrinks h h'.
Proof.
  intros Hf. induction l as [|x l IH]; intros h h'; cbn [foldl].
  - intros [= <-]. apply shrinks_refl.
  - cbn [mbind option_bind]. destruct (f h x) as [h1|] eqn:E.
    + intros H. apply (shrinks_trans h h1 h'); [exact (Hf _ _ _ E) | now apply IH].
    + now rewrite foldl_bind_None.
Qed.

Lemma json_value_free_r_shrinks (fuel : nat) :
  forall h a h', Heap.json_value_free_r fuel h a = Some h' -> Heap.shrinks h h'.
Proof.
  induction fuel as [|fuel IH]; intros h a h'; cbn [Heap.json_value_free_r];
    [discriminate|].
  destruct (Heap.load h a) as [c|]; [|discriminate]. cbn [mbind option_bind].
  destruct (Heap.value c) as [s | d | pairs | items | b | ].
  - apply free_shrinks.
  - apply free_shrinks.
  - destruct (foldl _ _ pairs) as [h1|] eqn:E; [|discriminate]. intros H.
    apply (shrinks_trans h h1 h'); [|exact (free_shrinks _ _ _ H)].
    apply (foldl_shrinks (fun h p => Heap.json_value_free_r fuel h (snd p)) pairs);
      [|exact E].
    intros h2 x h3. apply IH.
  - destruct (foldl _ _ items) as [h1|] eqn:E; [|discriminate]. intros H.
    apply (shrinks_trans h h1 h'); [|exact (free_shrinks _ _ _ H)].
    apply (foldl_shrinks (Heap.json_value_free_r fuel) items); [exact IH | exact E].
  - apply free_shrinks.
  - apply free_shrinks.
Qed.

Lemma json_value_free_shrinks (h h' : Heap.heap) (v : option Heap.addr) :
  Heap.json_value_free h v = Some h' -> Heap.shrinks h h'.
Proof.
  destruct v as [a|]; cbn [Heap.json_value_free].
  - apply json_value_free_r_shrinks.
  - intros [= <-]. apply shrinks_refl.
Qed.

(** *** The functions keep the invariant *)
















(** ** C5: one parent *)



(** ** What the parser returns *)

Lemma substring_strlen (s : string) : String.substring 0 (strlen s) s = c_str s.
Proof.
  unfold strlen. induction s as [|c s IH]; [reflexivity|]. cbn [c_str].
  destruct (Ascii.eqb c NUL); [reflexivity|]. cbn [String.length String.substring].
  now rewrite IH.
Qed.

Lemma parson_strndup_strlen (s : string) : parson_strndup s (strlen s) = c_str s.
Proof. unfold parson_strndup. rewrite substring_strlen. apply c_str_nul_free. Qed.

Lemma strncmp_eq_c_str (s : string) : strncmp_eq (c_str s) s (strlen s) = true.
Proof.
  unfold strlen. induction s as [|c s IH]; [reflexivity|]. cbn [c_str].
  destruct (Ascii.eqb c NUL) eqn:E; [reflexivity|].
  cbn [String.length strncmp_eq peek SKIP_CHAR]. now rewrite Ascii.eqb_refl, E.
Qed.

Lemma name_matches_c_str (s : string) : name_matches (c_str s) s (strlen s) = true.
Proof.
  unfold name_matches. rewrite strncmp_eq_c_str, andb_true_r.
  apply Nat.eqb_eq. unfold strlen. now rewrite c_str_nul_free.
Qed.

Lemma json_object_getn_value_None {V} (object : list (string * V)) (name : string)
    (name_len : nat) :
  json_object_getn_value object name name_len = None ->
  Forall (fun p => name_matches (fst p) name name_len = false) object.
Proof.
  induction object as [|[k v] object IH]; cbn [json_object_getn_value]; [constructor|].
  destruct (name_matches k name name_len) eqn:E; [discriminate|].
  intros H. constructor; [exact E | now apply IH].
Qed.

(** A successful [json_object_add] appends the pair, under the C string of
    the name, which no pair had. *)
Lemma json_object_add_success {V} (object object' : list (string * V)) (name : string)
    (value : V) :
  json_object_add object name value = (JSONSuccess, object') ->
  object' = object ++ [(c_str name, value)] /\ c_str name ∉ object.*1.
Proof.
  unfold json_object_add, json_object_addn.
  destruct (json_object_getn_value object name (strlen name)) eqn:E; [discriminate|].
  rewrite parson_strndup_strlen. intros [= <-]. split; [reflexivity|].
  intros Hin. apply list_elem_of_fmap in Hin as ([k v] & Hk & Hin). cbn in Hk. subst k.
  pose proof (proj1 (Forall_forall _ _) (json_object_getn_value_None _ _ _ E) _ Hin) as H.
  cbn [fst] in H. now rewrite name_matches_c_str in H.
Qed.

Section ParserResult.
Variable strtod : string -> double * nat * bool.

Lemma parse_array_loop_result (pv : string -> result (JSON_Value * string))
  (P : JSON_Value -> Prop) :
(forall s v rest, pv s = Ok (v, rest) -> P v) ->
forall fuel s output_array out rest,
  Forall P output_array ->
  parse_array_loop pv fuel s output_array = Ok (out, rest) -> Forall P out.
Proof.
intros Hpv. induction fuel as [|fuel IH]; intros s acc out rest Hacc;
  cbn [parse_array_loop].
- destruct (Ascii.eqb (peek s) NUL); [now intros [= <- _] | discriminate].
- destruct (Ascii.eqb (peek s) NUL); [now intros [= <- _]|].
  destruct (pv s) as [[v s1]| |] eqn:E; try discriminate. cbn [bind]. cbv zeta.
  assert (Hacc' : Forall P (json_array_add acc v)).
  { apply Forall_app. split; [exact Hacc|]. repeat constructor. exact (Hpv _ _ _ E). }
  destruct (negb _); [now intros [= <- _] | now apply IH].
Qed.

Lemma parse_object_loop_result (pv : string -> result (JSON_Value * string))
  (P : JSON_Value -> Prop) :
(forall s v rest, pv s = Ok (v, rest) -> P v) ->
forall fuel s output_object out rest,
  names_nul_free output_object -> NoDup output_object.*1 ->
  Forall (fun p => P (snd p)) output_object ->
  parse_object_loop pv fuel s output_object = Ok (out, rest) ->
  names_nul_free out /\ NoDup out.*1 /\ Forall (fun p => P (snd p)) out.
Proof.
intros Hpv. induction fuel as [|fuel IH]; intros s acc out rest Hn Hnd Hacc;
  cbn [parse_object_loop].
- destruct (Ascii.eqb (peek s) NUL); [now intros [= <- _] | discriminate].
- destruct (Ascii.eqb (peek s) NUL); [now intros [= <- _]|].
  destruct (get_quoted_string s) as [[key s1]| |]; try discriminate.
  cbn [bind]. cbv zeta.
  destruct (negb (Ascii.eqb (peek (SKIP_WHITESPACES s1)) ":")); [discriminate|].
  destruct (pv _) as [[v s2]| |] eqn:E; try discriminate. cbn [bind].
  destruct (json_object_add acc key v) as [[|] acc'] eqn:Eadd; [|discriminate].
  apply json_object_add_success in Eadd as [-> Hfresh].
  assert (Hn' : names_nul_free (acc ++ [(c_str key, v)])).
  { apply Forall_app. split; [exact Hn|]. repeat constructor. apply c_str_nul_free. }
  assert (Hnd' : NoDup (acc ++ [(c_str key, v)]).*1).
  { rewrite fmap_app. apply NoDup_app. split; [exact Hnd|].
    split; [|apply NoDup_singleton].
    intros x Hx Hx'. apply list_elem_of_singleton in Hx'. now subst x. }
  assert (Hacc' : Forall (fun p => P (snd p)) (acc ++ [(c_str key, v)])).
  { apply Forall_app. split; [exact Hacc|]. repeat constructor. exact (Hpv _ _ _ E). }
  destruct (negb _); [now intros [= <- _] | now apply IH].
Qed.

(** A value [parse_value] returns is well formed and fits the nesting
  limit. *)
Lemma parse_value_result (fuel : nat) :
forall s nesting v rest,
  parse_value strtod fuel s nesting = Ok (v, rest) ->
  well_formed v /\ fits nesting v = true.
Proof.
induction fuel as [|fuel IH]; intros s nesting v rest; [discriminate|].
rewrite parse_value_unfold.
destruct (Z.ltb_spec MAX_NESTING nesting) as [Hn | Hn]; [discriminate|]. cbv zeta.
assert (Hscalar : forall x, json_depth x = 0 -> fits nesting x = true).
{ intros x Hx. unfold fits. rewrite Hx. apply Z.leb_le. lia. }
set (P := fun x => well_formed x /\ fits (nesting + 1) x = true).
assert (Hpv : forall s v rest,
           parse_value strtod fuel s (nesting + 1) = Ok (v, rest) -> P v)
  by (intros *; apply IH).
set (s' := SKIP_WHITESPACES s).
repeat match goal with
       | |- context [if ?c then _ else _] =>
           match c with
           | context [peek s'] => destruct c
           end
       end.
- (* object *)
  unfold parse_object_value.
  cbn [json_value_get_object json_value_init_object].
  destruct (negb _); [discriminate|].
  destruct (Ascii.eqb _ "}").
  { intros [= <- _]. split; [repeat constructor | now apply Hscalar]. }
  destruct (parse_object_loop _ fuel _ []) as [[o s1]| |] eqn:E; try discriminate.
  cbn [bind]. cbv zeta.
  destruct (negb _); [discriminate|].
  destruct (json_object_resize o (json_object_get_count o)) eqn:Er; [|discriminate].
  intros [= <- _].
  destruct (parse_object_loop_result _ P Hpv fuel _ [] o s1
              ltac:(constructor) ltac:(constructor) ltac:(constructor) E)
    as (Hnames & Hnd & Hall).
  assert (Hne : o <> []).
  { intros ->. unfold json_object_resize in Er. discriminate. }
  split.
  + constructor; [exact Hnames | exact Hnd|].
    eapply Forall_impl; [exact Hall|]. now intros p [Hp _].
  + rewrite fits_object by exact Hne. apply forallb_Forall.
    eapply Forall_impl; [exact Hall|]. now intros p [_ Hp].
- (* array *)
  unfold parse_array_value.
  cbn [json_value_get_array json_value_init_array].
  destruct (negb _); [discriminate|].
  destruct (Ascii.eqb _ "]").
  { intros [= <- _]. split; [repeat constructor | now apply Hscalar]. }
  destruct (parse_array_loop _ fuel _ []) as [[a s1]| |] eqn:E; try discriminate.
  cbn [bind]. cbv zeta.
  destruct (negb _); [discriminate|].
  destruct (json_array_resize a (json_array_get_count a)) eqn:Er; [|discriminate].
  intros [= <- _].
  pose proof (parse_array_loop_result _ P Hpv fuel _ [] a s1 ltac:(constructor) E)
    as Hall.
  assert (Hne : a <> []).
  { intros ->. unfold json_array_resize in Er. discriminate. }
  split.
  + constructor. eapply Forall_impl; [exact Hall|]. now intros p [Hp _].
  + rewrite fits_array by exact Hne. apply forallb_Forall.
    eapply Forall_impl; [exact Hall|]. now intros p [_ Hp].
- (* string *)
  unfold parse_string_value.
  destruct (get_quoted_string s') as [[str s1]| |]; try discriminate.
  cbn [bind of_option json_value_init_string_no_copy]. intros [= <- _].
  split; [constructor; apply c_str_nul_free | now apply Hscalar].
- (* boolean *)
  unfold parse_boolean_value. cbv zeta.
  destruct (strncmp_eq "true" s' _);
    [cbn [bind of_option json_value_init_boolean]; intros [= <- _];
     split; [constructor | now apply Hscalar]|].
  destruct (strncmp_eq "false" s' _); [|discriminate].
  cbn [bind of_option json_value_init_boolean]. intros [= <- _].
  split; [constructor | now apply Hscalar].
- (* number *)
  unfold parse_number_value.
  destruct (strtod s') as [[number consumed] errno].
  destruct (errno || _); [discriminate|].
  unfold json_value_init_number.
  destruct (IS_NUMBER_INVALID number) eqn:Ei; [discriminate|].
  cbn [bind of_option]. intros [= <- _].
  split; [now constructor | now apply Hscalar].
- (* null *)
  unfold parse_null_value. cbv zeta.
  destruct (strncmp_eq "null" s' _); [|discriminate].
  cbn [bind of_option json_value_init_null]. intros [= <- _].
  split; [constructor | now apply Hscalar].
- discriminate.
Qed.

End ParserResult.

(** ** Fuel does not matter *)

Lemma parse_value_fuel (strtod : string -> double * nat * bool) (f1 f2 : nat)
    (s : string) (nesting : Z) :
  (String.length s < f1)%nat -> (String.length s < f2)%nat ->
  parse_value strtod f1 s nesting = parse_value strtod f2 s nesting.
Proof.
  intros H1 H2.
  pose proof (parse_value_advances strtod f1 s nesting H1) as A1.
  pose proof (parse_value_advances strtod f2 s nesting H2) as A2.
  destruct (Nat.le_ge_cases f1 f2) as [Hle | Hle].
  - destruct (parse_value_refines strtod f1 f2 s nesting Hle) as [E | E]; [|exact E].
    rewrite E in A1. contradiction.
  - destruct (parse_value_refines strtod f2 f1 s nesting Hle) as [E | E]; [|now symmetry].
    rewrite E in A2. contradiction.
Qed.

Lemma SKIP_WHITESPACES_append (ws s : string) :
  SKIP_WHITESPACES ws = EmptyString ->
  SKIP_WHITESPACES (ws ++ s) = SKIP_WHITESPACES s.
Proof.
  induction ws as [|c ws IH]; [reflexivity|]. cbn [SKIP_WHITESPACES String.append].
  destruct (isspace c); [exact IH | discriminate].
Qed.

(** [parse_value] skips the whitespace in front of a value. *)
Lemma parse_value_skips (strtod : string -> double * nat * bool) (fuel : nat)
    (ws s : string) (nesting : Z) :
  SKIP_WHITESPACES ws = EmptyString ->
  parse_value strtod fuel (ws ++ s) nesting = parse_value strtod fuel s nesting.
Proof.
  intros Hws. destruct fuel as [|fuel]; [reflexivity|].
  rewrite !parse_value_unfold. now rewrite SKIP_WHITESPACES_append.
Qed.

(** ** Names are compared as C strings *)

Lemma peek_c_str (s : string) : peek (c_str s) = peek s.
Proof.
  destruct s as [|c s]; [reflexivity|]. cbn [c_str peek].
  destruct (Ascii.eqb c NUL) eqn:E; [|reflexivity].
  apply ascii_eqb_true in E. now subst c.
Qed.

Lemma strncmp_eq_c_str_both (a b : string) (n : nat) :
  strncmp_eq a b n = strncmp_eq (c_str a) (c_str b) n.
Proof.
  revert a b. induction n as [|n IH]; intros a b; [reflexivity|].
  cbn [strncmp_eq]. rewrite !peek_c_str.
  destruct (Ascii.eqb (peek a) (peek b)) eqn:Eab; [|reflexivity].
  destruct (Ascii.eqb (peek a) NUL) eqn:Ea; [reflexivity|].
  apply ascii_eqb_true in Eab.
  destruct a as [|x a]; [discriminate|].
  destruct b as [|y b]; [cbn [peek] in *; subst x; discriminate|].
  cbn [peek] in *. subst y. cbn [c_str]. rewrite Ea. cbn [SKIP_CHAR]. apply IH.
Qed.

Lemma name_matches_strcmp (stored name : string) :
  name_matches stored name (strlen name) = strcmp_eq stored name.
Proof.
  unfold strcmp_eq.
  rewrite <- (name_matches_eqb (c_str stored) (c_str name))
    by apply c_str_nul_free.
  unfold name_matches, strlen. rewrite !c_str_nul_free.
  now rewrite <- strncmp_eq_c_str_both.
Qed.

Lemma json_object_getn_value_app {V} (o1 o2 : list (string * V)) (name : string)
    (n : nat) :
  json_object_getn_value (o1 ++ o2) name n
  = match json_object_getn_value o1 name n with
    | Some v => Some v
    | None => json_object_getn_value o2 name n
    end.
Proof.
  induction o1 as [|[k v] o1 IH]; cbn [app json_object_getn_value]; [reflexivity|].
  destruct (name_matches k name n); [reflexivity | exact IH].
Qed.

(** ** Reading the memory after a write *)

Lemma set_parent_load (h h' : Heap.heap) (v : Heap.addr) (p : option Heap.addr) :
  Heap.set_parent h v p = Some h' ->
  (exists cv, Heap.load h v = Some cv
              /\ Heap.load h' v = Some {| Heap.parent := p; Heap.value := Heap.value cv |})
  /\ forall x, x <> v -> Heap.load h' x = Heap.load h x.
Proof.
  unfold Heap.set_parent. destruct (Heap.load h v) as [cv|] eqn:E; [|discriminate].
  cbn [mbind option_bind]. intros [= <-]. split.
  - exists cv. split; [reflexivity|]. rewrite load_store_cell.
    now destruct (decide (v = v)).
  - intros x Hx. rewrite load_store_cell. destruct (decide (v = x)); congruence.
Qed.

Lemma set_parent_get_items (h h' : Heap.heap) (v a : Heap.addr) (p : option Heap.addr) :
  Heap.set_parent h v p = Some h' -> Heap.get_items h' a = Heap.get_items h a.
Proof.
  intros H. destruct (set_parent_load _ _ _ _ H) as [(cv & Hv & Hv') Hother].
  unfold Heap.get_items. destruct (decide (a = v)) as [-> | Hne].
  - now rewrite Hv, Hv'.
  - now rewrite (Hother a Hne).
Qed.

Lemma set_parent_get_pairs (h h' : Heap.heap) (v a : Heap.addr) (p : option Heap.addr) :
  Heap.set_parent h v p = Some h' -> Heap.get_pairs h' a = Heap.get_pairs h a.
Proof.
  intros H. destruct (set_parent_load _ _ _ _ H) as [(cv & Hv & Hv') Hother].
  unfold Heap.get_pairs. destruct (decide (a = v)) as [-> | Hne].
  - now rewrite Hv, Hv'.
  - now rewrite (Hother a Hne).
Qed.

Lemma set_items_load (h h' : Heap.heap) (a : Heap.addr) (items : list Heap.addr) :
  Heap.set_items h a items = Some h' ->
  Heap.get_items h' a = Some items
  /\ Heap.json_value_get_parent h' (Some a) = Heap.json_value_get_parent h (Some a)
  /\ forall x, x <> a -> Heap.load h' x = Heap.load h x.
Proof.
  unfold Heap.set_items, Heap.get_items, Heap.json_value_get_parent.
  destruct (Heap.load h a) as [ca|] eqn:E; [|discriminate].
  cbn [mbind option_bind]. intros [= <-]. rewrite !load_store_cell.
  destruct (decide (a = a)); [|congruence]. cbn. split; [reflexivity|].
  split; [reflexivity|].
  intros x Hx. rewrite load_store_cell. destruct (decide (a = x)); congruence.
Qed.

Lemma set_pairs_load (h h' : Heap.heap) (a : Heap.addr)
    (pairs : list (string * Heap.addr)) :
  Heap.set_pairs h a pairs = Some h' ->
  Heap.get_pairs h' a = Some pairs
  /\ Heap.json_value_get_parent h' (Some a) = Heap.json_value_get_parent h (Some a)
  /\ forall x, x <> a -> Heap.load h' x = Heap.load h x.
Proof.
  unfold Heap.set_pairs, Heap.get_pairs, Heap.json_value_get_parent.
  destruct (Heap.load h a) as [ca|] eqn:E; [|discriminate].
  cbn [mbind option_bind]. intros [= <-]. rewrite !load_store_cell.
  destruct (decide (a = a)); [|congruence]. cbn. split; [reflexivity|].
  split; [reflexivity|].
  intros x Hx. rewrite load_store_cell. destruct (decide (a = x)); congruence.
Qed.

(** The parent of [v] after its parent was written and the items of [a]
    after that. *)
Lemma attached_parent (h h1 h2 : Heap.heap) (a v : Heap.addr) :
  Heap.set_parent h v (Some a) = Some h1 ->
  (Heap.json_value_get_parent h2 (Some a) = Heap.json_value_get_parent h1 (Some a)) ->
  (forall x, x <> a -> Heap.load h2 x = Heap.load h1 x) ->
  Heap.json_value_get_parent h2 (Some v) = Some (Some a).
Proof.
  intros Hset Ha Hother.
  destruct (set_parent_load _ _ _ _ Hset) as [(cv & _ & Hv') _].
  assert (H1 : Heap.json_value_get_parent h1 (Some v) = Some (Some a))
    by (unfold Heap.json_value_get_parent; now rewrite Hv').
  destruct (decide (v = a)) as [-> | Hne]; [now rewrite Ha|].
  unfold Heap.json_value_get_parent in *. now rewrite (Hother v Hne).
Qed.

Lemma shrinks_get_items (h h' : Heap.heap) (a : Heap.addr) (items : list Heap.addr) :
  Heap.shrinks h h' -> Heap.get_items h' a = Some items ->
  Heap.get_items h a = Some items.
Proof.
  intros Hs. unfold Heap.get_items.
  destruct (Heap.load h' a) as [c|] eqn:E; [|discriminate].
  now rewrite (shrinks_load _ _ _ _ Hs E).
Qed.

Lemma shrinks_get_pairs (h h' : Heap.heap) (a : Heap.addr)
    (pairs : list (string * Heap.addr)) :
  Heap.shrinks h h' -> Heap.get_pairs h' a = Some pairs ->
  Heap.get_pairs h a = Some pairs.
Proof.
  intros Hs. unfold Heap.get_pairs.
  destruct (Heap.load h' a) as [c|] eqn:E; [|discriminate].
  now rewrite (shrinks_load _ _ _ _ Hs E).
Qed.

(** ** What [json_value_free] frees *)

Lemma shrinks_dead (h h' : Heap.heap) (x : Heap.addr) :
  Heap.shrinks h h' -> Heap.load h x = None -> Heap.load h' x = None.
Proof.
  intros Hs Hx. destruct (Heap.load h' x) as [c|] eqn:E; [|reflexivity].
  rewrite (shrinks_load _ _ _ _ Hs E) in Hx. discriminate.
Qed.

Lemma free_load (h h' : Heap.heap) (a : Heap.addr) :
  Heap.free h a = Some h' ->
  Heap.load h' a = None /\ forall x, x <> a -> Heap.load h' x = Heap.load h x.
Proof.
  unfold Heap.free. destruct (Heap.load h a); [|discriminate]. cbn [mbind option_bind].
  intros [= <-]. unfold Heap.load. cbn [Heap.cells]. split.
  - apply lookup_delete_eq.
  - intros x Hx. now apply lookup_delete_ne.
Qed.

Lemma reaches_trans (h : Heap.heap) (a b c : Heap.addr) :
  Heap.reaches h a b -> Heap.reaches h b c -> Heap.reaches h a c.
Proof.
  intros Hab Hbc. induction Hbc as [|x y cx Hbx IH Hx Hy]; [exact Hab|].
  exact (Heap.reaches_item h a x y cx IH Hx Hy).
Qed.

Lemma reaches_shrinks (h h' : Heap.heap) (a b : Heap.addr) :
  Heap.shrinks h h' -> Heap.reaches h' a b -> Heap.reaches h a b.
Proof.
  intros Hs Hab. induction Hab as [|x y cx Hax IH Hx Hy]; [constructor|].
  exact (Heap.reaches_item h a x y cx IH (shrinks_load _ _ _ _ Hs Hx) Hy).
Qed.

Lemma foldl_free {A} (f : Heap.heap -> Heap.addr -> option Heap.heap) (g : A -> Heap.addr)
    (l : list A) :
  (forall h x h', f h x = Some h' ->
     Heap.shrinks h h' /\ Heap.load h' x = None /\ Heap.free_closed h h'
     /\ Heap.free_within h h' x) ->
  forall h h',
    foldl (fun acc p => h ← acc; f h (g p)) (Some h) l = Some h' ->
    Heap.shrinks h h'
    /\ (forall p, p ∈ l -> Heap.load h' (g p) = None)
    /\ Heap.free_closed h h'
    /\ (forall x c, Heap.load h x = Some c -> Heap.load h' x = None ->
          exists p, p ∈ l /\ Heap.reaches h (g p) x).
Proof.
  intros Hf. induction l as [|p l IH]; intros h h'; cbn [foldl].
  - intros [= <-]. split; [apply shrinks_refl|]. split; [intros p Hp; inversion Hp|].
    split; [intros y cy Hy Hy'; congruence | intros x c Hx Hx'; congruence].
  - cbn [mbind option_bind]. destruct (f h (g p)) as [h1|] eqn:E;
      [|now rewrite foldl_bind_None].
    intros H. destruct (Hf _ _ _ E) as (Hs1 & Hd1 & Hc1 & Hw1).
    destruct (IH _ _ H) as (Hs & Hd & Hc & Hw).
    split; [exact (shrinks_trans _ _ _ Hs1 Hs)|]. split; [|split].
    + intros q Hq. apply elem_of_cons in Hq as [-> | Hq];
        [exact (shrinks_dead _ _ _ Hs Hd1) | now apply Hd].
    + intros y cy Hy Hy' z Hz. destruct (Heap.load h1 y) as [cy1|] eqn:Ey.
      * assert (cy1 = cy) by (pose proof (shrinks_load _ _ _ _ Hs1 Ey); congruence).
        subst cy1. exact (Hc y cy Ey Hy' z Hz).
      * exact (shrinks_dead _ _ _ Hs (Hc1 y cy Hy Ey z Hz)).
    + intros x c Hx Hx'. destruct (Heap.load h1 x) as [c1|] eqn:Ex.
      * destruct (Hw x c1 Ex Hx') as (q & Hq & Hr). exists q.
        split; [now apply elem_of_cons; right | exact (reaches_shrinks _ _ _ _ Hs1 Hr)].
      * exists p. split; [apply elem_of_cons; now left | exact (Hw1 x c Hx Ex)].
Qed.

Lemma json_value_free_r_frees (fuel : nat) :
  forall h a h',
    Heap.json_value_free_r fuel h a = Some h' ->
    Heap.shrinks h h' /\ Heap.load h' a = None /\ Heap.free_closed h h'
    /\ Heap.free_within h h' a.
Proof.
  induction fuel as [|fuel IH]; intros h a h'; cbn [Heap.json_value_free_r];
    [discriminate|].
  destruct (Heap.load h a) as [c|] eqn:Ea; [|discriminate]. cbn [mbind option_bind].
  assert (Hmain : forall (A : Type) (g : A -> Heap.addr) (l : list A) h1,
             Heap.slots c = g <$> l ->
             foldl (fun acc p => h ← acc; Heap.json_value_free_r fuel h (g p)) (Some h) l
             = Some h1 ->
             Heap.free h1 a = Some h' ->
             Heap.shrinks h h' /\ Heap.load h' a = None /\ Heap.free_closed h h'
             /\ Heap.free_within h h' a).
  { intros A g l h1 Hslots Hfold Hfree.
    destruct (foldl_free (Heap.json_value_free_r fuel) g l IH _ _ Hfold)
      as (Hs & Hd & Hc & Hw).
    pose proof (free_shrinks _ _ _ Hfree) as Hs'.
    destruct (free_load _ _ _ Hfree) as [Hdead Hother].
    split; [exact (shrinks_trans _ _ _ Hs Hs')|]. split; [exact Hdead|]. split.
    - intros y cy Hy Hy' z Hz. destruct (decide (y = a)) as [-> | Hne].
      + assert (cy = c) by congruence. subst cy. rewrite Hslots in Hz.
        apply list_elem_of_fmap in Hz as (p & -> & Hp).
        exact (shrinks_dead _ _ _ Hs' (Hd p Hp)).
      + rewrite (Hother y Hne) in Hy'.
        exact (shrinks_dead _ _ _ Hs' (Hc y cy Hy Hy' z Hz)).
    - intros x cx Hx Hx'. destruct (decide (x = a)) as [-> | Hne]; [constructor|].
      rewrite (Hother x Hne) in Hx'.
      destruct (Hw x cx Hx Hx') as (p & Hp & Hr).
      apply (reaches_trans h a (g p) x); [|exact Hr].
      apply (Heap.reaches_item h a a (g p) c); [constructor | exact Ea|].
      rewrite Hslots. apply list_elem_of_fmap. eauto. }
  assert (Hleaf : Heap.slots c = [] -> Heap.free h a = Some h' ->
                  Heap.shrinks h h' /\ Heap.load h' a = None /\ Heap.free_closed h h'
                  /\ Heap.free_within h h' a).
  { intros Hslots Hfree.
    apply (Hmain Heap.addr id [] h); [now rewrite Hslots | reflexivity | exact Hfree]. }
  unfold Heap.slots in Hmain, Hleaf.
  destruct (Heap.value c) as [s | d | pairs | items | b | ].
  - now apply Hleaf.
  - now apply Hleaf.
  - destruct (foldl _ _ pairs) as [h1|] eqn:E; [|discriminate].
    cbn [mbind option_bind]. intros Hfree.
    exact (Hmain _ snd pairs h1 eq_refl E Hfree).
  - destruct (foldl _ _ items) as [h1|] eqn:E; [|discriminate].
    cbn [mbind option_bind]. intros Hfree.
    apply (Hmain _ id items h1); [now rewrite list_fmap_id | exact E | exact Hfree].
  - now apply Hleaf.
  - now apply Hleaf.
Qed.

(** ** Names in memory *)

Lemma find_name_lookup (pairs : list (string * Heap.addr)) (name : string) (i : nat)
    (v : Heap.addr) :
  Heap.find_name pairs name = Some i ->
  json_object_getn_value (alter (fun p => (fst p, v)) i pairs) name (strlen name)
  = Some v
  /\ List.length (alter (fun p => (fst p, v)) i pairs) = List.length pairs.
Proof.
  unfold Heap.find_name. intros H. split; [|apply length_alter].
  destruct (list_find _ pairs) as [[j p]|] eqn:E; [|discriminate].
  cbn in H. injection H as ->.
  apply list_find_Some in E as (Hi & Hp & Hfirst).
  revert i Hi Hfirst. induction pairs as [|[k x] pairs IH]; intros i Hi Hfirst;
    [discriminate|].
  destruct i as [|i]; cbn [alter list_alter json_object_getn_value].
  - cbn in Hi. injection Hi as <-. cbn [fst] in *.
    now rewrite name_matches_strcmp, Hp.
  - cbn [fst]. rewrite name_matches_strcmp.
    destruct (strcmp_eq k name) eqn:Ek.
    + exfalso. apply (Hfirst 0%nat (k, x)); [reflexivity | lia | exact Ek].
    + apply IH; [exact Hi|]. intros j y Hj Hlt. apply (Hfirst (S j) y); [exact Hj | lia].
Qed.

Lemma lookup_find_name (pairs : list (string * Heap.addr)) (name : string) :
  is_Some (json_object_getn_value pairs name (strlen name)) ->
  is_Some (Heap.find_name pairs name).
Proof.
  unfold Heap.find_name. induction pairs as [|[k x] pairs IH];
    cbn [json_object_getn_value]; [intros [? H]; discriminate|].
  rewrite name_matches_strcmp. cbn [list_find].
  destruct (strcmp_eq k name) eqn:Ek.
  - intros _. rewrite decide_True by exact Ek. cbn. eauto.
  - intros H. rewrite decide_False by (cbn [fst]; congruence).
    destruct (IH H) as [i Hi]. destruct (list_find _ pairs) as [[j p]|]; [|discriminate].
    cbn. eauto.
Qed.

(** ** Comments *)

Lemma remove_comments_loop_unfold (fuel : nat) (s st en : string) (i e : bool) :
  remove_comments_loop (S fuel) s st en i e
  = if Ascii.eqb (peek s) NUL then s
    else if Ascii.eqb (peek s) "\" && negb e then
      String (peek s) (remove_comments_loop fuel (SKIP_CHAR s) st en i true)
    else if Ascii.eqb (peek s) DQUOTE && negb e then
      String (peek s) (remove_comments_loop fuel (SKIP_CHAR s) st en (negb i) false)
    else if negb i && strncmp_eq s st (strlen st) then
      match strstr (c_str (advance (strlen st) s)) (c_str en) with
      | None => (spaces (strlen st) ++ advance (strlen st) s)%string
      | Some offset =>
          (spaces (strlen st + (offset + strlen en))
           ++ remove_comments_loop fuel
                (advance (offset + strlen en) (advance (strlen st) s)) st en i false)%string
      end
    else String (peek s) (remove_comments_loop fuel (SKIP_CHAR s) st en i false).
Proof. reflexivity. Qed.

Lemma spaces_S (n : nat) : spaces (S n) = String " " (spaces n).
Proof. reflexivity. Qed.

Lemma spaces_length (n : nat) : String.length (spaces n) = n.
Proof. induction n as [|n IH]; [reflexivity|]. rewrite spaces_S. cbn. now rewrite IH. Qed.

Lemma spaces_add (n m : nat) : spaces (n + m) = (spaces n ++ spaces m)%string.
Proof. induction n as [|n IH]; [reflexivity|]. cbn [Nat.add]. rewrite !spaces_S. cbn. now rewrite IH. Qed.

Lemma peek_not_NUL (s : string) :
  Ascii.eqb (peek s) NUL = false -> s = String (peek s) (SKIP_CHAR s).
Proof. destruct s as [|c s]; [discriminate | reflexivity]. Qed.

Lemma advance_length_minus (n : nat) (s : string) :
  String.length (advance n s) = (String.length s - n)%nat.
Proof.
  revert s. induction n as [|n IH]; intros s.
  - change (advance 0 s) with s. lia.
  - change (advance (S n) s) with (advance n (SKIP_CHAR s)). rewrite IH. destruct s; cbn [SKIP_CHAR String.length]; lia.
Qed.

Lemma advance_split (n : nat) (s : string) :
  (n <= String.length s)%nat ->
  s = (String.substring 0 n s ++ advance n s)%string
  /\ String.length (String.substring 0 n s) = n.
Proof.
  revert s. induction n as [|n IH]; intros s Hn.
  - destruct s; cbn; split; reflexivity.
  - destruct s as [|c s]; [cbn in Hn; lia|]. cbn in Hn.
    destruct (IH s ltac:(lia)) as [E L].
    change (String.substring 0 (S n) (String c s)) with (String c (String.substring 0 n s)).
    cbn [advance SKIP_CHAR String.append String.length].
    split; [|now rewrite L].
    change (String c s = String c (String.substring 0 n s ++ advance n s)%string).
    f_equal; exact E.
Qed.

Lemma c_str_length (s : string) : (String.length (c_str s) <= String.length s)%nat.
Proof.
  induction s as [|c s IH]; cbn; [lia|]. destruct (Ascii.eqb c NUL); cbn; lia.
Qed.

(** The first [strlen b] bytes of [a] are those of [b]. *)
Lemma strncmp_eq_prefix (a b : string) :
  strncmp_eq a b (strlen b) = true -> exists r, a = (c_str b ++ r)%string.
Proof.
  unfold strlen. revert a. induction b as [|y b IH]; intros a; cbn [c_str].
  - intros _. exists a. reflexivity.
  - destruct (Ascii.eqb y NUL) eqn:Ey; [intros _; exists a; reflexivity|].
    cbn [String.length strncmp_eq peek SKIP_CHAR].
    destruct (Ascii.eqb (peek a) y) eqn:Ea; [|discriminate].
    apply ascii_eqb_true in Ea. destruct a as [|x a]; cbn [peek] in Ea.
    + subst y. discriminate.
    + subst y. cbn [peek]. rewrite Ey. cbn [SKIP_CHAR]. intros H.
      destruct (IH a H) as [r ->]. exists r. reflexivity.
Qed.

Lemma prefix_length (t s : string) :
  String.prefix t s = true -> (String.length t <= String.length s)%nat.
Proof.
  revert s. induction t as [|x t IH]; intros s; cbn; [lia|].
  destruct s as [|y s]; [discriminate|]. cbn [String.prefix].
  destruct (Ascii.ascii_dec x y); [|discriminate].
  intros H. apply IH in H. cbn. lia.
Qed.

Lemma strstr_bound (s t : string) (offset : nat) :
  strstr s t = Some offset -> (offset + String.length t <= String.length s)%nat.
Proof.
  revert offset. induction s as [|c s IH]; intros offset; cbn [strstr].
  - destruct (String.prefix t "") eqn:E; [|discriminate]. intros [= <-].
    apply prefix_length in E. lia.
  - destruct (String.prefix t (String c s)) eqn:E.
    + intros [= <-]. apply prefix_length in E. lia.
    + destruct (strstr s t) as [k|] eqn:Ek; [|discriminate]. cbn. intros [= <-].
      specialize (IH k eq_refl). cbn. lia.
Qed.

(** Enough rounds: the loop ends at the terminator, whatever is left of the
    budget. *)
Lemma remove_comments_loop_fuel (st en : string) (f1 f2 : nat) (s : string) (i e : bool) :
  (0 < strlen st)%nat ->
  (String.length s <= f1)%nat -> (String.length s <= f2)%nat ->
  remove_comments_loop f1 s st en i e = remove_comments_loop f2 s st en i e.
Proof.
  intros Hst. revert f2 s i e. induction f1 as [|f1 IH]; intros f2 s i e H1 H2.
  - destruct s; [|cbn in H1; lia]. destruct f2; reflexivity.
  - destruct f2 as [|f2].
    + destruct s; [|cbn in H2; lia]. reflexivity.
    + rewrite !remove_comments_loop_unfold.
      destruct (Ascii.eqb (peek s) NUL) eqn:E0; [reflexivity|].
      assert (Hs : (String.length (SKIP_CHAR s) < String.length s)%nat).
      { destruct s; [discriminate | cbn; lia]. }
      destruct (Ascii.eqb (peek s) "\" && negb e); [f_equal; apply IH; lia|].
      destruct (Ascii.eqb (peek s) DQUOTE && negb e); [f_equal; apply IH; lia|].
      destruct (negb i && strncmp_eq s st (strlen st)).
      * destruct (strstr _ _) as [offset|]; [|reflexivity]. f_equal.
        apply IH; rewrite !advance_length_minus; lia.
      * f_equal; apply IH; lia.
Qed.


Lemma blanked_refl (a : string) : blanked a a.
Proof. unfold blanked. induction a; cbn; constructor; auto. Qed.

Lemma blanked_cons (c : ascii) (a b : string) : blanked a b -> blanked (String c a) (String c b).
Proof. intros H. unfold blanked. cbn. constructor; auto. Qed.

Lemma blanked_spaces (a : string) : blanked a (spaces (String.length a)).
Proof. unfold blanked. induction a; cbn; constructor; auto. Qed.

Lemma blanked_app (a b a' b' : string) :
  blanked a a' -> blanked b b' -> blanked (a ++ b) (a' ++ b').
Proof.
  unfold blanked. rewrite !list_ascii_append. apply Forall2_app.
Qed.

Lemma remove_comments_loop_blanked (st en : string) (fuel : nat) (s : string) (i e : bool) :
  blanked s (remove_comments_loop fuel s st en i e).
Proof.
  revert s i e. induction fuel as [|fuel IH]; intros s i e; [apply blanked_refl|].
  rewrite remove_comments_loop_unfold.
  destruct (Ascii.eqb (peek s) NUL) eqn:E0; [apply blanked_refl|].
  pose proof (peek_not_NUL s E0) as Es.
  destruct (Ascii.eqb (peek s) "\" && negb e);
    [rewrite Es at 1; apply blanked_cons, IH|].
  destruct (Ascii.eqb (peek s) DQUOTE && negb e);
    [rewrite Es at 1; apply blanked_cons, IH|].
  destruct (negb i && strncmp_eq s st (strlen st)) eqn:Ec;
    [|rewrite Es at 1; apply blanked_cons, IH].
  apply andb_true_iff in Ec as [_ Ec]. apply strncmp_eq_prefix in Ec as [r Er].
  assert (Hadv : advance (strlen st) s = r).
  { rewrite Er. apply advance_append. }
  rewrite Hadv. destruct (strstr (c_str r) (c_str en)) as [offset|] eqn:Eoff.
  - apply strstr_bound in Eoff. fold (strlen en) in Eoff.
    pose proof (c_str_length r) as Hr.
    destruct (advance_split (offset + strlen en) r ltac:(lia)) as [Esplit Hlen].
    rewrite spaces_add, append_assoc. rewrite Er at 1. rewrite Esplit at 1.
    apply blanked_app; [apply blanked_spaces|].
    apply blanked_app; [|apply IH].
    rewrite <- Hlen at 2. apply blanked_spaces.
  - rewrite Er at 1. apply blanked_app; [apply blanked_spaces | apply blanked_refl].
Qed.

Lemma escape_char_loop (es : bool) (c : ascii) (r st en : string) :
  c <> NUL ->
  remove_comments_loop (String.length (escape_char es c ++ r)) (escape_char es c ++ r)
    st en true false
  = (escape_char es c ++ remove_comments_loop (String.length r) r st en true false)%string.
Proof.
  intros Hc.
  destruct c as [[] [] [] [] [] [] [] []]; destruct es;
    first [ now contradiction Hc | reflexivity ].
Qed.

Lemma blanked_char_at (a b : string) :
  blanked a b ->
  String.length b = String.length a
  /\ forall i, char_at i b = char_at i a \/ char_at i b = " "%char.
Proof.
  unfold blanked. revert b. induction a as [|x a IH]; intros b H.
  - destruct b; [|inversion H]. split; [reflexivity | now left].
  - destruct b as [|y b]; [inversion H|]. cbn in H.
    apply Forall2_cons in H as [Hxy H]. destruct (IH b H) as [Hl Hc].
    split; [cbn; now rewrite Hl|]. intros [|i]; [exact Hxy | apply Hc].
Qed.

Lemma escape_string_loop (es : bool) (t r st en : string) :
  (0 < strlen st)%nat -> nul_free t ->
  remove_comments_loop (String.length (escape_string es t ++ r)) (escape_string es t ++ r)
    st en true false
  = (escape_string es t ++ remove_comments_loop (String.length r) r st en true false)%string.
Proof.
  intros Hst. induction t as [|c t IH]; intros Ht; [reflexivity|].
  apply nul_free_cons in Ht as [Hc Ht]. cbn [escape_string].
  rewrite !append_assoc, escape_char_loop by assumption. now rewrite IH.
Qed.

Lemma quoted_text_loop (es : bool) (s rest st en : string) :
  (0 < strlen st)%nat ->
  remove_comments_loop (String.length (quoted_text es s ++ rest)) (quoted_text es s ++ rest)
    st en false false
  = (quoted_text es s ++ remove_comments_loop (String.length rest) rest st en false false)%string.
Proof.
  intros Hst. unfold quoted_text.
  change (String DQUOTE ?a ++ rest)%string with (String DQUOTE (a ++ rest)).
  cbn [String.length]. rewrite remove_comments_loop_unfold.
  cbn [peek SKIP_CHAR]. change (Ascii.eqb DQUOTE NUL) with false.
  change (Ascii.eqb DQUOTE "\") with false. rewrite Ascii.eqb_refl. cbn [andb negb].
  rewrite !append_assoc.
  rewrite escape_string_loop by (auto; apply c_str_nul_free).
  change (String DQUOTE "" ++ ?a)%string with (String DQUOTE a).
  cbn [String.length]. rewrite remove_comments_loop_unfold.
  cbn [peek SKIP_CHAR]. change (Ascii.eqb DQUOTE NUL) with false.
  change (Ascii.eqb DQUOTE "\") with false. rewrite Ascii.eqb_refl. cbn [andb negb].
  change (String DQUOTE ?a ++ ?b)%string with (String DQUOTE (a ++ b)).
  now rewrite append_assoc.
Qed.

Lemma remove_comments_unfold (st en s : string) :
  (0 < strlen st)%nat -> (0 < strlen en)%nat ->
  remove_comments s st en = remove_comments_loop (String.length s) s st en false false.
Proof.
  intros H1 H2. unfold remove_comments.
  destruct (strlen st); [lia|]. destruct (strlen en); [lia|]. reflexivity.
Qed.


Lemma c_str_append (a b : string) : nul_free a -> c_str (a ++ b) = (a ++ c_str b)%string.
Proof.
  induction a as [|x a IH]; intros Ha; [reflexivity|].
  apply nul_free_cons in Ha as [Hx Ha].
  change (String x a ++ ?b)%string with (String x (a ++ b)). cbn [c_str].
  apply ascii_eqb_false in Hx. rewrite Hx. now rewrite IH.
Qed.

(** The first occurrence of the end token is the one after a text without
    one. *)
Lemma strstr_block_end (c u : string) :
  strstr c "*/" = None -> strstr (c ++ "*/" ++ u) "*/" = Some (String.length c).
Proof.
  induction c as [|x c IH]; intros H.
  - change ("" ++ "*/" ++ u)%string with (String "*" (String "/" u)).
    cbn [strstr String.prefix].
    destruct (ascii_dec "*" "*") as [_|N]; [|contradiction].
    destruct (ascii_dec "/" "/") as [_|N]; [|contradiction]. now destruct u.
  - cbn [strstr] in H. destruct (String.prefix "*/" (String x c)) eqn:Ep; [discriminate|].
    destruct (strstr c "*/") eqn:Ec; [discriminate|].
    change (String x c ++ ?b)%string with (String x (c ++ b)). cbn [strstr].
    assert (Ep' : String.prefix "*/" (String x (c ++ "*/" ++ u)) = false).
    { cbn [String.prefix] in Ep |- *. destruct (ascii_dec "*" x) as [_|N]; [|reflexivity].
      destruct c as [|y c]; [reflexivity|].
      change (String y c ++ ?b)%string with (String y (c ++ b)).
      cbn [String.prefix] in Ep |- *.
      destruct (ascii_dec "/" y); [destruct c; discriminate | reflexivity]. }
    rewrite Ep', (IH eq_refl). reflexivity.
Qed.

Lemma block_comment_loop (c t : string) :
  nul_free c -> strstr c "*/" = None ->
  remove_comments ("/*" ++ c ++ "*/" ++ t) "/*" "*/"
  = (spaces (4 + String.length c) ++ remove_comments t "/*" "*/")%string.
Proof.
  intros Hc Hend. rewrite !remove_comments_unfold by (cbn; lia).
  change ("/*" ++ ?a)%string with (String "/" (String "*" a)).
  cbn [String.length]. rewrite remove_comments_loop_unfold.
  change (strlen "/*") with 2%nat. change (strlen "*/") with 2%nat.
  change (c_str "*/") with "*/"%string.
  change (advance 2 (String "/" (String "*" ?a))) with a.
  cbn [peek SKIP_CHAR strncmp_eq]. cbn [Ascii.eqb Bool.eqb andb negb].
  rewrite c_str_append by assumption.
  change (c_str ("*/" ++ t)) with ("*/" ++ c_str t)%string.
  rewrite strstr_block_end by assumption.
  replace (advance (String.length c + 2) (c ++ "*/" ++ t)) with t.
  2:{ replace (String.length c + 2)%nat with (String.length (c ++ "*/")) by (rewrite length_append; reflexivity).
      rewrite <- append_assoc. now rewrite advance_append. }
  replace (2 + (String.length c + 2))%nat with (4 + String.length c)%nat by lia.
  f_equal. apply remove_comments_loop_fuel; [cbn; lia | | lia].
  rewrite !length_append. cbn. lia.
Qed.

Lemma spaces_loop (n : nat) (u st en : string) :
  (0 < strlen st)%nat -> peek st <> " "%char ->
  remove_comments_loop (String.length (spaces n ++ u)) (spaces n ++ u) st en false false
  = (spaces n ++ remove_comments_loop (String.length u) u st en false false)%string.
Proof.
  intros Hst Hp. induction n as [|n IH]; [reflexivity|].
  rewrite spaces_S. change (String " " ?a ++ u)%string with (String " " (a ++ u)).
  cbn [String.length]. rewrite remove_comments_loop_unfold.
  cbn [peek SKIP_CHAR]. change (Ascii.eqb " " NUL) with false.
  change (Ascii.eqb " " "\") with false. change (Ascii.eqb " " DQUOTE) with false.
  cbn [andb negb].
  replace (strncmp_eq _ st (strlen st)) with false; [now rewrite IH|].
  destruct (strlen st) as [|k]; [lia|]. cbn [strncmp_eq peek].
  destruct (Ascii.eqb " " (peek st)) eqn:E; [|reflexivity].
  apply ascii_eqb_true in E. congruence.
Qed.

Lemma SKIP_WHITESPACES_spaces (n : nat) : SKIP_WHITESPACES (spaces n) = EmptyString.
Proof. induction n as [|n IH]; [reflexivity|]. rewrite spaces_S. exact IH. Qed.

(** A text without the first byte of the start token has no comment. *)
Lemma remove_comments_loop_plain (st en : string) (fuel : nat) (s : string) (i e : bool) :
  (0 < strlen st)%nat -> peek st ∉ list_ascii_of_string s ->
  remove_comments_loop fuel s st en i e = s.
Proof.
  intros Hst. revert s i e. induction fuel as [|fuel IH]; intros s i e Hs; [reflexivity|].
  rewrite remove_comments_loop_unfold.
  destruct (Ascii.eqb (peek s) NUL) eqn:E0; [reflexivity|].
  pose proof (peek_not_NUL s E0) as Es.
  assert (Hne : peek st <> peek s /\ peek st ∉ list_ascii_of_string (SKIP_CHAR s)).
  { rewrite Es in Hs. cbn [list_ascii_of_string] in Hs.
    now apply not_elem_of_cons in Hs. }
  destruct Hne as [Hne Hrest].
  destruct (Ascii.eqb (peek s) "\" && negb e); [rewrite IH by assumption; now symmetry|].
  destruct (Ascii.eqb (peek s) DQUOTE && negb e); [rewrite IH by assumption; now symmetry|].
  replace (strncmp_eq s st (strlen st)) with false.
  - rewrite andb_false_r. rewrite IH by assumption; now symmetry.
  - destruct (strlen st) as [|k]; [lia|]. cbn [strncmp_eq].
    destruct (Ascii.eqb (peek s) (peek st)) eqn:E; [|reflexivity].
    apply ascii_eqb_true in E. congruence.
Qed.

(** ** Copies *)

Lemma deep_copy_array_loop_all (a : JSON_Array) (n i : nat) :
  (i + n)%nat = List.length a ->
  deep_copy_array_loop n i (List.map Some a) (take i a) = Some a.
Proof.
  revert i. induction n as [|n IH]; intros i Hn; cbn [deep_copy_array_loop].
  - rewrite Nat.add_0_r in Hn. subst i. now rewrite firstn_all.
  - unfold json_array_get_value, json_array_add.
    change (List.map Some a) with (Some <$> a). rewrite list_lookup_fmap.
    destruct (lookup_lt_is_Some_2 a i ltac:(lia)) as [x Hx]. rewrite Hx. cbn [fmap option_fmap option_map].
    rewrite <- (take_S_r a i x Hx). apply IH. lia.
Qed.

Lemma names_nul_free_map {A B} (f : A -> B) (o : list (string * A)) :
  names_nul_free o -> names_nul_free (List.map (fun p => (fst p, f (snd p))) o).
Proof.
  unfold names_nul_free. intros H. induction H as [|[k v] o Hk Ho IH]; constructor; auto.
Qed.

Lemma names_map {A B} (f : A -> B) (o : list (string * A)) :
  (List.map (fun p => (fst p, f (snd p))) o).*1 = o.*1.
Proof. induction o as [|[k v] o IH]; cbn; [reflexivity | now rewrite IH]. Qed.

Lemma deep_copy_object_loop_all (o : JSON_Object) (n i : nat) :
  names_nul_free o -> NoDup o.*1 -> (i + n)%nat = List.length o ->
  deep_copy_object_loop n i o (List.map (fun p => (fst p, Some (snd p))) o) (take i o)
  = Some o.
Proof.
  intros Hnul Hnd. revert i. induction n as [|n IH]; intros i Hn; cbn [deep_copy_object_loop].
  - rewrite Nat.add_0_r in Hn. subst i. now rewrite firstn_all.
  - unfold json_object_get_name.
    destruct (lookup_lt_is_Some_2 o i ltac:(lia)) as [[k v] Hkv]. rewrite Hkv.
    cbn [fmap option_fmap option_map fst].
    assert (Hk : nul_free k).
    { apply (proj1 (Forall_forall _ _) Hnul (k, v)). eapply list_elem_of_lookup_2, Hkv. }
    rewrite (json_object_get_value_elem _ k (Some v)).
    + assert (Habs : json_object_get_value (take i o) k = None).
      { apply json_object_get_value_not_in; [| exact Hk |].
        - unfold names_nul_free. now apply Forall_take.
        - intros Hin. apply list_elem_of_fmap in Hin as ([k' v'] & Hk' & Hin).
          cbn [fst] in Hk'. subst k'.
          apply list_elem_of_lookup_1 in Hin as [j Hj].
          pose proof (lookup_lt_Some _ _ _ Hj) as Hlt. rewrite length_take in Hlt.
          rewrite lookup_take_lt in Hj by lia.
          assert (Hij : o.*1 !! j = Some k) by (rewrite list_lookup_fmap, Hj; reflexivity).
          assert (Hii : o.*1 !! i = Some k) by (rewrite list_lookup_fmap, Hkv; reflexivity).
          pose proof (NoDup_lookup _ _ _ _ Hnd Hij Hii). lia. }
      unfold json_object_add, json_object_addn. unfold json_object_get_value in Habs.
      rewrite Habs. rewrite parson_strndup_strlen, Hk.
      rewrite <- (take_S_r o i (k, v) Hkv). apply IH. lia.
    + now apply names_nul_free_map.
    + now rewrite names_map.
    + apply list_elem_of_lookup_2 with i.
      change (List.map ?f o) with (f <$> o). now rewrite list_lookup_fmap, Hkv.
Qed.

Lemma json_value_deep_copy_same (v : JSON_Value) :
  well_formed v -> json_value_deep_copy v = Some v.
Proof.
  induction v as [ | s | d | o IH | a IH | b ] using JSON_Value_ind'; intros Hwf;
    inversion Hwf as [ | ? Hs | ? Hd | | ? Ha | ? Hn Hnd Hch ]; subst;
    cbn [json_value_deep_copy].
  - reflexivity.
  - unfold json_value_init_string_no_copy. rewrite parson_strndup_strlen.
    now rewrite c_str_nul_free, Hs.
  - unfold json_value_init_number, json_value_get_number. now rewrite Hd.
  - replace (List.map (fun p => (fst p, json_value_deep_copy (snd p))) o)
      with (List.map (fun p : string * JSON_Value => (fst p, Some (snd p))) o).
    + unfold json_object_get_count.
      pose proof (deep_copy_object_loop_all o (List.length o) 0 Hn Hnd eq_refl) as L.
      change (take 0 o) with (@nil (string * JSON_Value)) in L. now rewrite L.
    + clear -IH Hch. induction IH as [|[k x] o Hx Ho IHo]; [reflexivity|].
      apply Forall_cons in Hch as [Hwx Hch]. cbn [List.map fst snd] in *.
      now rewrite (Hx Hwx), IHo.
  - replace (List.map json_value_deep_copy a) with (List.map Some a).
    + unfold json_array_get_count.
      pose proof (deep_copy_array_loop_all a (List.length a) 0 eq_refl) as L.
      change (take 0 a) with (@nil JSON_Value) in L. now rewrite L.
    + clear -IH Ha. induction IH as [|x a Hx Hxs IHa]; [reflexivity|].
      apply Forall_cons in Ha as [Hwx Ha]. cbn [List.map].
      now rewrite (Hx Hwx), IHa.
  - unfold json_value_init_boolean, json_value_get_boolean. now destruct b.
Qed.

(** ** Validation *)

Lemma validate_loop_success (n i : nat) (check : nat -> JSON_Status) :
  validate_loop n i check = JSONSuccess <->
  forall j, (i <= j < i + n)%nat -> check j = JSONSuccess.
Proof.
  revert i. induction n as [|n IH]; intros i; cbn [validate_loop].
  - split; [intros _ j Hj; lia | reflexivity].
  - destruct (check i) eqn:E.
    + rewrite IH. split; intros H j Hj.
      * destruct (Nat.eq_dec j i) as [-> | Hne]; [exact E | apply H; lia].
      * apply H. lia.
    + split; [discriminate|]. intros H. rewrite <- E. apply H. lia.
Qed.

(** ** Further properties of the parser and the serializer *)

(** X1. Every tree [json_parse_string] returns is well formed: its strings
    and names are C strings, the names of each object are distinct, its
    numbers are finite; and no value of it lies inside more than 2048
    arrays or objects. *)
Theorem json_parse_string_well_formed
    (strtod : string -> double * nat * bool) (s : string) (v : JSON_Value) :
  json_parse_string strtod s = Ok v ->
  well_formed v /\ json_depth v <= MAX_NESTING.
Proof.
  unfold json_parse_string.
  destruct (parse_value strtod _ (skip_bom s) 0) as [[v' rest]| |] eqn:E;
    try discriminate.
  cbn [bind]. intros [= <-].
  destruct (parse_value_result strtod _ _ _ _ _ E) as [Hwf Hfits].
  split; [exact Hwf|]. unfold fits in Hfits. apply Z.leb_le in Hfits. lia.
Qed.

Lemma json_parse_string_well_formed_witness :
  let s := dq "{'a':[1,true,{}],'b\u0000c':null,'d':'e'}" in
  exists v, json_parse_string RefLibc.strtod s = Ok v
            /\ well_formed v /\ json_depth v <= MAX_NESTING.
Proof.
  intros s.
  destruct (json_parse_string RefLibc.strtod s) as [v| |] eqn:E;
    [|vm_compute in E; discriminate..].
  exists v. split; [reflexivity|].
  exact (json_parse_string_well_formed RefLibc.strtod s v E).
Defined.



(** X3. The quoted text [json_serialize_string] writes for a string is read
    back by [get_quoted_string] as that string, whatever follows the closing
    quote. *)
Theorem string_escape_round_trip (parson_escape_slashes : bool) (s rest : string)
    (m : list ascii) (p : nat) :
  (p <= List.length m)%nat ->
  exists out,
    json_serialize_string parson_escape_slashes s m None
    = (Z.of_nat (String.length out), m)
    /\ json_serialize_string parson_escape_slashes s m (Some p)
       = (Z.of_nat (String.length out), store m p out)
    /\ get_quoted_string (out ++ rest) = Ok (c_str s, rest)
    /\ parse_string_value (out ++ rest) = Ok (json_string (c_str s), rest).
Proof.
  intros Hp. exists (quoted_text parson_escape_slashes s).
  destruct (json_serialize_string_writes parson_escape_slashes s m) as [Hn Hw].
  split; [exact Hn|]. split; [exact (Hw p Hp)|].
  assert (Hq : get_quoted_string (quoted_text parson_escape_slashes s ++ rest)
               = Ok (c_str s, rest)).
  { pose proof (get_quoted_string_quoted_text parson_escape_slashes (c_str s) rest
                  (c_str_nul_free s)) as H.
    unfold quoted_text in *. now rewrite c_str_nul_free in H. }
  split; [exact Hq|]. unfold parse_string_value. rewrite Hq.
  cbn [bind of_option json_value_init_string_no_copy]. now rewrite c_str_nul_free.
Qed.

Lemma string_escape_round_trip_witness :
  let s := String "009" (dq "a'b\c/") in
  exists out,
    json_serialize_string true s (replicate 20 "#"%char) (Some 2%nat)
    = (Z.of_nat (String.length out), store (replicate 20 "#"%char) 2 out)
    /\ get_quoted_string (out ++ ",1]") = Ok (s, ",1]"%string).
Proof.
  intros s.
  destruct (string_escape_round_trip true s ",1]" (replicate 20 "#"%char) 2%nat)
    as (out & _ & Hw & Hq & _); [cbn; lia|].
  exists out. split; [exact Hw | exact Hq].
Defined.


(** X5. [json_object_add] fails exactly when the object has a value under
    the name, and then changes nothing; when it succeeds, the object has one
    pair more, gives the new value under the name, and gives under every
    other name what it gave before. *)
Theorem json_object_add_lookup {V} (object : list (string * V)) (name : string)
    (value : V) :
  match json_object_add object name value with
  | (JSONFailure, object') =>
      object' = object /\ is_Some (json_object_get_value object name)
  | (JSONSuccess, object') =>
      json_object_get_value object name = None
      /\ json_object_get_value object' name = Some value
      /\ json_object_get_count object' = S (json_object_get_count object)
      /\ forall other,
           strcmp_eq other name = false ->
           json_object_get_value object' other = json_object_get_value object other
  end.
Proof.
  unfold json_object_add, json_object_addn, json_object_get_value.
  destruct (json_object_getn_value object name (strlen name)) as [old|] eqn:E.
  - split; [reflexivity | eauto].
  - rewrite parson_strndup_strlen. split; [reflexivity|]. split; [|split].
    + rewrite json_object_getn_value_app, E. cbn [json_object_getn_value].
      now rewrite name_matches_c_str.
    + unfold json_object_get_count. rewrite length_app. cbn. lia.
    + intros other Hother. rewrite json_object_getn_value_app.
      destruct (json_object_getn_value object other (strlen other)); [reflexivity|].
      cbn [json_object_getn_value]. rewrite name_matches_strcmp.
      unfold strcmp_eq in *. rewrite c_str_nul_free.
      rewrite String.eqb_sym. now rewrite Hother.
Qed.

(** X6. [json_parse_string] ignores whitespace in front of the text, and a
    byte order mark in front of that. *)
Theorem json_parse_string_leading
    (strtod : string -> double * nat * bool) (ws s : string) :
  SKIP_WHITESPACES ws = EmptyString ->
  skip_bom s = s ->
  json_parse_string strtod (ws ++ s) = json_parse_string strtod s
  /\ json_parse_string strtod (String "239" (String "187" (String "191" (ws ++ s))))
     = json_parse_string strtod s.
Proof.
  intros Hws Hbom.
  assert (H : forall f, (String.length (ws ++ s) < f)%nat ->
              bind (parse_value strtod f (ws ++ s) 0) (fun '(value, _) => Ok value)
              = json_parse_string strtod s).
  { intros f Hf. unfold json_parse_string. rewrite Hbom.
    rewrite parse_value_skips by exact Hws.
    rewrite (parse_value_fuel strtod f (S (String.length s)) s 0); [reflexivity| |lia].
    rewrite length_append in Hf. lia. }
  split.
  - destruct ws as [|c ws]; [reflexivity|].
    unfold json_parse_string at 1.
    assert (Hb : skip_bom (String c ws ++ s) = (String c ws ++ s)%string).
    { unfold skip_bom. cbn [String.append char_at String.get].
      cbn [SKIP_WHITESPACES] in Hws. destruct (isspace c) eqn:Ec; [|discriminate].
      destruct (Ascii.eqb c "239") eqn:E; [|reflexivity].
      apply ascii_eqb_true in E. subst c. discriminate. }
    rewrite Hb. apply H. lia.
  - unfold json_parse_string at 1.
    change (skip_bom (String "239" (String "187" (String "191" (ws ++ s)))))
      with (ws ++ s)%string.
    apply H. lia.
Qed.

Lemma json_parse_string_leading_witness :
  let ws := String "010" (String "009" " ") in
  json_parse_string RefLibc.strtod (ws ++ "[1]")
  = json_parse_string RefLibc.strtod "[1]"
  /\ json_parse_string RefLibc.strtod
       (String "239" (String "187" (String "191" (ws ++ "[1]"))))
     = json_parse_string RefLibc.strtod "[1]".
Proof.
  intros ws.
  apply (json_parse_string_leading RefLibc.strtod ws "[1]"); reflexivity.
Defined.

(** ** Further properties of the values in memory *)

(** X7. [json_array_append_value] either fails and changes nothing, or puts
    the value behind the items the array had, which stay where they were,
    and makes the array the parent of the value. *)
Theorem json_array_append_value_appends (h h' : Heap.heap) (array value : Heap.addr)
    (status : JSON_Status) :
  Heap.json_array_append_value h (Some array) (Some value) = Some (status, h') ->
  match status with
  | JSONFailure => h' = h
  | JSONSuccess =>
      exists n,
        Heap.json_array_get_count h (Some array) = Some n
        /\ Heap.json_array_get_count h' (Some array) = Some (S n)
        /\ Heap.json_array_get_value h' (Some array) n = Some (Some value)
        /\ (forall i, (i < n)%nat ->
              Heap.json_array_get_value h' (Some array) i
              = Heap.json_array_get_value h (Some array) i)
        /\ Heap.json_value_get_parent h (Some value) = Some None
        /\ Heap.json_value_get_parent h' (Some value) = Some (Some array)
  end.
Proof.
  unfold Heap.json_array_append_value.
  destruct (Heap.load h value) as [cv|] eqn:Ev; [|discriminate]. cbn [mbind option_bind].
  destruct (Heap.parent cv) eqn:Ep; [now intros [= <- <-]|].
  unfold Heap.json_array_add.
  destruct (Heap.get_items h array) as [items|] eqn:Ei; [|discriminate].
  cbn [mbind option_bind].
  destruct (Heap.set_parent h value (Some array)) as [h1|] eqn:Eset; [|discriminate].
  cbn [mbind option_bind].
  destruct (Heap.set_items h1 array (items ++ [value])) as [h2|] eqn:Eitems;
    [|discriminate].
  cbn [mbind option_bind]. intros [= <- <-].
  destruct (set_items_load _ _ _ _ Eitems) as (Hget & Hpar & Hother).
  exists (List.length items).
  unfold Heap.json_array_get_count, Heap.json_array_get_value.
  rewrite Ei, Hget. cbn [mbind option_bind].
  split; [reflexivity|]. split; [rewrite length_app; cbn; f_equal; lia|].
  split; [now rewrite list_lookup_middle|].
  split; [intros i Hi; now rewrite lookup_app_l by exact Hi|].
  split; [unfold Heap.json_value_get_parent; rewrite Ev; cbn; now rewrite Ep|].
  exact (attached_parent h h1 h2 array value Eset Hpar Hother).
Qed.

Lemma json_array_append_value_appends_witness :
  let calls := [Heap.init_array; Heap.init_null; Heap.init_null;
                Heap.array_append_value (Some 1%positive) (Some 2%positive)] in
  exists h h',
    Heap.run calls Heap.empty_heap = Some h
    /\ Heap.json_array_append_value h (Some 1%positive) (Some 3%positive)
       = Some (JSONSuccess, h')
    /\ Heap.json_array_get_value h' (Some 1%positive) 1 = Some (Some 3%positive)
    /\ Heap.json_value_get_parent h' (Some 3%positive) = Some (Some 1%positive).
Proof.
  intros calls.
  destruct (Heap.run calls Heap.empty_heap) as [h|] eqn:Erun;
    [|vm_compute in Erun; discriminate].
  destruct (Heap.json_array_append_value h (Some 1%positive) (Some 3%positive))
    as [[[|] h']|] eqn:E;
    [|vm_compute in Erun; injection Erun as <-; vm_compute in E; discriminate..].
  exists h, h'. split; [reflexivity|]. split; [exact E|].
  pose proof (json_array_append_value_appends h h' 1%positive 3%positive JSONSuccess E)
    as (n & Hn & _ & Hlast & _ & _ & Hparent).
  assert (n = 1%nat).
  { vm_compute in Erun. injection Erun as <-. vm_compute in Hn. congruence. }
  subst n. split; assumption.
Defined.

(** X8. [json_object_set_value] either fails and changes nothing, or makes
    the object give the value under the name and makes the object the
    parent of the value.  The value the object had under the name is freed
    and its place taken; without one the object gets a pair more. *)
Theorem json_object_set_value_sets (h h' : Heap.heap) (object value : Heap.addr)
    (name : string) (status : JSON_Status) :
  Heap.json_object_set_value h (Some object) (Some name) (Some value)
  = Some (status, h') ->
  match status with
  | JSONFailure => h' = h
  | JSONSuccess =>
      Heap.json_object_get_value h' (Some object) (Some name) = Some (Some value)
      /\ Heap.json_value_get_parent h (Some value) = Some None
      /\ Heap.json_value_get_parent h' (Some value) = Some (Some object)
      /\ exists old n,
           Heap.json_object_get_value h (Some object) (Some name) = Some old
           /\ Heap.json_object_get_count h (Some object) = Some n
           /\ Heap.json_object_get_count h' (Some object)
              = Some (if old is Some _ then n else S n)
           /\ forall x, old = Some x -> Heap.load h' x = None
  end.
Proof.
  unfold Heap.json_object_set_value.
  destruct (Heap.load h value) as [cv|] eqn:Ev; [|discriminate]. cbn [mbind option_bind].
  destruct (Heap.parent cv) eqn:Ep; [now intros [= <- <-]|].
  assert (Hroot : Heap.json_value_get_parent h (Some value) = Some None)
    by (unfold Heap.json_value_get_parent; rewrite Ev; cbn; now rewrite Ep).
  destruct (Heap.get_pairs h object) as [pairs|] eqn:Epairs; [|discriminate].
  cbn [mbind option_bind].
  assert (Hadd : forall h0 pairs0,
             Heap.get_pairs h0 object = Some pairs0 ->
             json_object_getn_value pairs0 name (strlen name) = None ->
             Heap.json_object_add h0 object name value = Some (status, h') ->
             status = JSONSuccess
             /\ Heap.get_pairs h' object = Some (pairs0 ++ [(c_str name, value)])
             /\ Heap.json_value_get_parent h' (Some value) = Some (Some object)
             /\ forall x, Heap.load h0 x = None -> Heap.load h' x = None).
  { intros h0 pairs0 Hp0 Hnone. unfold Heap.json_object_add, Heap.json_object_addn.
    rewrite Hp0. cbn [mbind option_bind]. rewrite Hnone, parson_strndup_strlen.
    destruct (Heap.set_parent h0 value (Some object)) as [h1|] eqn:Eset; [|discriminate].
    cbn [mbind option_bind].
    destruct (Heap.set_pairs h1 object _) as [h2|] eqn:Eset2; [|discriminate].
    cbn [mbind option_bind]. intros [= <- <-].
    destruct (set_pairs_load _ _ _ _ Eset2) as (Hget & Hpar & Hother).
    split; [reflexivity|]. split; [exact Hget|].
    split; [exact (attached_parent h0 h1 h2 object value Eset Hpar Hother)|].
    intros x Hx. destruct (set_parent_load _ _ _ _ Eset) as [(c1 & Hc1 & _) Hother1].
    assert (Hx1 : Heap.load h1 x = None).
    { rewrite Hother1; [exact Hx | congruence]. }
    rewrite Hother; [exact Hx1|].
    unfold Heap.set_pairs in Eset2. intros ->. now rewrite Hx1 in Eset2. }
  destruct (json_object_get_value pairs name) as [old_value|] eqn:Eold.
  - destruct (Heap.json_value_free h (Some old_value)) as [h1|] eqn:Efree;
      [|discriminate].
    cbn [mbind option_bind].
    pose proof (json_value_free_shrinks _ _ _ Efree) as Hs.
    destruct (json_value_free_r_frees _ _ _ _ Efree) as (_ & Hdead & _).
    destruct (Heap.get_pairs h1 object) as [pairs1|] eqn:Epairs1; [|discriminate].
    cbn [mbind option_bind].
    assert (pairs1 = pairs)
      by (pose proof (shrinks_get_pairs _ _ _ _ Hs Epairs1); congruence).
    subst pairs1.
    destruct (lookup_find_name pairs name) as [i Hi]; [unfold json_object_get_value in Eold; eauto|].
    rewrite Hi.
    destruct (Heap.set_parent h1 value (Some object)) as [h2|] eqn:Eset; [|discriminate].
    cbn [mbind option_bind].
    rewrite (set_parent_get_pairs _ _ _ object _ Eset), Epairs1.
    cbn [mbind option_bind].
    destruct (Heap.set_pairs h2 object _) as [h3|] eqn:Eset2; [|discriminate].
    cbn [mbind option_bind]. intros [= <- <-].
    destruct (set_pairs_load _ _ _ _ Eset2) as (Hget & Hpar & Hother).
    destruct (find_name_lookup pairs name i value Hi) as [Hlook Hlen].
    unfold Heap.json_object_get_value, Heap.json_object_get_count.
    rewrite Hget, Epairs. cbn [mbind option_bind]. rewrite Hlook, Hlen.
    split; [reflexivity|]. split; [exact Hroot|].
    split; [exact (attached_parent h1 h2 h3 object value Eset Hpar Hother)|].
    exists (Some old_value), (List.length pairs).
    unfold json_object_get_value in Eold. rewrite ?Eold.
    split; [reflexivity|]. split; [reflexivity|]. split; [reflexivity|].
    intros x [= <-].
    destruct (set_parent_load _ _ _ _ Eset) as [(c1 & Hc1 & _) Hother1].
    assert (Hx1 : Heap.load h2 old_value = None).
    { rewrite Hother1; [exact Hdead | congruence]. }
    rewrite Hother; [exact Hx1|].
    unfold Heap.set_pairs in Eset2. intros Heq. rewrite Heq in Hx1.
    now rewrite Hx1 in Eset2.
  - intros H. unfold json_object_get_value in Eold.
    destruct (Hadd h pairs Epairs Eold H) as (-> & Hget & Hparent & _).
    unfold Heap.json_object_get_value, Heap.json_object_get_count.
    rewrite Hget, Epairs. cbn [mbind option_bind].
    rewrite json_object_getn_value_app, Eold. cbn [json_object_getn_value].
    rewrite name_matches_c_str.
    split; [reflexivity|]. split; [exact Hroot|]. split; [exact Hparent|].
    exists None, (List.length pairs). rewrite ?Eold.
    split; [reflexivity|]. split; [reflexivity|].
    split; [rewrite length_app; cbn; f_equal; lia | discriminate].
Qed.

Lemma json_object_set_value_sets_witness :
  let calls := [Heap.init_object; Heap.init_null; Heap.init_array;
                Heap.object_set_value (Some 1%positive) (Some "k"%string)
                  (Some 2%positive)] in
  exists h h',
    Heap.run calls Heap.empty_heap = Some h
    /\ Heap.json_object_set_value h (Some 1%positive) (Some "k"%string) (Some 3%positive)
       = Some (JSONSuccess, h')
    /\ Heap.json_object_get_value h' (Some 1%positive) (Some "k"%string)
       = Some (Some 3%positive)
    /\ Heap.load h' 2%positive = None.
Proof.
  intros calls.
  destruct (Heap.run calls Heap.empty_heap) as [h|] eqn:Erun;
    [|vm_compute in Erun; discriminate].
  destruct (Heap.json_object_set_value h (Some 1%positive) (Some "k"%string)
              (Some 3%positive)) as [[[|] h']|] eqn:E;
    [|vm_compute in Erun; injection Erun as <-; vm_compute in E; discriminate..].
  exists h, h'. split; [reflexivity|]. split; [exact E|].
  pose proof (json_object_set_value_sets h h' 1%positive 3%positive "k" JSONSuccess E)
    as (Hget & _ & _ & old & n & Hold & _ & _ & Hfreed).
  split; [exact Hget|]. apply Hfreed.
  vm_compute in Erun. injection Erun as <-. vm_compute in Hold.
  injection Hold as <-. reflexivity.
Defined.

(** X9. [json_array_remove] either fails and changes nothing, which it does
    exactly when the index is not below the count, or frees the item at the
    index and moves the items behind it one place down. *)
Theorem json_array_remove_frees (h h' : Heap.heap) (array : Heap.addr) (ix : nat)
    (status : JSON_Status) :
  Heap.json_array_remove h (Some array) ix = Some (status, h') ->
  exists n,
    Heap.json_array_get_count h (Some array) = Some n
    /\ match status with
       | JSONFailure => h' = h /\ (n <= ix)%nat
       | JSONSuccess =>
           (ix < n)%nat
           /\ Heap.json_array_get_count h' (Some array) = Some (n - 1)%nat
           /\ (exists x, Heap.json_array_get_value h (Some array) ix = Some (Some x)
                         /\ Heap.load h' x = None)
           /\ (forall i, (i < ix)%nat ->
                 Heap.json_array_get_value h' (Some array) i
                 = Heap.json_array_get_value h (Some array) i)
           /\ (forall i, (ix <= i)%nat ->
                 Heap.json_array_get_value h' (Some array) i
                 = Heap.json_array_get_value h (Some array) (S i))
       end.
Proof.
  unfold Heap.json_array_remove.
  destruct (Heap.get_items h array) as [items|] eqn:Ei; [|discriminate].
  cbn [mbind option_bind]. intros H. exists (List.length items).
  split; [unfold Heap.json_array_get_count; now rewrite Ei|]. revert H.
  destruct (Nat.leb_spec (List.length items) ix) as [Hix | Hix];
    [intros [= <- <-]; now split|].
  destruct (items !! ix) as [x|] eqn:Ex; [|apply lookup_ge_None in Ex; lia].
  destruct (Heap.json_value_free h (Some x)) as [h1|] eqn:Efree; [|discriminate].
  cbn [mbind option_bind].
  pose proof (json_value_free_shrinks _ _ _ Efree) as Hs.
  destruct (json_value_free_r_frees _ _ _ _ Efree) as (_ & Hdead & _).
  destruct (Heap.get_items h1 array) as [items1|] eqn:Ei1; [|discriminate].
  cbn [mbind option_bind]. cbv zeta.
  assert (items1 = items)
    by (pose proof (shrinks_get_items _ _ _ _ Hs Ei1); congruence).
  subst items1.
  destruct (Heap.set_items h1 array _) as [h2|] eqn:Eset; [|discriminate].
  cbn [mbind option_bind]. intros [= <- <-].
  destruct (set_items_load _ _ _ _ Eset) as (Hget & _ & Hother).
  pose proof (json_array_remove_shift items ix Hix) as Hshift.
  unfold json_array_remove, json_array_get_count in Hshift.
  replace (List.length items <=? ix)%nat with false in Hshift
    by (symmetry; apply Nat.leb_gt; lia).
  cbv zeta in Hshift. injection Hshift as Hshift. rewrite Hshift in Hget.
  unfold Heap.json_array_get_count, Heap.json_array_get_value.
  rewrite Hget, Ei. cbn [mbind option_bind].
  split; [exact Hix|]. split.
  { f_equal. rewrite length_app, length_take, length_drop. lia. }
  split.
  { exists x. split; [now rewrite Ex|]. rewrite Hother; [exact Hdead|].
    unfold Heap.get_items in Ei1. intros ->. now rewrite Hdead in Ei1. }
  split.
  - intros i Hi. f_equal.
    rewrite lookup_app_l by (rewrite length_take; lia). now apply lookup_take_lt.
  - intros i Hi. f_equal.
    rewrite lookup_app_r by (rewrite length_take; lia).
    rewrite length_take, lookup_drop. f_equal. lia.
Qed.

Lemma json_array_remove_frees_witness :
  let calls := [Heap.init_array;
                Heap.array_append_number (Some 1%positive) (S754_zero false);
                Heap.array_append_null (Some 1%positive);
                Heap.array_append_boolean (Some 1%positive) 1] in
  exists h h',
    Heap.run calls Heap.empty_heap = Some h
    /\ Heap.json_array_remove h (Some 1%positive) 1 = Some (JSONSuccess, h')
    /\ Heap.json_array_get_count h' (Some 1%positive) = Some 2%nat
    /\ Heap.json_array_get_value h' (Some 1%positive) 1
       = Heap.json_array_get_value h (Some 1%positive) 2.
Proof.
  intros calls.
  destruct (Heap.run calls Heap.empty_heap) as [h|] eqn:Erun;
    [|vm_compute in Erun; discriminate].
  destruct (Heap.json_array_remove h (Some 1%positive) 1) as [[[|] h']|] eqn:E;
    [|vm_compute in Erun; injection Erun as <-; vm_compute in E; discriminate..].
  exists h, h'. split; [reflexivity|]. split; [exact E|].
  destruct (json_array_remove_frees h h' 1%positive 1 JSONSuccess E)
    as (n & Hn & _ & Hcount & _ & _ & Hshift).
  assert (n = 3%nat).
  { vm_compute in Erun. injection Erun as <-. vm_compute in Hn. congruence. }
  subst n. split; [exact Hcount | apply Hshift; lia].
Defined.

(** X10. When [json_value_free] returns, it has freed the value and what is
    reached from the value through items, and nothing else: every other
    value is as it was. *)
Theorem json_value_free_frees (h h' : Heap.heap) (value : Heap.addr) :
  Heap.json_value_free h (Some value) = Some h' ->
  forall x c,
    Heap.load h x = Some c ->
    (Heap.reaches h value x -> Heap.load h' x = None)
    /\ (~ Heap.reaches h value x -> Heap.load h' x = Some c).
Proof.
  intros Hfree x c Hx.
  destruct (json_value_free_r_frees _ _ _ _ Hfree) as (Hs & Hdead & Hclosed & Hwithin).
  split.
  - intros Hreach. clear c Hx.
    induction Hreach as [|y z cy Hy IH Hcy Hz]; [exact Hdead|].
    exact (Hclosed y cy Hcy IH z Hz).
  - intros Hnot. destruct (Heap.load h' x) as [c'|] eqn:E.
    + pose proof (shrinks_load _ _ _ _ Hs E). congruence.
    + exfalso. exact (Hnot (Hwithin x c Hx E)).
Qed.

Lemma json_value_free_frees_witness :
  let calls := [Heap.init_array; Heap.init_object;
                Heap.object_set_string (Some 2%positive) (Some "k"%string)
                  (Some "v"%string);
                Heap.array_append_value (Some 1%positive) (Some 2%positive);
                Heap.init_null] in
  exists h h',
    Heap.run calls Heap.empty_heap = Some h
    /\ Heap.json_value_free h (Some 1%positive) = Some h'
    /\ Heap.load h' 3%positive = None
    /\ is_Some (Heap.load h 3%positive).
Proof.
  intros calls.
  destruct (Heap.run calls Heap.empty_heap) as [h|] eqn:Erun;
    [|vm_compute in Erun; discriminate].
  destruct (Heap.json_value_free h (Some 1%positive)) as [h'|] eqn:E;
    [|vm_compute in Erun; injection Erun as <-; vm_compute in E; discriminate].
  exists h, h'. split; [reflexivity|]. split; [exact E|].
  assert (H3 : Heap.load h 3%positive
               = Some {| Heap.parent := Some 2%positive;
                         Heap.value := Heap.value_string "v" |})
    by (vm_compute in Erun; injection Erun as <-; reflexivity).
  assert (H2 : Heap.load h 2%positive
               = Some {| Heap.parent := Some 1%positive;
                         Heap.value := Heap.value_object [("k"%string, 3%positive)] |})
    by (vm_compute in Erun; injection Erun as <-; reflexivity).
  assert (H1 : Heap.load h 1%positive
               = Some {| Heap.parent := None;
                         Heap.value := Heap.value_array [2%positive] |})
    by (vm_compute in Erun; injection Erun as <-; reflexivity).
  split; [|rewrite H3; eauto].
  apply (proj1 (json_value_free_frees h h' 1%positive E 3%positive _ H3)).
  apply (Heap.reaches_item h 1%positive 2%positive 3%positive _
           (Heap.reaches_item h 1%positive 1%positive 2%positive _
              (Heap.reaches_refl h 1%positive) H1 ltac:(apply list_elem_of_here)) H2).
  apply list_elem_of_here.
Defined.

(** ** Comments *)

(** X11. [remove_comments] never moves or adds a byte: the text keeps its
    length, and every byte is either the one that was there or a space. *)
Theorem remove_comments_only_blanks (s start_token end_token : string) :
  String.length (remove_comments s start_token end_token) = String.length s
  /\ forall i,
       char_at i (remove_comments s start_token end_token) = char_at i s
       \/ char_at i (remove_comments s start_token end_token) = " "%char.
Proof.
  apply blanked_char_at. unfold remove_comments.
  destruct (_ || _); [apply blanked_refl | apply remove_comments_loop_blanked].
Qed.

(** X12. A string literal is left as it is, whatever it holds: on a text
    that starts with a string as [json_serialize_string] writes it,
    [remove_comments] keeps the literal and goes on behind it. *)
Theorem remove_comments_keeps_string_literal
    (escape_slashes : bool) (s rest start_token end_token : string) :
  remove_comments (quoted_text escape_slashes s ++ rest) start_token end_token
  = (quoted_text escape_slashes s ++ remove_comments rest start_token end_token)%string.
Proof.
  unfold remove_comments. destruct (strlen start_token =? 0)%nat eqn:E1; [reflexivity|].
  destruct (strlen end_token =? 0)%nat eqn:E2; [reflexivity|]. cbn [orb].
  apply Nat.eqb_neq in E1. apply quoted_text_loop. lia.
Qed.

(** X13. A block comment in front of a text is ignored:
    [json_parse_string_with_comments] gives for the text behind the comment
    what it gives for the text alone. *)
Theorem json_parse_string_with_comments_block
    (strtod : string -> double * nat * bool) (comment s : string) :
  nul_free comment -> strstr comment "*/" = None ->
  json_parse_string_with_comments strtod ("/*" ++ comment ++ "*/" ++ s)
  = json_parse_string_with_comments strtod s.
Proof.
  intros Hc Hend. unfold json_parse_string_with_comments.
  rewrite !parson_strndup_strlen.
  assert (Hcopy : c_str ("/*" ++ comment ++ "*/" ++ s)
                  = ("/*" ++ comment ++ "*/" ++ c_str s)%string).
  { change ("/*" ++ ?a)%string with (String "/" (String "*" a)).
    cbn [c_str]. change (Ascii.eqb "/" NUL) with false.
    change (Ascii.eqb "*" NUL) with false. cbv iota.
    now rewrite c_str_append by assumption. }
  rewrite Hcopy, block_comment_loop by assumption.
  set (t := remove_comments (c_str s) "/*" "*/").
  rewrite !(remove_comments_unfold "//") by (cbn; lia).
  rewrite spaces_loop by (cbn; first [lia | discriminate]).
  set (u := remove_comments_loop (String.length t) t "//" _ false false).
  rewrite parse_value_skips by apply SKIP_WHITESPACES_spaces.
  rewrite (parse_value_fuel strtod _ (S (String.length u))); [reflexivity | | lia].
  rewrite length_append. lia.
Qed.

Lemma json_parse_string_with_comments_block_witness :
  json_parse_string_with_comments RefLibc.strtod
    ("/*" ++ " a // b * / c " ++ "*/" ++ "[1]")
  = json_parse_string_with_comments RefLibc.strtod "[1]".
Proof.
  apply json_parse_string_with_comments_block; reflexivity.
Defined.

(** X14. On a text without a slash and without a byte order mark,
    [json_parse_string_with_comments] is [json_parse_string]. *)
Theorem json_parse_string_with_comments_plain
    (strtod : string -> double * nat * bool) (s : string) :
  nul_free s -> "/"%char ∉ list_ascii_of_string s -> skip_bom s = s ->
  json_parse_string_with_comments strtod s = json_parse_string strtod s.
Proof.
  intros Hnul Hs Hbom. unfold json_parse_string_with_comments, json_parse_string.
  rewrite parson_strndup_strlen, Hnul, Hbom.
  rewrite !remove_comments_unfold by (cbn; lia).
  rewrite (remove_comments_loop_plain "/*") by (cbn; first [lia | exact Hs]).
  now rewrite (remove_comments_loop_plain "//") by (cbn; first [lia | exact Hs]).
Qed.

Lemma json_parse_string_with_comments_plain_witness :
  json_parse_string_with_comments RefLibc.strtod (dq "{'a': [1, true]}")
  = json_parse_string RefLibc.strtod (dq "{'a': [1, true]}").
Proof.
  apply json_parse_string_with_comments_plain; [reflexivity | | reflexivity].
  vm_compute. intros H. repeat (apply elem_of_cons in H as [H | H]; [discriminate|]).
  inversion H.
Defined.

(** ** Copies and validation *)

(** X15. [json_value_deep_copy] succeeds on every well-formed tree, and the
    copy is the same tree: [json_value_equals] finds it equal to the
    original. *)
Theorem json_value_deep_copy_equal (v : JSON_Value) :
  well_formed v ->
  json_value_deep_copy v = Some v
  /\ json_value_equals v (json_value_deep_copy v) = true.
Proof.
  intros Hwf. rewrite json_value_deep_copy_same by assumption.
  split; [reflexivity | now apply json_value_equals_refl].
Qed.

Lemma json_value_deep_copy_equal_witness :
  let v := json_object [("a"%string, json_array [json_null; json_boolean true]);
                        ("b"%string, json_string "x")] in
  json_value_deep_copy v = Some v
  /\ json_value_equals v (json_value_deep_copy v) = true.
Proof.
  intros v. apply json_value_deep_copy_equal.
  repeat first [ constructor | reflexivity
               | intros H; repeat (apply elem_of_cons in H as [H | H]; [discriminate|]);
                 inversion H ].
Defined.

(** X16. Against an array schema that is not empty, only the first item of
    the schema counts: an array validates exactly when each of its items
    validates against that first item. *)
Theorem json_validate_array (item : JSON_Value) (others value : JSON_Array) :
  json_validate (json_array (item :: others)) (Some (json_array value)) = JSONSuccess
  <-> Forall (fun x => json_validate item (Some x) = JSONSuccess) value.
Proof.
  cbn [json_validate json_value_get_type json_value_get_array default].
  change (id value) with value.
  rewrite bool_decide_eq_true_2 by reflexivity. cbn [negb andb].
  rewrite validate_loop_success. unfold json_array_get_count, json_array_get_value.
  rewrite Forall_lookup. split.
  - intros H i x Hx. specialize (H i). rewrite Hx in H. apply H.
    apply lookup_lt_Some in Hx. lia.
  - intros H j Hj. destruct (lookup_lt_is_Some_2 value j ltac:(lia)) as [x Hx].
    rewrite Hx. now apply (H j).
Qed.

(** X17. Against an object schema that is not empty, an object validates
    exactly when it has at least as many members as the schema and, for
    each name of the schema, a value that validates against the schema's
    value for the name; further members and the order of the members do not
    count. *)
Theorem json_validate_object (schema value : JSON_Object) :
  well_formed (json_object schema) -> schema <> [] ->
  json_validate (json_object schema) (Some (json_object value)) = JSONSuccess
  <-> (List.length schema <= List.length value)%nat
      /\ forall name s, (name, s) ∈ schema ->
           exists x, json_object_get_value value name = Some x
                     /\ json_validate s (Some x) = JSONSuccess.
Proof.
  intros Hwf Hne. inversion Hwf as [ | | | | | ? Hn Hnd Hch ]; subst.
  cbn [json_validate json_value_get_type json_value_get_object default].
  change (id value) with value.
  rewrite bool_decide_eq_true_2 by reflexivity. cbn [negb andb].
  unfold json_object_get_count.
  destruct (List.length schema =? 0)%nat eqn:E0.
  { apply Nat.eqb_eq in E0. destruct schema; [contradiction | discriminate]. }
  destruct (List.length value <? List.length schema)%nat eqn:E1.
  { apply Nat.ltb_lt in E1. split; [discriminate | intros [H _]; lia]. }
  apply Nat.ltb_ge in E1. rewrite validate_loop_success.
  assert (Hcheck : forall name s, (name, s) ∈ schema ->
            json_object_get_value
              (List.map (fun p => (fst p, json_validate (snd p))) schema) name
            = Some (json_validate s)).
  { intros name s Hin. rewrite json_object_get_value_map.
    now rewrite (json_object_get_value_elem schema name s Hn Hnd Hin). }
  split.
  - intros H. split; [exact E1|]. intros name s Hin.
    pose proof Hin as Hin'. apply list_elem_of_lookup_1 in Hin' as [i Hi].
    specialize (H i ltac:(apply lookup_lt_Some in Hi; lia)).
    unfold json_object_get_name in H. rewrite Hi in H.
    cbn [fmap option_fmap option_map fst] in H.
    destruct (json_object_get_value value name) as [x|]; [|discriminate].
    rewrite (Hcheck name s Hin) in H. now exists x.
  - intros [_ H] i Hi. unfold json_object_get_name.
    destruct (lookup_lt_is_Some_2 schema i ltac:(lia)) as [[name s] Hs]. rewrite Hs.
    cbn [fmap option_fmap option_map fst].
    assert (Hin : (name, s) ∈ schema) by (eapply list_elem_of_lookup_2, Hs).
    destruct (H name s Hin) as (x & Hx & Hv). now rewrite Hx, (Hcheck name s Hin).
Qed.

Lemma json_validate_object_witness :
  let schema := [("a"%string, json_null); ("b"%string, json_array [])] in
  let value := [("c"%string, json_null); ("b"%string, json_array [json_null]);
                ("a"%string, json_boolean true)] in
  json_validate (json_object schema) (Some (json_object value)) = JSONSuccess
  <-> (List.length schema <= List.length value)%nat
      /\ forall name s, (name, s) ∈ schema ->
           exists x, json_object_get_value value name = Some x
                     /\ json_validate s (Some x) = JSONSuccess.
Proof.
  intros schema value. apply json_validate_object; [|discriminate].
  repeat first [ constructor | reflexivity
               | intros H; repeat (apply elem_of_cons in H as [H | H]; [discriminate|]);
                 inversion H ].
Defined.
